(** * DisMu: the per-guild queue and playback engine

    A shallow embedding of the queue and playback code of DisMu
    ([src/utility/helpers.py] and the three cogs under [src/cogs/]) and the
    properties of its queue operations, of [play_next_in_queue] and of the
    [after_song] callback.

    Conventions of the embedding:
    - [bot.guild_settings] is a dictionary from guild ids to settings; it is a
      [gmap Z GuildSettings], a missing guild raises [KeyError] as in Python;
    - a command is a computation in the monad [M]: it reads and writes the
      [Bot], may raise a Python exception, and leaves a trace of the messages
      it sends, the lines it logs and the streams it hands to the voice client;
    - yt-dlp is a function [extract_info] from a locator to the metadata it
      returns, [None] when the call raises;
    - discord.py's voice client is reduced to what the cogs observe: whether
      the guild has one, and whether its player is playing or paused;
    - sending a message does not fail, and a command runs without another one
      interleaving at its [await]s. *)

From Stdlib Require Import ZArith String.
From Stdlib Require Import Floats.SpecFloat.
From stdpp Require Import gmap.

Local Open Scope string_scope.
Local Open Scope Z_scope.

(** ** Data *)

(** A queued or playing entry: [(title, url)]. *)
Definition Song : Type := string * string.

(** Python's [float] is IEEE 754 binary64. *)
Definition float : Type := spec_float.
Definition float_zero : float := S754_zero false.
Definition float_half : float := S754_finite false 4503599627370496 (-53).
Definition float_two : float := S754_finite false 4503599627370496 (-51).

(** [bool(vol)] for a float: false exactly for [0.0] and [-0.0]. *)
Definition float_truthy (x : float) : bool := negb (SFeqb x float_zero).

(** The dictionary [ensure_guild_settings] creates for a guild. *)
Record GuildSettings := {
  volume : float;
  loop : bool;
  currently_playing : option Song;
  song_queue : list Song;
  replay : bool;
}.

Definition default_settings : GuildSettings :=
  {| volume := float_half; loop := false; currently_playing := None;
     song_queue := []; replay := false |}.

Definition set_volume (v : float) (gs : GuildSettings) : GuildSettings :=
  {| volume := v; loop := loop gs; currently_playing := currently_playing gs;
     song_queue := song_queue gs; replay := replay gs |}.

Definition set_loop (l : bool) (gs : GuildSettings) : GuildSettings :=
  {| volume := volume gs; loop := l; currently_playing := currently_playing gs;
     song_queue := song_queue gs; replay := replay gs |}.

Definition set_currently_playing (c : option Song) (gs : GuildSettings) : GuildSettings :=
  {| volume := volume gs; loop := loop gs; currently_playing := c;
     song_queue := song_queue gs; replay := replay gs |}.

Definition set_song_queue (q : list Song) (gs : GuildSettings) : GuildSettings :=
  {| volume := volume gs; loop := loop gs; currently_playing := currently_playing gs;
     song_queue := q; replay := replay gs |}.

(** What a command reads from its [ctx]: the guild, and whether the author
    sits in a voice channel ([ctx.author.voice]). *)
Record Context := { guild_id : Z; author_voice : bool }.

(** The voice client's player: the context its [after] callback closes over
    and whether it is paused. *)
Record AudioPlayer := { after_ctx : Context; paused : bool }.

(** The process state.  [voice_clients] maps a guild to its voice client's
    player ([None] inside: connected, nothing submitted); [after_owed] lists
    the [after] callbacks of players that ended and were not run yet;
    [loop_tasks] lists the [play_next_in_queue] coroutines handed to
    [bot.loop] by [run_coroutine_threadsafe]. *)
Record Bot := {
  guild_settings : gmap Z GuildSettings;
  voice_clients : gmap Z (option AudioPlayer);
  after_owed : list Context;
  loop_tasks : list Context;
}.

(** The bot with the settings of [ctx]'s guild replaced. *)
Definition with_settings (ctx : Context) (gs : GuildSettings) (b : Bot) : Bot :=
  {| guild_settings := <[guild_id ctx := gs]> (guild_settings b);
     voice_clients := voice_clients b;
     after_owed := after_owed b;
     loop_tasks := loop_tasks b |}.

(** The bot with the player of [ctx]'s voice client replaced. *)
Definition with_player (ctx : Context) (p : option AudioPlayer) (b : Bot) : Bot :=
  {| guild_settings := guild_settings b;
     voice_clients := <[guild_id ctx := p]> (voice_clients b);
     after_owed := after_owed b;
     loop_tasks := loop_tasks b |}.

(** The bot owing one more [after] callback. *)
Definition owing (c : Context) (b : Bot) : Bot :=
  {| guild_settings := guild_settings b;
     voice_clients := voice_clients b;
     after_owed := after_owed b ++ [c];
     loop_tasks := loop_tasks b |}.

(** The bot with one more coroutine waiting on [bot.loop]. *)
Definition scheduling (c : Context) (b : Bot) : Bot :=
  {| guild_settings := guild_settings b;
     voice_clients := voice_clients b;
     after_owed := after_owed b;
     loop_tasks := loop_tasks b ++ [c] |}.

(** What yt-dlp returns: a dictionary whose ['url'] and ['title'] keys may be
    missing. *)
Record Info := { info_url : option string; info_title : option string }.

Inductive Exn :=
  | KeyError          (* dictionary key missing *)
  | IndexError        (* pop from an empty deque, list index out of range *)
  | AttributeError    (* method call on [None] *)
  | DownloadError     (* yt-dlp raised *)
  | ClientException.  (* the voice client refused [play] *)

(** The texts the cogs send, one constructor per message. *)
Inductive Message :=
  | MsgQueueEmpty                       (* "The queue is empty." *)
  | MsgOutOfRange                       (* "That position is out of range." *)
  | MsgInvalidPosition                  (* "That queue position is invalid." *)
  | MsgRemoveOutOfRange (len : nat)     (* "That position is out of range. Please choose a number between 1 and {len}" *)
  | MsgPositionsOutOfRange              (* "Positions are out of range." *)
  | MsgSkippingAhead (position : Z)     (* "Skipping ahead to song number {position}..." *)
  | MsgBumped (title : string)          (* "Bumped {title} to the next spot in the queue." *)
  | MsgRemoved (title : string)         (* "Removed {title} from the queue." *)
  | MsgMoved (title : string) (from_pos to_pos : Z)
  | MsgSkipped                          (* "Skipped the current song." *)
  | MsgNoSongPlaying                    (* "No song is currently playing." *)
  | MsgNowPlaying (title : string)      (* "Now playing: {title}" *)
  | MsgPlayError                        (* "An error occurred while trying to play the audio." *)
  | MsgQueueFinished                    (* "Queue is empty. Playback finished." *)
  | MsgNeedVoice                        (* "You need to be in a voice channel to play audio." *)
  | MsgNeedVoiceToAdd                   (* "You must be in a voice channel to add a song." *)
  | MsgAddingSong                       (* "Adding song to the front of the queue..." *)
  | MsgAddedNext (title : string)       (* "Added {title} as the next song." *)
  | MsgAddError                         (* "Sorry, I couldn't add that song. ..." *)
  | MsgNothingToReplay                  (* "There isn't anything currently playing to replay." *)
  | MsgNoSongToReplay                   (* "No song is currently playing to replay." *)
  | MsgReplaying                        (* "Replaying..." *)
  | MsgVolumeRange                      (* "Volume must be between 0.0 and 2.0!" *)
  | MsgVolumeSet (vol : float)          (* "Volume set to {vol}. ..." *)
  | MsgLooping (enabled : bool)         (* "Looping is now {state}." *)
  | MsgPaused
  | MsgResumed
  | MsgNoMusic                          (* "No music is playing." *)
  | MsgNotPaused                        (* "The music is not paused." *)
  | MsgStopped                          (* "Stopped the music and cleared the queue." *)
  | MsgGoodbye
  | MsgAlreadyJoined                    (* "I'm already in {channel}" *)
  | MsgJoined                           (* "Joined channel {channel}" *)
  | MsgNeedVoiceToJoin                  (* "You need to be in a voice channel for me to join." *)
  | MsgNotInVoice                       (* "I'm not in a voice channel." *)
  | MsgCommandError.                    (* on_command_error: "An error occurred while processing the command." *)

(** What a command does to the outside: a message sent to the channel, a line
    given to [logger.error], a stream submitted to the voice client with the
    volume of its filter. *)
Inductive Effect :=
  | Send (m : Message)
  | LogError (e : Exn)
  | LogPlaybackError
  | Submit (audio_url : string) (vol : float).

(** ** The monad of commands *)

Inductive Result (A : Type) :=
  | Returned (a : A)
  | Raised (e : Exn).
Arguments Returned {A} a.
Arguments Raised {A} e.

Record Outcome (A : Type) := {
  result : Result A;
  final : Bot;
  effects : list Effect;
}.
Arguments result {A} _.
Arguments final {A} _.
Arguments effects {A} _.

(** [None] is the model running out of fuel in [play_next_in_queue]; no other
    computation produces it. *)
Definition M (A : Type) : Type := Bot -> option (Outcome A).

Definition ret {A} (a : A) : M A :=
  fun b => Some {| result := Returned a; final := b; effects := [] |}.

Definition raise {A} (e : Exn) : M A :=
  fun b => Some {| result := Raised e; final := b; effects := [] |}.

Definition bind {A B} (m : M A) (k : A -> M B) : M B :=
  fun b =>
    match m b with
    | None => None
    | Some o =>
        match result o with
        | Raised e => Some {| result := Raised e; final := final o; effects := effects o |}
        | Returned a =>
            match k a (final o) with
            | None => None
            | Some o' =>
                Some {| result := result o'; final := final o';
                        effects := effects o ++ effects o' |}
            end
        end
    end.

(** [try: m except Exception as e: handler e] *)
Definition try_except {A} (m : M A) (handler : Exn -> M A) : M A :=
  fun b =>
    match m b with
    | None => None
    | Some o =>
        match result o with
        | Returned a => Some o
        | Raised e =>
            match handler e (final o) with
            | None => None
            | Some o' =>
                Some {| result := result o'; final := final o';
                        effects := effects o ++ effects o' |}
            end
        end
    end.

Declare Scope cmd_scope.
Delimit Scope cmd_scope with cmd.
Notation "'let*' x ':=' m 'in' k" := (bind m (fun x => k))
  (at level 10, x name, m at level 100, k at level 200) : cmd_scope.
Notation "m '>>' k" := (bind m (fun _ => k))
  (at level 100, k at level 200, right associativity) : cmd_scope.
Local Open Scope cmd_scope.

Definition get_bot : M Bot :=
  fun b => Some {| result := Returned b; final := b; effects := [] |}.

Definition put_bot (b' : Bot) : M unit :=
  fun _ => Some {| result := Returned tt; final := b'; effects := [] |}.

Definition emit (e : Effect) : M unit :=
  fun b => Some {| result := Returned tt; final := b; effects := [e] |}.

(** [for _ in range(n): body] *)
Fixpoint for_range (n : nat) (body : M unit) : M unit :=
  match n with
  | O => ret tt
  | S n' => body >> for_range n' body
  end.

(** ** Access to the bot *)

(** [bot.guild_settings[ctx.guild.id]] *)
Definition settings (ctx : Context) : M GuildSettings :=
  let* b := get_bot in
  match guild_settings b !! guild_id ctx with
  | Some gs => ret gs
  | None => raise KeyError
  end.

(** [bot.guild_settings[ctx.guild.id][key] = value], the assignment given as
    the update of the record. *)
Definition update_settings (ctx : Context) (f : GuildSettings -> GuildSettings) : M unit :=
  let* gs := settings ctx in
  let* b := get_bot in
  put_bot (with_settings ctx (f gs) b).

(** [bot.guild_settings[ctx.guild.id]['song_queue'].popleft()] *)
Definition popleft (ctx : Context) : M Song :=
  let* gs := settings ctx in
  match song_queue gs with
  | [] => raise IndexError
  | s :: rest => update_settings ctx (set_song_queue rest) >> ret s
  end.

(** [bot.guild_settings[ctx.guild.id]['song_queue'].appendleft(s)] *)
Definition appendleft (ctx : Context) (s : Song) : M unit :=
  let* gs := settings ctx in
  update_settings ctx (set_song_queue (s :: song_queue gs)).

(** [ctx.voice_client]: [None] when the guild has no voice client. *)
Definition voice_client (ctx : Context) : M (option (option AudioPlayer)) :=
  let* b := get_bot in ret (voice_clients b !! guild_id ctx).

Definition put_player (ctx : Context) (p : option AudioPlayer) : M unit :=
  let* b := get_bot in
  put_bot (with_player ctx p b).

(** [vc.is_playing()]: a player that is not paused. *)
Definition is_playing (vc : option AudioPlayer) : bool :=
  match vc with
  | Some p => negb (paused p)
  | None => false
  end.

Definition is_paused (vc : option AudioPlayer) : bool :=
  match vc with
  | Some p => paused p
  | None => false
  end.

(** [ctx.voice_client and ctx.voice_client.is_playing()] *)
Definition client_is_playing (ctx : Context) : M bool :=
  let* vc := voice_client ctx in
  ret (match vc with Some p => is_playing p | None => false end).

(** The player thread ends: its [after] callback is owed. *)
Definition owe_after (c : Context) : M unit :=
  let* b := get_bot in
  put_bot (owing c b).

(** [ctx.voice_client.stop()]: [AttributeError] without a voice client;
    otherwise the player, if any, is dropped and its [after] callback will
    run. *)
Definition voice_stop (ctx : Context) : M unit :=
  let* vc := voice_client ctx in
  match vc with
  | None => raise AttributeError
  | Some None => ret tt
  | Some (Some p) => put_player ctx None >> owe_after (after_ctx p)
  end.

(** [ctx.voice_client.play(FFmpegPCMAudio(audio_url, ... volume), after=...)]:
    refused while a player is playing. *)
Definition voice_play (ctx : Context) (audio_url : string) (vol : float) : M unit :=
  let* vc := voice_client ctx in
  match vc with
  | None => raise AttributeError
  | Some p =>
      if is_playing p then raise ClientException
      else
        emit (Submit audio_url vol) >>
        put_player ctx (Some {| after_ctx := ctx; paused := false |})
  end.

(** [await ctx.author.voice.channel.connect()] *)
Definition connect (ctx : Context) : M unit := put_player ctx None.

(** [await ctx.voice_client.disconnect()]: the player, if any, ends. *)
Definition disconnect (ctx : Context) : M unit :=
  let* vc := voice_client ctx in
  let* b := get_bot in
  put_bot {| guild_settings := guild_settings b;
             voice_clients := delete (guild_id ctx) (voice_clients b);
             after_owed := after_owed b;
             loop_tasks := loop_tasks b |} >>
  match vc with
  | Some (Some p) => owe_after (after_ctx p)
  | _ => ret tt
  end.

(** ** Python lists *)

(** The index [list.pop(i)] reads: negative indices count from the end. *)
Definition py_index {A} (i : Z) (l : list A) : option nat :=
  let n := Z.of_nat (length l) in
  let j := if i <? 0 then i + n else i in
  if (0 <=? j) && (j <? n) then Some (Z.to_nat j) else None.

(** [l.pop(i)]: the element and the list without it, [IndexError] out of range. *)
Definition list_pop {A} (i : Z) (l : list A) : Result (A * list A) :=
  match py_index i l with
  | Some j =>
      match l !! j with
      | Some x => Returned (x, delete j l)
      | None => Raised IndexError
      end
  | None => Raised IndexError
  end.

(** [l.insert(i, x)]: the index is clamped to the list. *)
Definition list_insert {A} (i : Z) (x : A) (l : list A) : list A :=
  let n := Z.of_nat (length l) in
  let j := if i <? 0 then Z.max 0 (i + n) else Z.min i n in
  take (Z.to_nat j) l ++ x :: drop (Z.to_nat j) l.

Definition lift_result {A} (r : Result A) : M A :=
  match r with
  | Returned a => ret a
  | Raised e => raise e
  end.

(** The texts of [shuffle], [playlist], [search] and [np], which are not among
    [Message]: these commands send one text of their own on each path, and
    their model returns it as the result of the command. *)
Inductive Notice :=
  | NoticeNotEnoughToShuffle    (* "Not enough songs in the queue to shuffle." *)
  | NoticeShuffled              (* "Queue shuffled!" *)
  | NoticeNeedVoice             (* "You need to be in a voice channel to play audio." *)
  | NoticeNotAPlaylist          (* "This doesn't seem to be a playlist." *)
  | NoticePlaylistAdded (count : nat) (title : string)
                                (* "Added {count} songs from playlist: {title}" *)
  | NoticePlaylistError         (* "An error occurred while processing the playlist." *)
  | NoticeNoResults             (* "No results found." *)
  | NoticeAddedToQueue (title : string)   (* "Added {title} to the queue." *)
  | NoticeInvalidChoice         (* "Invalid choice. Canceling." *)
  | NoticeTookTooLong           (* "You took too long to respond. Canceling." *)
  | NoticeCurrentlyPlaying (title url : string)
  | NoticeNothingPlaying.       (* "No song is currently playing." *)

(** What yt-dlp returns for a playlist locator: a dictionary whose
    ['entries'] and ['title'] keys may be missing. *)
Record PlaylistInfo := {
  entries : option (list Info);
  playlist_title : option string;
}.

(** [bot.guild_settings[ctx.guild.id]['song_queue'].append(s)] *)
Definition append (ctx : Context) (s : Song) : M unit :=
  let* gs := settings ctx in
  update_settings ctx (set_song_queue (song_queue gs ++ [s])%list).

(** [l[i]] *)
Definition list_item {A} (i : Z) (l : list A) : Result A :=
  match py_index i l with
  | Some j =>
      match l !! j with
      | Some x => Returned x
      | None => Raised IndexError
      end
  | None => Raised IndexError
  end.

(** [for item in l: body(item)] *)
Fixpoint for_each {A} (l : list A) (body : A -> M unit) : M unit :=
  match l with
  | [] => ret tt
  | x :: l' => body x >> for_each l' body
  end.

(** ** [src/utility/helpers.py] *)

Module helpers.
Section WithResolver.

(** [ydl.extract_info(url, download=False)]: the metadata, or [None] when the
    call raises. *)
Variable extract_info : string -> option Info.

Definition send_and_delete (content : Message) : M unit := emit (Send content).

(** The lines [play] and [add] open with:
    [if ctx.voice_client is None: if ctx.author.voice: connect() else: send; return].
    The result tells whether the command goes on. *)
Definition join_author_channel (ctx : Context) (refusal : Message) : M bool :=
  let* vc := voice_client ctx in
  match vc with
  | None =>
      if author_voice ctx then connect ctx >> ret true
      else send_and_delete refusal >> ret false
  | Some _ => ret true
  end.

(** The [else] branch, which adds the keys a dictionary lacks, has nothing to
    do on a record. *)
Definition ensure_guild_settings (ctx : Context) : M unit :=
  let* b := get_bot in
  match guild_settings b !! guild_id ctx with
  | None => put_bot (with_settings ctx default_settings b)
  | Some _ => ret tt
  end.

(** The local function [extractor] run through [asyncio.to_thread]. *)
Definition extractor (url : string) : M Info :=
  match extract_info url with
  | Some info => ret info
  | None => raise DownloadError
  end.

(** [info['url']] *)
Definition info_url_item (info : Info) : M string :=
  match info_url info with
  | Some u => ret u
  | None => raise KeyError
  end.

(** [info.get('title', dflt)] *)
Definition info_get_title (info : Info) (dflt : string) : string :=
  match info_title info with
  | Some t => t
  | None => dflt
  end.

(** The recursive call of the [except] branch consumes one unit of [fuel]. *)
Fixpoint play_next_in_queue (fuel : nat) (ctx : Context) : M unit :=
  match fuel with
  | O => fun _ => None
  | S fuel' =>
      let* gs := settings ctx in
      match song_queue gs with
      | _ :: _ =>
          let* song := popleft ctx in
          let title := fst song in
          let video_url := snd song in
          try_except
            (let* info := extractor video_url in
             let* audio_url := info_url_item info in
             let title := info_get_title info title in
             ensure_guild_settings ctx >>
             update_settings ctx (set_currently_playing (Some (title, video_url))) >>
             send_and_delete (MsgNowPlaying title) >>
             let* gs' := settings ctx in
             let volume := volume gs' in
             voice_stop ctx >>
             voice_play ctx audio_url volume)
            (fun e =>
               emit (LogError e) >>
               send_and_delete MsgPlayError >>
               play_next_in_queue fuel' ctx)
      | [] =>
          send_and_delete MsgQueueFinished >>
          update_settings ctx (set_currently_playing None)
      end
  end.

(** [asyncio.run_coroutine_threadsafe(play_next_in_queue(ctx, bot), bot.loop)] *)
Definition run_coroutine_threadsafe (ctx : Context) : M unit :=
  let* b := get_bot in
  put_bot (scheduling ctx b).

(** The part of [after_song] before it schedules [play_next_in_queue]. *)
Definition requeue_if_looping (ctx : Context) : M unit :=
  let* gs := settings ctx in
  match loop gs, currently_playing gs with
  | true, Some (title, url) => appendleft ctx (title, url)
  | _, _ => ret tt
  end.

Definition after_song (ctx : Context) (error : option Exn) : M unit :=
  (match error with
   | Some _ => emit LogPlaybackError
   | None => ret tt
   end) >>
  requeue_if_looping ctx >>
  run_coroutine_threadsafe ctx.

End WithResolver.
End helpers.

(** ** [src/cogs/music_queue.py] *)

Module music_queue.
Import helpers.
Section WithResolver.

Variable extract_info : string -> option Info.

(** [queue.clear()] then [queue.extend(songs_list)] on the guild's deque. *)
Definition clear_and_extend (ctx : Context) (songs_list : list Song) : M unit :=
  update_settings ctx (set_song_queue []) >>
  let* gs := settings ctx in
  update_settings ctx (set_song_queue (song_queue gs ++ songs_list)).

Definition skip (ctx : Context) : M unit :=
  let* playing := client_is_playing ctx in
  if playing then
    update_settings ctx (set_loop false) >>
    voice_stop ctx >>
    send_and_delete MsgSkipped
  else send_and_delete MsgNoSongPlaying.

Definition skip_to (fuel : nat) (ctx : Context) (position : Z) : M unit :=
  let* gs := settings ctx in
  match song_queue gs with
  | [] => send_and_delete MsgQueueEmpty
  | _ :: _ =>
      let* gs := settings ctx in
      if (position <? 1) || (position >? Z.of_nat (length (song_queue gs))) then
        send_and_delete MsgOutOfRange
      else
        for_range (Z.to_nat (position - 1)) (popleft ctx >> ret tt) >>
        send_and_delete (MsgSkippingAhead position) >>
        let* playing := client_is_playing ctx in
        if playing then voice_stop ctx
        else play_next_in_queue extract_info fuel ctx
  end.

Definition bump (ctx : Context) (position : Z) : M unit :=
  let* b := get_bot in
  match guild_settings b !! guild_id ctx with
  | None => send_and_delete MsgQueueEmpty
  | Some gs0 =>
      match song_queue gs0 with
      | [] => send_and_delete MsgQueueEmpty
      | _ :: _ =>
          let* gs := settings ctx in
          let queue := song_queue gs in
          if negb ((1 <=? position) && (position <=? Z.of_nat (length queue))) then
            send_and_delete MsgInvalidPosition
          else
            let songs_list := queue in
            let* popped := lift_result (list_pop (position - 1) songs_list) in
            let bumped_song := fst popped in
            let songs_list := list_insert 0 bumped_song (snd popped) in
            clear_and_extend ctx songs_list >>
            send_and_delete (MsgBumped (fst bumped_song))
      end
  end.

Definition remove (ctx : Context) (position : Z) : M unit :=
  let* gs := settings ctx in
  if (position <? 1) || (position >? Z.of_nat (length (song_queue gs))) then
    send_and_delete (MsgRemoveOutOfRange (length (song_queue gs)))
  else
    let songs_list := song_queue gs in
    let* popped := lift_result (list_pop (position - 1) songs_list) in
    let removed_song := fst popped in
    clear_and_extend ctx (snd popped) >>
    send_and_delete (MsgRemoved (fst removed_song)).

Definition move (ctx : Context) (from_pos to_pos : Z) : M unit :=
  let* gs := settings ctx in
  let len := Z.of_nat (length (song_queue gs)) in
  if ((from_pos <? 1) || (from_pos >? len)) || ((to_pos <? 1) || (to_pos >? len)) then
    send_and_delete MsgPositionsOutOfRange
  else
    let songs_list := song_queue gs in
    let* popped := lift_result (list_pop (from_pos - 1) songs_list) in
    let song := fst popped in
    let songs_list := list_insert (to_pos - 1) song (snd popped) in
    clear_and_extend ctx songs_list >>
    send_and_delete (MsgMoved (fst song) from_pos to_pos).

Definition add (fuel : nat) (ctx : Context) (url : string) : M unit :=
  let* connected := join_author_channel ctx MsgNeedVoiceToAdd in
  if negb connected then ret tt
  else
    emit (Send MsgAddingSong) >>
    try_except
      (let* info := extractor extract_info url in
       let title := info_get_title info "Unknown Title" in
       appendleft ctx (title, url) >>
       send_and_delete (MsgAddedNext title) >>
       let* playing := client_is_playing ctx in
       if negb playing then play_next_in_queue extract_info fuel ctx
       else ret tt)
      (fun e =>
         emit (LogError e) >>
         send_and_delete MsgAddError).

End WithResolver.
Section Shuffle.

(** [random.shuffle]: the order it leaves a list in. *)
Variable shuffle : list Song -> list Song.

Definition shuffle_queue (ctx : Context) : M Notice :=
  let* gs := settings ctx in
  if (length (song_queue gs) <? 2)%nat then ret NoticeNotEnoughToShuffle
  else
    let* gs := settings ctx in
    let songs_list := shuffle (song_queue gs) in
    clear_and_extend ctx songs_list >>
    ret NoticeShuffled.

End Shuffle.

End music_queue.

(** ** [src/cogs/music_control.py] *)

Module music_control.
Import helpers.

Definition set_paused (ctx : Context) (flag : bool) : M unit :=
  let* vc := voice_client ctx in
  match vc with
  | Some (Some p) => put_player ctx (Some {| after_ctx := after_ctx p; paused := flag |})
  | _ => ret tt
  end.

Definition pause (ctx : Context) : M unit :=
  let* playing := client_is_playing ctx in
  if playing then set_paused ctx true >> send_and_delete MsgPaused
  else send_and_delete MsgNoMusic.

Definition resume (ctx : Context) : M unit :=
  let* vc := voice_client ctx in
  if match vc with Some p => is_paused p | None => false end then
    set_paused ctx false >> send_and_delete MsgResumed
  else send_and_delete MsgNotPaused.

(** [if not vol or vol < 0.0 or vol > 2.0] *)
Definition volume_rejected (vol : float) : bool :=
  negb (float_truthy vol) || SFltb vol float_zero || SFltb float_two vol.

Definition volume (ctx : Context) (vol : float) : M unit :=
  if volume_rejected vol then send_and_delete MsgVolumeRange
  else
    ensure_guild_settings ctx >>
    update_settings ctx (set_volume vol) >>
    send_and_delete (MsgVolumeSet vol).

Definition loop_track (ctx : Context) : M unit :=
  ensure_guild_settings ctx >>
  let* gs := settings ctx in
  update_settings ctx (set_loop (negb (loop gs))) >>
  let* gs := settings ctx in
  send_and_delete (MsgLooping (loop gs)).

(** The three assignments [stop] and [leave] make after [voice_client.stop()]. *)
Definition reset_playback (ctx : Context) : M unit :=
  update_settings ctx (set_song_queue []) >>
  update_settings ctx (set_currently_playing None) >>
  update_settings ctx (set_loop false).

Definition stop (ctx : Context) : M unit :=
  let* playing := client_is_playing ctx in
  if playing then
    voice_stop ctx >>
    reset_playback ctx >>
    send_and_delete MsgStopped
  else send_and_delete MsgNoMusic.

Definition leave (ctx : Context) : M unit :=
  let* vc := voice_client ctx in
  match vc with
  | Some p =>
      (if is_playing p then voice_stop ctx >> reset_playback ctx else ret tt) >>
      disconnect ctx >>
      send_and_delete MsgGoodbye
  | None => send_and_delete MsgNotInVoice
  end.

End music_control.

(** ** [src/cogs/music_main.py] *)

Module music_main.
Import helpers.
Section WithResolver.

Variable extract_info : string -> option Info.

Definition join (ctx : Context) : M unit :=
  if author_voice ctx then
    let* vc := voice_client ctx in
    match vc with
    | Some _ => send_and_delete MsgAlreadyJoined
    | None =>
        connect ctx >>
        ensure_guild_settings ctx >>
        send_and_delete MsgJoined
    end
  else send_and_delete MsgNeedVoiceToJoin.

Definition play (ctx : Context) (url : string) : M unit :=
  let* connected := join_author_channel ctx MsgNeedVoice in
  if negb connected then ret tt
  else
    ensure_guild_settings ctx >>
    try_except
      (let* info := extractor extract_info url in
       let* audio_url := info_url_item info in
       let title := info_get_title info "Unknown Title" in
       update_settings ctx (set_currently_playing (Some (title, url))) >>
       voice_stop ctx >>
       send_and_delete (MsgNowPlaying title) >>
       let* gs := settings ctx in
       let volume := volume gs in
       voice_play ctx audio_url volume)
      (fun e =>
         emit (LogError e) >>
         send_and_delete MsgPlayError).

Definition replay (ctx : Context) : M unit :=
  ensure_guild_settings ctx >>
  let* playing := client_is_playing ctx in
  if negb playing then send_and_delete MsgNothingToReplay
  else
    let* gs := settings ctx in
    match currently_playing gs with
    | None => send_and_delete MsgNoSongToReplay
    | Some current =>
        appendleft ctx current >>
        voice_stop ctx >>
        send_and_delete MsgReplaying
    end.

End WithResolver.
Section Playlists.

Variable extract_info : string -> option Info.

(** [ydl.extract_info(url)] with the playlist options, [None] when it raises. *)
Variable extract_playlist : string -> option PlaylistInfo.

(** [ydl.extract_info(f"ytsearch10:{q}")['entries']], [None] when it raises. *)
Variable yt_search : string -> option (list Info).

(** [random.shuffle]: the order it leaves a list in. *)
Variable shuffle : list Song -> list Song.

(** [(entry.get('title', entry.get('url', 'Unknown Title')), entry['url'])] *)
Definition entry_song (entry : Info) : Result Song :=
  match info_url entry with
  | Some u => Returned (default u (info_title entry), u)
  | None => Raised KeyError
  end.

(** The loop that fills [temp_list]. *)
Fixpoint entry_songs (es : list Info) : Result (list Song) :=
  match es with
  | [] => Returned []
  | entry :: es' =>
      match entry_song entry with
      | Raised e => Raised e
      | Returned s =>
          match entry_songs es' with
          | Raised e => Raised e
          | Returned l => Returned (s :: l)
          end
      end
  end.

(** The voice check [playlist] and [search] open with; [false] when the
    command has sent its refusal and returns. *)
Definition author_channel (ctx : Context) : M bool :=
  let* vc := voice_client ctx in
  match vc with
  | None => if author_voice ctx then connect ctx >> ret true else ret false
  | Some _ => ret true
  end.

(** The result is the text the command answers with.  The source sends the
    [Added ...] text before it advances; [play_next_in_queue] handles its own
    exceptions once the guild has settings, so the [except] branch is only
    reached from the lines before that text. *)
Definition playlist (fuel : nat) (ctx : Context) (url : string) : M Notice :=
  let* connected := author_channel ctx in
  if negb connected then ret NoticeNeedVoice
  else
    ensure_guild_settings ctx >>
    try_except
      (let* playlist_info :=
         match extract_playlist url with
         | Some i => ret i
         | None => raise DownloadError
         end in
       match entries playlist_info with
       | None => ret NoticeNotAPlaylist
       | Some es =>
           let* temp_list := lift_result (entry_songs es) in
           let temp_list := shuffle temp_list in
           for_each temp_list (append ctx) >>
           let* title :=
             match playlist_title playlist_info with
             | Some t => ret t
             | None => raise KeyError
             end in
           let* playing := client_is_playing ctx in
           (if negb playing then play_next_in_queue extract_info fuel ctx else ret tt) >>
           ret (NoticePlaylistAdded (length es) title)
       end)
      (fun e => emit (LogError e) >> ret NoticePlaylistError).

Definition now_playing (ctx : Context) : M Notice :=
  ensure_guild_settings ctx >>
  let* gs := settings ctx in
  match currently_playing gs with
  | Some (title, url) => ret (NoticeCurrentlyPlaying title url)
  | None => ret NoticeNothingPlaying
  end.

(** [reply] is the number the author types within the timeout, [None] when
    [wait_for] times out; the [check] of the source lets only digits
    through.  The embed of the results is shown and does not enter here. *)
Definition search (fuel : nat) (ctx : Context) (query : string) (reply : option nat)
    : M Notice :=
  let* connected := author_channel ctx in
  if negb connected then ret NoticeNeedVoice
  else
    ensure_guild_settings ctx >>
    let* results :=
      match yt_search query with
      | Some r => ret r
      | None => raise DownloadError
      end in
    match results with
    | [] => ret NoticeNoResults
    | _ :: _ =>
        match reply with
        | None => ret NoticeTookTooLong
        | Some n =>
            let choice := Z.of_nat n in
            if (1 <=? choice) && (choice <=? 10) then
              let* selected := lift_result (list_item (choice - 1) results) in
              let title := default "Unknown Title" (info_title selected) in
              let* url := info_url_item selected in
              append ctx (title, url) >>
              let* playing := client_is_playing ctx in
              (if negb playing then play_next_in_queue extract_info fuel ctx else ret tt) >>
              ret (NoticeAddedToQueue title)
            else ret NoticeInvalidChoice
        end
    end.

End Playlists.

End music_main.

(** ** Observations *)

(** The guild's queue and current track, as a command's caller sees them. *)
Definition queue_of (ctx : Context) (b : Bot) : list Song :=
  match guild_settings b !! guild_id ctx with
  | Some gs => song_queue gs
  | None => []
  end.

Definition current_of (ctx : Context) (b : Bot) : option Song :=
  match guild_settings b !! guild_id ctx with
  | Some gs => currently_playing gs
  | None => None
  end.

(** *** States the commands lead to *)

(** The bot after [voice_client.stop()] on a voice client whose player is [vc]. *)
Definition stopped (ctx : Context) (vc : option AudioPlayer) (b : Bot) : Bot :=
  match vc with
  | Some p => owing (after_ctx p) (with_player ctx None b)
  | None => b
  end.

(** The bot after [voice_client.play(...)] went through. *)
Definition started (ctx : Context) (b : Bot) : Bot :=
  with_player ctx (Some {| after_ctx := ctx; paused := false |}) b.

(** The bot once [play] has joined the author's channel, if it had to. *)
Definition joined (ctx : Context) (b : Bot) : Bot :=
  match voice_clients b !! guild_id ctx with
  | None => with_player ctx None b
  | Some _ => b
  end.

(** The bot after [ensure_guild_settings]. *)
Definition ensured (ctx : Context) (b : Bot) : Bot :=
  match guild_settings b !! guild_id ctx with
  | None => with_settings ctx default_settings b
  | Some _ => b
  end.

(** The bot after the loop test of [after_song]. *)
Definition requeued (ctx : Context) (gs : GuildSettings) (b : Bot) : Bot :=
  match loop gs, currently_playing gs with
  | true, Some t => with_settings ctx (set_song_queue (t :: song_queue gs) gs) b
  | _, _ => b
  end.

(** What [after_song] logs for the [error] it is given. *)
Definition playback_log (error : option Exn) : list Effect :=
  match error with
  | Some _ => [LogPlaybackError]
  | None => []
  end.

(** The outcome [o] with [es] sent before it. *)
Definition after_effects (es : list Effect) (o : option (Outcome unit)) : option (Outcome unit) :=
  match o with
  | Some o => Some {| result := result o; final := final o; effects := es ++ effects o |}
  | None => None
  end.

(** *** Resolution and the pieces of an advance *)

(** The exception the resolution of a locator ends with, if it fails: yt-dlp
    raises, or the metadata has no ['url']. *)
Definition resolve_error (extract_info : string -> option Info) (url : string) : option Exn :=
  match extract_info url with
  | None => Some DownloadError
  | Some info =>
      match info_url info with
      | None => Some KeyError
      | Some _ => None
      end
  end.

(** The title the resolver reports is the track's own, or it reports none. *)
Definition keeps_title (info : Info) (s : Song) : Prop :=
  info_title info = None \/ info_title info = Some (fst s).

(** The [try] block of [play_next_in_queue] for the popped [song]. *)
Definition attempt (extract_info : string -> option Info) (ctx : Context) (song : Song)
    : M unit :=
  let* info := helpers.extractor extract_info (snd song) in
  let* audio_url := helpers.info_url_item info in
  let title := helpers.info_get_title info (fst song) in
  helpers.ensure_guild_settings ctx >>
  update_settings ctx (set_currently_playing (Some (title, snd song))) >>
  helpers.send_and_delete (MsgNowPlaying title) >>
  let* gs' := settings ctx in
  let volume := volume gs' in
  voice_stop ctx >>
  voice_play ctx audio_url volume.

(** The [after] callback of a finished track followed by the
    [play_next_in_queue] it scheduled. *)
Definition loop_cycle (extract_info : string -> option Info) (fuel : nat)
    (ctx : Context) (error : option Exn) : M unit :=
  helpers.after_song ctx error >> helpers.play_next_in_queue extract_info fuel ctx.

(** *** Counting what an advance did *)

(** The message of the [except] branch of [play_next_in_queue]. *)
Definition is_play_error (e : Effect) : bool :=
  match e with
  | Send MsgPlayError => true
  | _ => false
  end.

(** A stream handed to the voice client. *)
Definition is_submit (e : Effect) : bool :=
  match e with
  | Submit _ _ => true
  | _ => false
  end.

(** The attempts that ended in the [except] branch, and the streams started. *)
Definition failed_attempts (es : list Effect) : nat := length (List.filter is_play_error es).
Definition submissions (es : list Effect) : nat := length (List.filter is_submit es).

(** ** The bot as a transition system *)

Inductive Command :=
  | CmdJoin
  | CmdPlay (url : string)
  | CmdReplay
  | CmdSkip
  | CmdSkipTo (position : Z)
  | CmdBump (position : Z)
  | CmdRemove (position : Z)
  | CmdMove (from_pos to_pos : Z)
  | CmdAdd (url : string)
  | CmdPause
  | CmdResume
  | CmdVolume (vol : float)
  | CmdLoop
  | CmdStop
  | CmdLeave.

(** What happens to the bot: a user invokes a command; a player reaches the
    end of its stream; an owed [after] callback runs; [bot.loop] runs a
    scheduled [play_next_in_queue]. *)
Inductive Event :=
  | Invoke (ctx : Context) (cmd : Command)
  | TrackEnds (ctx : Context)
  | AfterCallback (error : option Exn)
  | LoopRuns.

Definition initial_bot : Bot :=
  {| guild_settings := ∅; voice_clients := ∅; after_owed := []; loop_tasks := [] |}.

Section Machine.
Variable extract_info : string -> option Info.

Definition dispatch (fuel : nat) (ctx : Context) (cmd : Command) : M unit :=
  match cmd with
  | CmdJoin => music_main.join ctx
  | CmdPlay url => music_main.play extract_info ctx url
  | CmdReplay => music_main.replay ctx
  | CmdSkip => music_queue.skip ctx
  | CmdSkipTo position => music_queue.skip_to extract_info fuel ctx position
  | CmdBump position => music_queue.bump ctx position
  | CmdRemove position => music_queue.remove ctx position
  | CmdMove from_pos to_pos => music_queue.move ctx from_pos to_pos
  | CmdAdd url => music_queue.add extract_info fuel ctx url
  | CmdPause => music_control.pause ctx
  | CmdResume => music_control.resume ctx
  | CmdVolume vol => music_control.volume ctx vol
  | CmdLoop => music_control.loop_track ctx
  | CmdStop => music_control.stop ctx
  | CmdLeave => music_control.leave ctx
  end.

(** [on_command_error] of [main.py] for an exception a command lets through. *)
Definition on_command_error (e : Exn) : M unit :=
  helpers.send_and_delete MsgCommandError >> emit (LogError e).

Definition invoke (fuel : nat) (ctx : Context) (cmd : Command) : M unit :=
  try_except (dispatch fuel ctx cmd) on_command_error.

Definition step (fuel : nat) (ev : Event) (b : Bot) : option Bot :=
  match ev with
  | Invoke ctx cmd => final <$> invoke fuel ctx cmd b
  | TrackEnds ctx =>
      match voice_clients b !! guild_id ctx with
      | Some (Some p) => Some (owing (after_ctx p) (with_player ctx None b))
      | _ => None
      end
  | AfterCallback error =>
      match after_owed b with
      | c :: rest =>
          final <$> helpers.after_song c error
                      {| guild_settings := guild_settings b;
                         voice_clients := voice_clients b;
                         after_owed := rest;
                         loop_tasks := loop_tasks b |}
      | [] => None
      end
  | LoopRuns =>
      match loop_tasks b with
      | c :: rest =>
          final <$> helpers.play_next_in_queue extract_info fuel c
                      {| guild_settings := guild_settings b;
                         voice_clients := voice_clients b;
                         after_owed := after_owed b;
                         loop_tasks := rest |}
      | [] => None
      end
  end.

Inductive reachable : Bot -> Prop :=
  | reachable_initial : reachable initial_bot
  | reachable_step b fuel ev b' :
      reachable b -> step fuel ev b = Some b' -> reachable b'.

End Machine.


(** A resolver that finds a stream for every locator and reports no title. *)
Definition resolve_all (url : string) : option Info :=
  Some {| info_url := Some ("stream:" ++ url)%string; info_title := None |}.

(** A resolver for which every call raises. *)
Definition resolve_none (url : string) : option Info := None.

(** A user sitting in a voice channel of guild 7. *)
Definition alice : Context := {| guild_id := 7; author_voice := true |}.

(** A guild with a voice client that plays nothing and the given settings. *)
Definition bot_with (ctx : Context) (gs : GuildSettings) : Bot :=
  {| guild_settings := {[ guild_id ctx := gs ]};
     voice_clients := {[ guild_id ctx := None ]};
     after_owed := [];
     loop_tasks := [] |}.

(** ** Failures as the design document names them *)

Inductive Failure :=
  | NotConnected
  | NothingPlaying
  | QueueEmpty
  | OutOfRange
  | InsufficientItems
  | ResolveFailed.

(** The failure a message of the cogs reports, if it reports one. *)
Definition failure_of (m : Message) : option Failure :=
  match m with
  | MsgQueueEmpty => Some QueueEmpty
  | MsgOutOfRange | MsgInvalidPosition | MsgRemoveOutOfRange _
  | MsgPositionsOutOfRange => Some OutOfRange
  | MsgNoSongPlaying | MsgNothingToReplay | MsgNoSongToReplay | MsgNoMusic
  | MsgNotPaused => Some NothingPlaying
  | MsgNeedVoice | MsgNeedVoiceToAdd | MsgNeedVoiceToJoin | MsgNotInVoice => Some NotConnected
  | MsgPlayError | MsgAddError => Some ResolveFailed
  | _ => None
  end.

(** The command returned after sending one message that reports [f], and the
    bot is the one it started from. *)
Definition rejected_with (f : Failure) (b : Bot) (r : option (Outcome unit)) : Prop :=
  exists m, r = Some {| result := Returned tt; final := b; effects := [Send m] |} /\
            failure_of m = Some f.

(** [position < 1 or position > len(queue)] *)
Definition out_of_range (queue : list Song) (position : Z) : bool :=
  (position <? 1) || (position >? Z.of_nat (length queue)).

(** The failure [bump] and [skip_to] report for a position out of range: they
    look at the queue before they look at the position. *)
Definition empty_or_out_of_range (queue : list Song) : Failure :=
  match queue with
  | [] => QueueEmpty
  | _ :: _ => OutOfRange
  end.

(** *** Sample data *)

(** The queues of the two scenarios of the design document. *)
Definition three_songs : list Song := [("S1", "u1"); ("S2", "u2"); ("S3", "u3")].

Definition four_songs : list Song := [("A", "a"); ("B", "b"); ("C", "c"); ("D", "d")].

(** A guild whose voice client plays a track submitted by [ctx]. *)
Definition playing_bot (ctx : Context) (gs : GuildSettings) : Bot :=
  {| guild_settings := {[ guild_id ctx := gs ]};
     voice_clients := {[ guild_id ctx := Some {| after_ctx := ctx; paused := false |} ]};
     after_owed := [];
     loop_tasks := [] |}.

(** Settings with [loop] on, [t] current and [q] queued. *)
Definition looping_settings (t : Song) (q : list Song) : GuildSettings :=
  {| volume := float_half; loop := true; currently_playing := Some t;
     song_queue := q; replay := false |}.

(** A resolver that raises on the locator ["a"] and resolves any other. *)
Definition bad_then_good (url : string) : option Info :=
  if String.eqb url "a" then None
  else Some {| info_url := Some "stream-b"; info_title := Some "B" |}.

(** The bot after [play "u"] and then [replay], from the start. *)
Definition replayed_bot : Bot :=
  {| guild_settings :=
       {[ 7 := {| volume := float_half; loop := false;
                  currently_playing := Some ("Unknown Title", "u");
                  song_queue := [("Unknown Title", "u")]; replay := false |} ]};
     voice_clients := {[ 7 := None ]};
     after_owed := [alice];
     loop_tasks := [] |}.

(** *** Invariants of computations *)

(** [m] keeps [I]: if [I] holds of the bot [m] starts from, it holds of the
    bot [m] ends with, whether [m] returns or raises. *)
Definition preserves (I : Bot -> Prop) {A} (m : M A) : Prop :=
  forall b o, I b -> m b = Some o -> I (final o).

(** [b'] differs from [b] at most in what belongs to guild [g]: the settings
    and the voice client of every other guild are the same. *)
Definition same_elsewhere (g : Z) (b b' : Bot) : Prop :=
  forall g', g' <> g ->
    guild_settings b' !! g' = guild_settings b !! g' /\
    voice_clients b' !! g' = voice_clients b !! g'.

(** Every player is registered under the guild of the context its [after]
    callback closes over. *)
Definition players_belong (b : Bot) : Prop :=
  forall g p, voice_clients b !! g = Some (Some p) -> guild_id (after_ctx p) = g.

(** The guild an event acts on: the guild of the command's context, of the
    callback at the head of [after_owed], of the coroutine at the head of
    [loop_tasks]. *)
Definition event_guild (ev : Event) (b : Bot) : option Z :=
  match ev with
  | Invoke ctx _ => Some (guild_id ctx)
  | TrackEnds ctx => Some (guild_id ctx)
  | AfterCallback _ => guild_id <$> head (after_owed b)
  | LoopRuns => guild_id <$> head (loop_tasks b)
  end.

(** The bot with the voice client of [ctx]'s guild gone. *)
Definition without_voice_client (ctx : Context) (b : Bot) : Bot :=
  {| guild_settings := guild_settings b;
     voice_clients := delete (guild_id ctx) (voice_clients b);
     after_owed := after_owed b;
     loop_tasks := loop_tasks b |}.

(** ** [src/utility/views/queue_view.py] and [search_view.py] *)

(** [l[start:end]]: negative indices count from the end, and both are clamped
    to the list. *)
Definition slice_index (len i : Z) : Z :=
  if i <? 0 then Z.max 0 (i + len) else Z.min i len.

Definition py_slice {A} (l : list A) (start stop : Z) : list A :=
  let len := Z.of_nat (length l) in
  let lo := slice_index len start in
  let hi := slice_index len stop in
  take (Z.to_nat (hi - lo)) (drop (Z.to_nat lo) l).

(** [a // b]: [None] when Python raises [ZeroDivisionError]. *)
Definition floordiv (a b : Z) : option Z :=
  if b =? 0 then None else Some (a / b).

(** [enumerate(l, start=n)] *)
Fixpoint enumerate {A} (l : list A) (n : Z) : list (Z * A) :=
  match l with
  | [] => []
  | x :: l' => (n, x) :: enumerate l' (n + 1)
  end.

(** The description of an embed: "Page {page}/{total}", or the text shown
    for an empty page. *)
Inductive Description :=
  | PageOf (page total : Z)
  | NoSongs                  (* "There are no songs in the queue." *)
  | NoResults.               (* "No results found." *)

(** One field of an embed: the number in its name, the text after the
    number, and its value. *)
Record Field := { field_number : Z; field_name : string; field_value : string }.

Record Embed := {
  embed_title : string;
  description : Description;
  fields : list Field;
}.

Module queue_view.

Record QueueView := {
  queue : list Song;
  songs_per_page : Z;
  current_page : Z;
  previous_disabled : bool;
  next_disabled : bool;
}.

Definition total_pages (self : QueueView) : option Z :=
  q ← floordiv (Z.of_nat (length (queue self)) - 1) (songs_per_page self);
  Some (q + 1).

(** [QueueView(queue_data, songs_per_page)]; a button starts enabled. *)
Definition init (queue_data : list Song) (songs_per_page : Z) : option QueueView :=
  let self := {| queue := queue_data; songs_per_page := songs_per_page;
                 current_page := 0; previous_disabled := false;
                 next_disabled := false |} in
  total ← total_pages self;
  Some {| queue := queue self; songs_per_page := songs_per_page;
          current_page := 0; previous_disabled := true;
          next_disabled := if total <=? 1 then true else false |}.

(** [self.queue[start:end]] for the current page. *)
Definition page_songs (self : QueueView) : list Song :=
  let start := current_page self * songs_per_page self in
  let stop := start + songs_per_page self in
  py_slice (queue self) start stop.

Definition get_embed (self : QueueView) : option Embed :=
  total ← total_pages self;
  let start := current_page self * songs_per_page self in
  let songs := page_songs self in
  Some {| embed_title := "Current Queue";
          description := match songs with
                         | [] => NoSongs
                         | _ :: _ => PageOf (current_page self + 1) total
                         end;
          fields := (fun it => {| field_number := fst it; field_name := fst (snd it);
                                  field_value := snd (snd it) |})
                      <$> enumerate songs (start + 1) |}.

(** The handlers give the view after the click and the embed the message is
    edited to, if it is edited. *)
Definition previous_button (self : QueueView) : option (QueueView * option Embed) :=
  if current_page self >? 0 then
    let page := current_page self - 1 in
    let self' := {| queue := queue self; songs_per_page := songs_per_page self;
                    current_page := page;
                    previous_disabled :=
                      if page =? 0 then true else previous_disabled self;
                    next_disabled := false |} in
    e ← get_embed self';
    Some (self', Some e)
  else Some (self, None).

Definition next_button (self : QueueView) : option (QueueView * option Embed) :=
  total ← total_pages self;
  if current_page self <? total - 1 then
    let page := current_page self + 1 in
    total' ← total_pages self;
    let self' := {| queue := queue self; songs_per_page := songs_per_page self;
                    current_page := page;
                    previous_disabled := false;
                    next_disabled :=
                      if page =? total' - 1 then true else next_disabled self |} in
    e ← get_embed self';
    Some (self', Some e)
  else Some (self, None).

Definition on_timeout (self : QueueView) : QueueView :=
  {| queue := queue self; songs_per_page := songs_per_page self;
     current_page := current_page self;
     previous_disabled := true; next_disabled := true |}.

(** A click on one of the two buttons. *)
Inductive Click := Previous | Next.

Definition click (c : Click) (self : QueueView) : option QueueView :=
  fst <$> match c with
          | Previous => previous_button self
          | Next => next_button self
          end.

Fixpoint clicks (cs : list Click) (self : QueueView) : option QueueView :=
  match cs with
  | [] => Some self
  | c :: cs' => self' ← click c self; clicks cs' self'
  end.

(** The state the buttons are kept in: on a page of the queue (page 0 for an
    empty queue), "Previous" disabled exactly on the first page and "Next"
    exactly on the last. *)
Definition consistent (self : QueueView) : Prop :=
  exists total,
    total_pages self = Some total /\
    0 < songs_per_page self /\
    0 <= current_page self /\
    (current_page self < total \/ current_page self = 0) /\
    previous_disabled self = (current_page self =? 0) /\
    next_disabled self = (total - 1 <=? current_page self).

End queue_view.

Module search_view.

Record SearchView := {
  results : list Info;
  songs_per_page : Z;
  current_page : Z;
}.

Definition init (results : list Info) (songs_per_page : Z) : SearchView :=
  {| results := results; songs_per_page := songs_per_page; current_page := 0 |}.

Definition total_pages (self : SearchView) : option Z :=
  q ← floordiv (Z.of_nat (length (results self)) - 1) (songs_per_page self);
  Some (q + 1).

Definition page_results (self : SearchView) : list Info :=
  let start := current_page self * songs_per_page self in
  let stop := start + songs_per_page self in
  py_slice (results self) start stop.

(** The field's name is "{i}. {title}" and its value "[Link]({url})"; the
    record keeps the title and the url. *)
Definition get_embed (self : SearchView) : option Embed :=
  total ← total_pages self;
  let start := current_page self * songs_per_page self in
  let page := page_results self in
  Some {| embed_title := "YouTube Search Results";
          description := match page with
                         | [] => NoResults
                         | _ :: _ => PageOf (current_page self + 1) total
                         end;
          fields := (fun it => {| field_number := fst it;
                                  field_name := default "Unknown Title" (info_title (snd it));
                                  field_value := default "No URL" (info_url (snd it)) |})
                      <$> enumerate page (start + 1) |}.

End search_view.

(** The view turned to page [p]. *)
Definition at_page (self : queue_view.QueueView) (p : Z) : queue_view.QueueView :=
  {| queue_view.queue := queue_view.queue self;
     queue_view.songs_per_page := queue_view.songs_per_page self;
     queue_view.current_page := p;
     queue_view.previous_disabled := queue_view.previous_disabled self;
     queue_view.next_disabled := queue_view.next_disabled self |}.

(** A resolver whose metadata for the locator ["a"] has no ['url'], and that
    finds a stream for any other locator. *)
Definition no_stream_for_a (url : string) : option Info :=
  if String.eqb url "a" then Some {| info_url := None; info_title := Some "A" |}
  else Some {| info_url := Some "stream-b"; info_title := Some "B" |}.

(** The bot after [play "t"], [add "b"], [add "a"], [pause], [leave] and the
    [after] callback of the player that [leave] disconnected, from the start
    and with the resolver [no_stream_for_a]: the queue holds A and B, the
    guild has no voice client, and an advance is scheduled. *)
Definition left_bot : Bot :=
  {| guild_settings :=
       {[ 7 := {| volume := float_half; loop := false;
                  currently_playing := Some ("B", "t");
                  song_queue := [("A", "a"); ("B", "b")]; replay := false |} ]};
     voice_clients := ∅;
     after_owed := [];
     loop_tasks := [alice] |}.

(** A user sitting in a voice channel of guild 8. *)
Definition bob : Context := {| guild_id := 8; author_voice := true |}.

(** The bot after [play "u"] in guild 7 and [play "v"] in guild 8, from the
    start: each guild's voice client has a player. *)
Definition two_players_bot : Bot :=
  {| guild_settings :=
       {[ 7 := {| volume := float_half; loop := false;
                  currently_playing := Some ("Unknown Title", "u");
                  song_queue := []; replay := false |};
          8 := {| volume := float_half; loop := false;
                  currently_playing := Some ("Unknown Title", "v");
                  song_queue := []; replay := false |} ]};
     voice_clients :=
       {[ 7 := Some {| after_ctx := alice; paused := false |};
          8 := Some {| after_ctx := bob; paused := false |} ]};
     after_owed := [];
     loop_tasks := [] |}.

(** ** Running the accessors *)

(** The accessors are run by their lemmas, not unfolded by [cbn]. *)
Arguments settings : simpl never.
Arguments update_settings : simpl never.
Arguments popleft : simpl never.
Arguments appendleft : simpl never.
Arguments voice_client : simpl never.
Arguments client_is_playing : simpl never.
Arguments voice_stop : simpl never.
Arguments voice_play : simpl never.
Arguments with_settings : simpl never.
Arguments music_queue.clear_and_extend : simpl never.
Arguments helpers.ensure_guild_settings : simpl never.
Arguments helpers.join_author_channel : simpl never.

Lemma settings_run ctx b gs :
  guild_settings b !! guild_id ctx = Some gs ->
  settings ctx b = Some {| result := Returned gs; final := b; effects := [] |}.
Proof. intros H. unfold settings, bind, get_bot, ret. cbn. rewrite H. reflexivity. Qed.

Lemma update_settings_run ctx b gs f :
  guild_settings b !! guild_id ctx = Some gs ->
  update_settings ctx f b =
  Some {| result := Returned tt; final := with_settings ctx (f gs) b; effects := [] |}.
Proof.
  intros H. unfold update_settings, bind. rewrite (settings_run _ _ _ H). reflexivity.
Qed.

Lemma with_settings_lookup ctx gs b :
  guild_settings (with_settings ctx gs b) !! guild_id ctx = Some gs.
Proof. unfold with_settings. cbn. apply lookup_insert_eq. Qed.

Lemma with_settings_twice ctx gs gs' b :
  with_settings ctx gs' (with_settings ctx gs b) = with_settings ctx gs' b.
Proof. unfold with_settings. cbn. f_equal. apply insert_insert_eq. Qed.

Lemma with_settings_same ctx gs b :
  guild_settings b !! guild_id ctx = Some gs -> with_settings ctx gs b = b.
Proof.
  intros H. destruct b as [g v a l]. unfold with_settings. cbn in *.
  f_equal. by apply insert_id.
Qed.

Lemma clear_and_extend_run ctx b gs l :
  guild_settings b !! guild_id ctx = Some gs ->
  music_queue.clear_and_extend ctx l b =
  Some {| result := Returned tt; final := with_settings ctx (set_song_queue l gs) b;
          effects := [] |}.
Proof.
  intros H. unfold music_queue.clear_and_extend, bind.
  rewrite (update_settings_run _ _ _ _ H). cbn.
  rewrite (settings_run _ _ _ (with_settings_lookup _ _ _)). cbn.
  rewrite (update_settings_run _ _ _ _ (with_settings_lookup _ _ _)). cbn.
  rewrite with_settings_twice. reflexivity.
Qed.

Lemma list_pop_valid {A} (l : list A) (position : Z) :
  1 <= position <= Z.of_nat (length l) ->
  exists x, l !! Z.to_nat (position - 1) = Some x /\
            list_pop (position - 1) l = Returned (x, delete (Z.to_nat (position - 1)) l).
Proof.
  intros Hp. unfold list_pop, py_index.
  destruct (Z.ltb_spec (position - 1) 0) as [?|_]; [lia|].
  destruct (Z.leb_spec 0 (position - 1)) as [_|?]; [|lia].
  destruct (Z.ltb_spec (position - 1) (Z.of_nat (length l))) as [_|?]; [|lia].
  cbn. destruct (lookup_lt_is_Some_2 l (Z.to_nat (position - 1))) as [x Hx]; [lia|].
  exists x. rewrite Hx. auto.
Qed.

Lemma list_insert_front {A} (x : A) (l : list A) : list_insert 0 x l = x :: l.
Proof.
  unfold list_insert. cbn.
  replace (Z.to_nat (Z.min 0 (Z.of_nat (length l)))) with O by lia. reflexivity.
Qed.

Lemma bump_run ctx b gs position :
  guild_settings b !! guild_id ctx = Some gs ->
  1 <= position <= Z.of_nat (length (song_queue gs)) ->
  exists x, song_queue gs !! Z.to_nat (position - 1) = Some x /\
    music_queue.bump ctx position b =
    Some {| result := Returned tt;
            final := with_settings ctx
                       (set_song_queue (x :: delete (Z.to_nat (position - 1)) (song_queue gs)) gs) b;
            effects := [Send (MsgBumped (fst x))] |}.
Proof.
  intros H Hp. destruct (list_pop_valid (song_queue gs) position Hp) as (x & Hx & Hpop).
  exists x. split; [exact Hx|].
  unfold music_queue.bump, bind at 1. cbn. rewrite H.
  destruct (song_queue gs) as [|s q] eqn:Hq; [cbn in Hp; lia|].
  unfold bind at 1. rewrite (settings_run _ _ _ H). cbn. rewrite Hq.
  destruct (Z.leb_spec 1 position) as [_|?]; [|lia].
  destruct (Z.leb_spec position (Z.of_nat (length (s :: q)))) as [_|?]; [|lia].
  cbn [negb andb]. unfold bind at 1. rewrite Hpop. cbn.
  rewrite list_insert_front.
  unfold bind. rewrite (clear_and_extend_run _ _ _ _ H). cbn. reflexivity.
Qed.

(** *** The queue and the voice client *)

Lemma popleft_run ctx b gs s rest :
  guild_settings b !! guild_id ctx = Some gs ->
  song_queue gs = s :: rest ->
  popleft ctx b =
  Some {| result := Returned s; final := with_settings ctx (set_song_queue rest gs) b;
          effects := [] |}.
Proof.
  intros H Hq. unfold popleft, bind. rewrite (settings_run _ _ _ H). cbn. rewrite Hq.
  rewrite (update_settings_run _ _ _ _ H). reflexivity.
Qed.

Lemma popleft_empty ctx b gs :
  guild_settings b !! guild_id ctx = Some gs ->
  song_queue gs = [] ->
  popleft ctx b = Some {| result := Raised IndexError; final := b; effects := [] |}.
Proof.
  intros H Hq. unfold popleft, bind. rewrite (settings_run _ _ _ H). cbn. rewrite Hq.
  reflexivity.
Qed.

Lemma appendleft_run ctx b gs s :
  guild_settings b !! guild_id ctx = Some gs ->
  appendleft ctx s b =
  Some {| result := Returned tt;
          final := with_settings ctx (set_song_queue (s :: song_queue gs) gs) b;
          effects := [] |}.
Proof.
  intros H. unfold appendleft, bind. rewrite (settings_run _ _ _ H). cbn.
  rewrite (update_settings_run _ _ _ _ H). reflexivity.
Qed.

Lemma ensure_guild_settings_present ctx b gs :
  guild_settings b !! guild_id ctx = Some gs ->
  helpers.ensure_guild_settings ctx b =
  Some {| result := Returned tt; final := b; effects := [] |}.
Proof. intros H. unfold helpers.ensure_guild_settings, bind. cbn. rewrite H. reflexivity. Qed.

Lemma ensure_guild_settings_absent ctx b :
  guild_settings b !! guild_id ctx = None ->
  helpers.ensure_guild_settings ctx b =
  Some {| result := Returned tt; final := with_settings ctx default_settings b;
          effects := [] |}.
Proof. intros H. unfold helpers.ensure_guild_settings, bind. cbn. rewrite H. reflexivity. Qed.

Lemma voice_client_run ctx b :
  voice_client ctx b =
  Some {| result := Returned (voice_clients b !! guild_id ctx); final := b; effects := [] |}.
Proof. reflexivity. Qed.

Lemma client_is_playing_run ctx b :
  client_is_playing ctx b =
  Some {| result := Returned (match voice_clients b !! guild_id ctx with
                              | Some p => is_playing p
                              | None => false
                              end);
          final := b; effects := [] |}.
Proof. reflexivity. Qed.

Lemma voice_stop_run ctx b vc :
  voice_clients b !! guild_id ctx = Some vc ->
  voice_stop ctx b =
  Some {| result := Returned tt; final := stopped ctx vc b; effects := [] |}.
Proof.
  intros H. unfold voice_stop, bind. rewrite voice_client_run. cbn. rewrite H.
  destruct vc; reflexivity.
Qed.

Lemma voice_stop_disconnected ctx b :
  voice_clients b !! guild_id ctx = None ->
  voice_stop ctx b = Some {| result := Raised AttributeError; final := b; effects := [] |}.
Proof.
  intros H. unfold voice_stop, bind. rewrite voice_client_run. cbn. rewrite H. reflexivity.
Qed.

Lemma stopped_player ctx vc b :
  voice_clients (stopped ctx vc b) !! guild_id ctx =
  match vc with Some _ => Some None | None => voice_clients b !! guild_id ctx end.
Proof. destruct vc; cbn; [apply lookup_insert_eq | reflexivity]. Qed.

Lemma stopped_settings ctx vc b : guild_settings (stopped ctx vc b) = guild_settings b.
Proof. destruct vc; reflexivity. Qed.

Lemma voice_play_run ctx b vc audio_url vol :
  voice_clients b !! guild_id ctx = Some vc ->
  is_playing vc = false ->
  voice_play ctx audio_url vol b =
  Some {| result := Returned tt; final := started ctx b;
          effects := [Submit audio_url vol] |}.
Proof.
  intros H Hp. unfold voice_play, bind. rewrite voice_client_run. cbn. rewrite H, Hp.
  reflexivity.
Qed.

Lemma voice_play_after_stop ctx b vc audio_url vol :
  voice_clients b !! guild_id ctx = Some vc ->
  voice_play ctx audio_url vol (stopped ctx vc b) =
  Some {| result := Returned tt; final := started ctx (stopped ctx vc b);
          effects := [Submit audio_url vol] |}.
Proof.
  intros H. destruct vc as [p|].
  - apply (voice_play_run _ _ None); [apply stopped_player | reflexivity].
  - apply (voice_play_run _ _ None); [exact H | reflexivity].
Qed.

Lemma with_settings_voice ctx gs b :
  voice_clients (with_settings ctx gs b) = voice_clients b.
Proof. reflexivity. Qed.

(** *** One attempt of [play_next_in_queue] *)

Section Attempt.
Variable extract_info : string -> option Info.

Lemma play_next_in_queue_empty fuel ctx b gs :
  guild_settings b !! guild_id ctx = Some gs ->
  song_queue gs = [] ->
  helpers.play_next_in_queue extract_info (S fuel) ctx b =
  Some {| result := Returned tt;
          final := with_settings ctx (set_currently_playing None gs) b;
          effects := [Send MsgQueueFinished] |}.
Proof.
  intros H Hq. cbn. unfold bind. rewrite (settings_run _ _ _ H). cbn. rewrite Hq. cbn.
  rewrite (update_settings_run _ _ _ _ H). reflexivity.
Qed.

Lemma play_next_in_queue_absent fuel ctx b :
  guild_settings b !! guild_id ctx = None ->
  helpers.play_next_in_queue extract_info (S fuel) ctx b =
  Some {| result := Raised KeyError; final := b; effects := [] |}.
Proof.
  intros H. cbn. unfold bind, settings, get_bot. cbn. rewrite H. reflexivity.
Qed.

Lemma play_next_in_queue_pop fuel ctx b gs s rest :
  guild_settings b !! guild_id ctx = Some gs ->
  song_queue gs = s :: rest ->
  helpers.play_next_in_queue extract_info (S fuel) ctx b =
  try_except (attempt extract_info ctx s)
    (fun e =>
       emit (LogError e) >>
       helpers.send_and_delete MsgPlayError >>
       helpers.play_next_in_queue extract_info fuel ctx)
    (with_settings ctx (set_song_queue rest gs) b).
Proof.
  intros H Hq. cbn. unfold bind at 1. rewrite (settings_run _ _ _ H). cbn. rewrite Hq.
  unfold bind at 1. rewrite (popleft_run _ _ _ _ _ H Hq). cbn.
  unfold attempt.
  destruct (try_except _ _ _) as [o|]; [destruct o|]; reflexivity.
Qed.

End Attempt.

Lemma failed_attempts_app es es' :
  failed_attempts (es ++ es') = (failed_attempts es + failed_attempts es')%nat.
Proof. unfold failed_attempts. by rewrite List.filter_app, length_app. Qed.

Lemma submissions_app es es' :
  submissions (es ++ es') = (submissions es + submissions es')%nat.
Proof. unfold submissions. by rewrite List.filter_app, length_app. Qed.

Lemma failed_attempts_cons e es :
  failed_attempts (e :: es) =
  ((if is_play_error e then 1 else 0) + failed_attempts es)%nat.
Proof. unfold failed_attempts. cbn. by destruct (is_play_error e). Qed.

Lemma submissions_cons e es :
  submissions (e :: es) = ((if is_submit e then 1 else 0) + submissions es)%nat.
Proof. unfold submissions. cbn. by destruct (is_submit e). Qed.

Arguments failed_attempts : simpl never.
Arguments submissions : simpl never.

Section AttemptCases.
Variable extract_info : string -> option Info.

Lemma attempt_success ctx s b gs vc info audio_url :
  guild_settings b !! guild_id ctx = Some gs ->
  voice_clients b !! guild_id ctx = Some vc ->
  extract_info (snd s) = Some info ->
  info_url info = Some audio_url ->
  attempt extract_info ctx s b =
  Some {| result := Returned tt;
          final := started ctx (stopped ctx vc
                     (with_settings ctx
                        (set_currently_playing
                           (Some (helpers.info_get_title info (fst s), snd s)) gs) b));
          effects := [Send (MsgNowPlaying (helpers.info_get_title info (fst s)));
                      Submit audio_url (volume gs)] |}.
Proof.
  intros H Hv He Hu. unfold attempt, helpers.extractor, helpers.info_url_item, bind.
  rewrite He. cbn. rewrite Hu. cbn.
  rewrite (ensure_guild_settings_present _ _ _ H). cbn.
  rewrite (update_settings_run _ _ _ _ H). cbn.
  rewrite (settings_run _ _ _ (with_settings_lookup _ _ _)). cbn.
  rewrite (voice_stop_run _ _ vc) by exact Hv. cbn.
  rewrite (voice_play_after_stop _ _ vc) by exact Hv. reflexivity.
Qed.

Lemma attempt_download_error ctx s b :
  extract_info (snd s) = None ->
  attempt extract_info ctx s b =
  Some {| result := Raised DownloadError; final := b; effects := [] |}.
Proof. intros He. unfold attempt, helpers.extractor. rewrite He. reflexivity. Qed.

Lemma attempt_no_url ctx s b info :
  extract_info (snd s) = Some info ->
  info_url info = None ->
  attempt extract_info ctx s b =
  Some {| result := Raised KeyError; final := b; effects := [] |}.
Proof.
  intros He Hu. unfold attempt, helpers.extractor, helpers.info_url_item, bind.
  rewrite He. cbn. rewrite Hu. reflexivity.
Qed.

Lemma attempt_disconnected ctx s b gs info audio_url :
  guild_settings b !! guild_id ctx = Some gs ->
  voice_clients b !! guild_id ctx = None ->
  extract_info (snd s) = Some info ->
  info_url info = Some audio_url ->
  attempt extract_info ctx s b =
  Some {| result := Raised AttributeError;
          final := with_settings ctx
                     (set_currently_playing
                        (Some (helpers.info_get_title info (fst s), snd s)) gs) b;
          effects := [Send (MsgNowPlaying (helpers.info_get_title info (fst s)))] |}.
Proof.
  intros H Hv He Hu. unfold attempt, helpers.extractor, helpers.info_url_item, bind.
  rewrite He. cbn. rewrite Hu. cbn.
  rewrite (ensure_guild_settings_present _ _ _ H). cbn.
  rewrite (update_settings_run _ _ _ _ H). cbn.
  rewrite (settings_run _ _ _ (with_settings_lookup _ _ _)). cbn.
  rewrite voice_stop_disconnected by exact Hv. reflexivity.
Qed.

(** Whatever happens in an attempt, the queue is the one it found, and the
    attempt either submitted one stream or raised without submitting. *)
Lemma attempt_cases ctx s b gs :
  guild_settings b !! guild_id ctx = Some gs ->
  exists o gs',
    attempt extract_info ctx s b = Some o /\
    guild_settings (final o) !! guild_id ctx = Some gs' /\
    song_queue gs' = song_queue gs /\
    failed_attempts (effects o) = O /\
    ((result o = Returned tt /\ submissions (effects o) = 1%nat /\
      is_Some (currently_playing gs')) \/
     (exists e, result o = Raised e /\ submissions (effects o) = O)).
Proof.
  intros H.
  destruct (extract_info (snd s)) as [info|] eqn:He.
  2:{ eexists _, gs. rewrite (attempt_download_error _ _ _ He). cbn. eauto 10. }
  destruct (info_url info) as [audio_url|] eqn:Hu.
  2:{ eexists _, gs. rewrite (attempt_no_url _ _ _ _ He Hu). cbn. eauto 10. }
  destruct (voice_clients b !! guild_id ctx) as [vc|] eqn:Hv.
  - eexists _, _. rewrite (attempt_success _ _ _ _ _ _ _ H Hv He Hu). cbn.
    split; [reflexivity|]. split.
    { unfold started. cbn. rewrite stopped_settings. apply with_settings_lookup. }
    cbn. eauto 10.
  - eexists _, _. rewrite (attempt_disconnected _ _ _ _ _ _ H Hv He Hu). cbn.
    split; [reflexivity|]. split; [apply with_settings_lookup|].
    cbn. eauto 10.
Qed.

End AttemptCases.

(** ** [play_next_in_queue] returns *)

Section Advance.
Variable extract_info : string -> option Info.

Lemma queue_of_settings ctx b gs :
  guild_settings b !! guild_id ctx = Some gs -> queue_of ctx b = song_queue gs.
Proof. intros H. unfold queue_of. by rewrite H. Qed.

Lemma current_of_settings ctx b gs :
  guild_settings b !! guild_id ctx = Some gs -> current_of ctx b = currently_playing gs.
Proof. intros H. unfold current_of. by rewrite H. Qed.

(** With more fuel than queued entries the advance returns; every entry it
    popped is either a failed attempt or the one stream it submitted; it
    submits at most once; and if it submitted nothing the guild is idle with
    an empty queue. *)
Lemma advance_outcome fuel : forall ctx b,
  (length (queue_of ctx b) < fuel)%nat ->
  exists o,
    helpers.play_next_in_queue extract_info fuel ctx b = Some o /\
    (failed_attempts (effects o) + submissions (effects o)
       + length (queue_of ctx (final o)) = length (queue_of ctx b))%nat /\
    (submissions (effects o) <= 1)%nat /\
    (is_Some (guild_settings b !! guild_id ctx) ->
       result o = Returned tt /\
       is_Some (guild_settings (final o) !! guild_id ctx) /\
       (submissions (effects o) = O ->
          current_of ctx (final o) = None /\ queue_of ctx (final o) = [])).
Proof.
  induction fuel as [|fuel IH]; intros ctx b Hlen; [lia|].
  destruct (guild_settings b !! guild_id ctx) as [gs|] eqn:H.
  2:{ eexists. rewrite (play_next_in_queue_absent _ _ _ _ H). cbn.
      split; [reflexivity|]. cbn. unfold queue_of, failed_attempts, submissions.
      rewrite H. cbn.
      split; [reflexivity|]. split; [lia|]. intros [? ?]. discriminate. }
  rewrite (queue_of_settings _ _ _ H) in *.
  destruct (song_queue gs) as [|s rest] eqn:Hq.
  { eexists. rewrite (play_next_in_queue_empty _ _ _ _ _ H Hq). cbn.
    split; [reflexivity|]. cbn. unfold failed_attempts, submissions. cbn.
    rewrite (queue_of_settings _ _ _ (with_settings_lookup _ _ _)).
    rewrite (current_of_settings _ _ _ (with_settings_lookup _ _ _)).
    cbn. rewrite Hq, with_settings_lookup. repeat split; eauto; lia. }
  rewrite (play_next_in_queue_pop _ _ _ _ _ _ _ H Hq).
  destruct (attempt_cases extract_info ctx s _ _ (with_settings_lookup ctx (set_song_queue rest gs) b))
    as (oa & gs' & Ha & Hgs' & Hq' & Hfail & Hres).
  cbn in Hq'. unfold try_except. rewrite Ha.
  destruct Hres as [(Hr & Hsub & Hcur) | (e & Hr & Hsub)]; rewrite Hr.
  - eexists. split; [reflexivity|]. cbn.
    rewrite (queue_of_settings _ _ _ Hgs'), Hq', Hfail, Hsub. cbn.
    repeat split; eauto; lia.
  - destruct (IH ctx (final oa)) as (o & Ho & Hcount & Hle & Hidle).
    { rewrite (queue_of_settings _ _ _ Hgs'), Hq'. cbn in Hlen. lia. }
    unfold bind, emit, helpers.send_and_delete. cbn. rewrite Ho. cbn.
    eexists. split; [reflexivity|]. cbn.
    rewrite (queue_of_settings _ _ _ Hgs'), Hq' in Hcount.
    rewrite !failed_attempts_app, !submissions_app, !failed_attempts_cons,
      !submissions_cons, Hfail, Hsub. cbn.
    destruct (Hidle (ex_intro _ _ Hgs')) as (Hret & Hex & Hnone).
    split; [lia|]. split; [lia|]. intros _.
    split; [exact Hret|]. split; [exact Hex|]. intros Hz. apply Hnone. lia.
Qed.

End Advance.

(** ** Queue operations *)

(** C9: for every queue and every valid 1-based position, [bump] returns with
    the element at that position moved to the front and the other elements in
    the order they had; Bump(3) on [("S1","u1"),("S2","u2"),("S3","u3")]
    yields [("S3","u3"),("S1","u1"),("S2","u2")]. *)
Theorem bump_moves_to_front ctx b gs position :
  guild_settings b !! guild_id ctx = Some gs ->
  1 <= position <= Z.of_nat (length (song_queue gs)) ->
  (exists x,
     song_queue gs !! Z.to_nat (position - 1) = Some x /\
     music_queue.bump ctx position b =
     Some {| result := Returned tt;
             final := with_settings ctx
                        (set_song_queue
                           (x :: take (Z.to_nat (position - 1)) (song_queue gs)
                              ++ drop (S (Z.to_nat (position - 1))) (song_queue gs)) gs) b;
             effects := [Send (MsgBumped (fst x))] |}) /\
  queue_of alice <$>
    (final <$> music_queue.bump alice 3
                 (bot_with alice (set_song_queue three_songs default_settings)))
  = Some [("S3", "u3"); ("S1", "u1"); ("S2", "u2")].
Proof.
  intros H Hp. split; [|vm_compute; reflexivity].
  destruct (bump_run ctx b gs position H Hp) as (x & Hx & Hrun).
  exists x. split; [exact Hx|]. rewrite Hrun. by rewrite delete_take_drop.
Qed.

Lemma bump_moves_to_front_witness :
  exists x,
    three_songs !! 1%nat = Some x /\
    queue_of alice <$>
      (final <$> music_queue.bump alice 2
                   (bot_with alice (set_song_queue three_songs default_settings)))
    = Some (x :: [("S1", "u1")] ++ [("S3", "u3")]).
Proof.
  destruct (bump_moves_to_front alice
              (bot_with alice (set_song_queue three_songs default_settings))
              (set_song_queue three_songs default_settings) 2) as [(x & Hx & Hrun) _].
  - reflexivity.
  - cbn. lia.
  - exists x. split; [exact Hx|]. rewrite Hrun. cbn in Hx. injection Hx as <-.
    vm_compute. reflexivity.
Defined.

Lemma bump_rejects ctx b gs position :
  guild_settings b !! guild_id ctx = Some gs ->
  out_of_range (song_queue gs) position = true ->
  rejected_with (empty_or_out_of_range (song_queue gs)) b (music_queue.bump ctx position b).
Proof.
  intros H Hout. unfold music_queue.bump, bind. cbn. rewrite H.
  destruct (song_queue gs) as [|s q] eqn:Hq.
  { by exists MsgQueueEmpty. }
  rewrite (settings_run _ _ _ H). cbn. rewrite Hq.
  unfold out_of_range in Hout.
  replace (negb ((1 <=? position) && (position <=? Z.of_nat (length (s :: q))))) with true.
  { by exists MsgInvalidPosition. }
  symmetry. apply negb_true_iff, andb_false_iff. apply orb_true_iff in Hout.
  destruct Hout as [Hlt|Hgt]; [left|right]; lia.
Qed.

Lemma remove_rejects ctx b gs position :
  guild_settings b !! guild_id ctx = Some gs ->
  out_of_range (song_queue gs) position = true ->
  rejected_with OutOfRange b (music_queue.remove ctx position b).
Proof.
  intros H Hout. unfold music_queue.remove, bind. rewrite (settings_run _ _ _ H). cbn.
  unfold out_of_range in Hout. rewrite Hout.
  by exists (MsgRemoveOutOfRange (length (song_queue gs))).
Qed.

Lemma move_rejects ctx b gs from_pos to_pos :
  guild_settings b !! guild_id ctx = Some gs ->
  out_of_range (song_queue gs) from_pos || out_of_range (song_queue gs) to_pos = true ->
  rejected_with OutOfRange b (music_queue.move ctx from_pos to_pos b).
Proof.
  intros H Hout. unfold music_queue.move, bind. rewrite (settings_run _ _ _ H). cbn.
  unfold out_of_range in Hout. rewrite Hout.
  by exists MsgPositionsOutOfRange.
Qed.

Lemma skip_to_rejects extract_info fuel ctx b gs position :
  guild_settings b !! guild_id ctx = Some gs ->
  out_of_range (song_queue gs) position = true ->
  rejected_with (empty_or_out_of_range (song_queue gs)) b
    (music_queue.skip_to extract_info fuel ctx position b).
Proof.
  intros H Hout. unfold music_queue.skip_to, bind. rewrite (settings_run _ _ _ H). cbn.
  destruct (song_queue gs) as [|s q] eqn:Hq.
  { by exists MsgQueueEmpty. }
  rewrite (settings_run _ _ _ H). cbn. rewrite Hq.
  unfold out_of_range in Hout. rewrite Hout.
  by exists MsgOutOfRange.
Qed.

(** C4, as stated, fails: on an empty queue [bump] at position 1 reports that
    the queue is empty, not that the position is out of range. *)
Lemma bump_empty_queue_not_out_of_range :
  out_of_range (song_queue default_settings) 1 = true /\
  music_queue.bump alice 1 (bot_with alice default_settings) =
    Some {| result := Returned tt; final := bot_with alice default_settings;
            effects := [Send MsgQueueEmpty] |} /\
  ~ rejected_with OutOfRange (bot_with alice default_settings)
      (music_queue.bump alice 1 (bot_with alice default_settings)).
Proof.
  split; [reflexivity|]. split; [vm_compute; reflexivity|].
  intros (m & Hm & Hf).
  assert (Hm' : m = MsgQueueEmpty).
  { vm_compute in Hm. congruence. }
  subst m. discriminate.
Qed.

(** C4 (amended): for every queue and every out-of-range position, [bump],
    [move] (whichever of its two positions is out of range), [remove] and
    [skip_to] send one failure message and leave the bot, queue included, as
    it was; the failure is OutOfRange, except that [bump] and [skip_to] on an
    empty queue report QueueEmpty. *)
Theorem out_of_range_rejected extract_info fuel ctx b gs position other :
  guild_settings b !! guild_id ctx = Some gs ->
  out_of_range (song_queue gs) position = true ->
  rejected_with (empty_or_out_of_range (song_queue gs)) b (music_queue.bump ctx position b) /\
  rejected_with OutOfRange b (music_queue.move ctx position other b) /\
  rejected_with OutOfRange b (music_queue.move ctx other position b) /\
  rejected_with OutOfRange b (music_queue.remove ctx position b) /\
  rejected_with (empty_or_out_of_range (song_queue gs)) b
    (music_queue.skip_to extract_info fuel ctx position b).
Proof.
  intros H Hout. repeat split.
  - by apply bump_rejects.
  - apply (move_rejects _ _ gs); [done|]. by rewrite Hout.
  - apply (move_rejects _ _ gs); [done|]. rewrite Hout. apply orb_true_r.
  - by apply (remove_rejects _ _ gs).
  - by apply skip_to_rejects.
Qed.

Lemma out_of_range_rejected_witness :
  rejected_with OutOfRange (bot_with alice (set_song_queue three_songs default_settings))
    (music_queue.bump alice 4 (bot_with alice (set_song_queue three_songs default_settings))) /\
  rejected_with OutOfRange (bot_with alice (set_song_queue three_songs default_settings))
    (music_queue.skip_to resolve_all 1 alice 4
       (bot_with alice (set_song_queue three_songs default_settings))).
Proof.
  destruct (out_of_range_rejected resolve_all 1 alice
              (bot_with alice (set_song_queue three_songs default_settings))
              (set_song_queue three_songs default_settings) 4 1)
    as (Hb & _ & _ & _ & Hs).
  - reflexivity.
  - reflexivity.
  - split; [exact Hb | exact Hs].
Defined.

(** ** Volume *)



(** C2: the volume 0.0 lies in the domain [0.0, 2.0], and [volume] refuses
    it: it sends the out-of-range message and stores nothing. *)
Theorem volume_zero_refused ctx b :
  SFleb float_zero float_zero = true /\
  SFleb float_zero float_two = true /\
  music_control.volume ctx float_zero b =
    Some {| result := Returned tt; final := b; effects := [Send MsgVolumeRange] |}.
Proof. split; [reflexivity|]. split; reflexivity. Qed.

(** ** The [after] callback *)

Lemma after_song_run ctx error b gs :
  guild_settings b !! guild_id ctx = Some gs ->
  helpers.after_song ctx error b =
  Some {| result := Returned tt; final := scheduling ctx (requeued ctx gs b);
          effects := playback_log error |}.
Proof.
  intros H. unfold helpers.after_song, helpers.requeue_if_looping, requeued, bind.
  assert (Hlog : (match error with
                  | Some _ => emit LogPlaybackError
                  | None => ret tt
                  end) b =
                 Some {| result := Returned tt; final := b; effects := playback_log error |}).
  { destruct error; reflexivity. }
  rewrite Hlog. cbn. rewrite (settings_run _ _ _ H). cbn.
  destruct (loop gs); [|cbn; by rewrite app_nil_r].
  destruct (currently_playing gs) as [[title url]|]; [|cbn; by rewrite app_nil_r].
  rewrite (appendleft_run _ _ _ _ H). cbn. by rewrite app_nil_r.
Qed.

Lemma skip_run ctx b gs p :
  guild_settings b !! guild_id ctx = Some gs ->
  voice_clients b !! guild_id ctx = Some (Some p) ->
  paused p = false ->
  music_queue.skip ctx b =
  Some {| result := Returned tt;
          final := owing (after_ctx p)
                     (with_player ctx None (with_settings ctx (set_loop false gs) b));
          effects := [Send MsgSkipped] |}.
Proof.
  intros H Hv Hp. unfold music_queue.skip, bind. rewrite client_is_playing_run. cbn.
  rewrite Hv. cbn. rewrite Hp. cbn.
  rewrite (update_settings_run _ _ _ _ H). cbn.
  rewrite (voice_stop_run _ _ (Some p)) by exact Hv. reflexivity.
Qed.

(** C10: [skip] on a playing track sets [loop] to false and then stops the
    player, whose [after] callback is owed; when that callback runs, whatever
    [loop] was before, it puts nothing back: the queue stays as it was and
    only [play_next_in_queue] is scheduled. *)
Theorem skip_never_requeues ctx b gs p error :
  guild_settings b !! guild_id ctx = Some gs ->
  voice_clients b !! guild_id ctx = Some (Some p) ->
  paused p = false ->
  guild_id (after_ctx p) = guild_id ctx ->
  exists o1 o2 gs1,
    music_queue.skip ctx b = Some o1 /\
    result o1 = Returned tt /\
    guild_settings (final o1) !! guild_id ctx = Some gs1 /\
    loop gs1 = false /\
    currently_playing gs1 = currently_playing gs /\
    voice_clients (final o1) !! guild_id ctx = Some None /\
    after_owed (final o1) = (after_owed b ++ [after_ctx p])%list /\
    helpers.after_song (after_ctx p) error (final o1) = Some o2 /\
    guild_settings (final o2) = guild_settings (final o1) /\
    queue_of ctx (final o2) = song_queue gs /\
    loop_tasks (final o2) = (loop_tasks b ++ [after_ctx p])%list.
Proof.
  intros H Hv Hp Hg.
  assert (Hl : guild_settings
                 (owing (after_ctx p)
                    (with_player ctx None (with_settings ctx (set_loop false gs) b)))
               !! guild_id (after_ctx p) = Some (set_loop false gs)).
  { rewrite Hg. apply with_settings_lookup. }
  rewrite (skip_run _ _ _ _ H Hv Hp).
  eexists _, _, (set_loop false gs).
  split; [reflexivity|]. cbn [final result].
  rewrite (after_song_run _ _ _ _ Hl).
  split; [reflexivity|].
  split; [apply with_settings_lookup|]. split; [reflexivity|]. split; [reflexivity|].
  split; [apply lookup_insert_eq|]. split; [reflexivity|]. split; [reflexivity|].
  split; [reflexivity|]. split; [|reflexivity].
  apply (queue_of_settings _ _ (set_loop false gs)). apply with_settings_lookup.
Qed.

Lemma skip_never_requeues_witness :
  exists o1 o2,
    music_queue.skip alice (playing_bot alice (looping_settings ("T", "t") [("N", "n")]))
      = Some o1 /\
    helpers.after_song alice None (final o1) = Some o2 /\
    queue_of alice (final o2) = [("N", "n")].
Proof.
  destruct (skip_never_requeues alice
              (playing_bot alice (looping_settings ("T", "t") [("N", "n")]))
              (looping_settings ("T", "t") [("N", "n")])
              {| after_ctx := alice; paused := false |} None)
    as (o1 & o2 & gs1 & H1 & _ & _ & _ & _ & _ & _ & H2 & _ & H3 & _).
  - reflexivity.
  - reflexivity.
  - reflexivity.
  - reflexivity.
  - exists o1, o2. split; [exact H1|]. split; [exact H2 | exact H3].
Defined.

(** ** Direct play *)

Lemma ensure_guild_settings_run ctx b :
  helpers.ensure_guild_settings ctx b =
  Some {| result := Returned tt; final := ensured ctx b; effects := [] |}.
Proof.
  unfold helpers.ensure_guild_settings, ensured, bind. cbn.
  by destruct (guild_settings b !! guild_id ctx).
Qed.

Lemma current_of_ensured ctx b : current_of ctx (ensured ctx b) = current_of ctx b.
Proof.
  unfold ensured, current_of.
  destruct (guild_settings b !! guild_id ctx) as [gs|] eqn:H; [by rewrite H|].
  by rewrite with_settings_lookup.
Qed.

Lemma queue_of_ensured ctx b : queue_of ctx (ensured ctx b) = queue_of ctx b.
Proof.
  unfold ensured, queue_of.
  destruct (guild_settings b !! guild_id ctx) as [gs|] eqn:H; [by rewrite H|].
  by rewrite with_settings_lookup.
Qed.

Lemma guild_settings_joined ctx b : guild_settings (joined ctx b) = guild_settings b.
Proof. unfold joined. by destruct (voice_clients b !! guild_id ctx). Qed.

Lemma join_author_channel_run ctx refusal b :
  is_Some (voice_clients b !! guild_id ctx) \/ author_voice ctx = true ->
  helpers.join_author_channel ctx refusal b =
  Some {| result := Returned true; final := joined ctx b; effects := [] |}.
Proof.
  intros Hv. unfold helpers.join_author_channel, joined, bind. rewrite voice_client_run. cbn.
  destruct (voice_clients b !! guild_id ctx) as [vc|] eqn:Hvc; [reflexivity|].
  destruct Hv as [[? ?]|Ha]; [discriminate|]. rewrite Ha. reflexivity.
Qed.

(** C7, as stated, fails: [play] in a guild the bot has not seen yet, by an
    author who sits in a voice channel, joins that channel and creates the
    guild's settings before the resolution fails, so the state after the
    failure is not the state before it. *)
Lemma play_failure_keeps_connect_and_settings :
  resolve_error resolve_none "u" = Some DownloadError /\
  guild_settings initial_bot !! guild_id alice = None /\
  voice_clients initial_bot !! guild_id alice = None /\
  exists o,
    music_main.play resolve_none alice "u" initial_bot = Some o /\
    effects o = [LogError DownloadError; Send MsgPlayError] /\
    guild_settings (final o) !! guild_id alice = Some default_settings /\
    voice_clients (final o) !! guild_id alice = Some None /\
    final o <> initial_bot.
Proof.
  split; [reflexivity|]. split; [reflexivity|]. split; [reflexivity|].
  eexists. split; [vm_compute; reflexivity|]. split; [reflexivity|].
  split; [vm_compute; reflexivity|]. split; [vm_compute; reflexivity|].
  intros Heq. apply (f_equal (fun b => voice_clients b !! guild_id alice)) in Heq.
  vm_compute in Heq. discriminate.
Qed.

(** C7 (amended): when the resolution of the locator fails in [play], for a
    guild that has a voice client or an author who sits in a voice channel
    (so that the command gets to the resolution), the command logs the
    exception and tells the channel that an error occurred, and the guild's
    current track and queue are what they were.  The only changes made
    before the failure are the voice connect and the creation of the guild's
    settings, for a guild that lacked them: a guild that already had its
    settings and a voice client is left exactly as it was. *)
Theorem play_resolve_failure extract_info ctx url b e :
  resolve_error extract_info url = Some e ->
  is_Some (voice_clients b !! guild_id ctx) \/ author_voice ctx = true ->
  music_main.play extract_info ctx url b =
    Some {| result := Returned tt; final := ensured ctx (joined ctx b);
            effects := [LogError e; Send MsgPlayError] |} /\
  current_of ctx (ensured ctx (joined ctx b)) = current_of ctx b /\
  queue_of ctx (ensured ctx (joined ctx b)) = queue_of ctx b /\
  (is_Some (guild_settings b !! guild_id ctx) ->
     guild_settings (ensured ctx (joined ctx b)) = guild_settings b) /\
  (is_Some (guild_settings b !! guild_id ctx) ->
   is_Some (voice_clients b !! guild_id ctx) ->
     ensured ctx (joined ctx b) = b).
Proof.
  intros He Hv. split.
  - unfold music_main.play, bind.
    rewrite (join_author_channel_run _ _ _ Hv). cbn. rewrite ensure_guild_settings_run. cbn.
    unfold try_except, helpers.extractor, helpers.info_url_item.
    unfold resolve_error in He.
    destruct (extract_info url) as [info|].
    + cbn. destruct (info_url info); [discriminate|]. injection He as <-. reflexivity.
    + injection He as <-. reflexivity.
  - split; [|split; [|split]].
    + rewrite current_of_ensured. unfold current_of. by rewrite guild_settings_joined.
    + rewrite queue_of_ensured. unfold queue_of. by rewrite guild_settings_joined.
    + intros [gs Hgs]. unfold ensured. rewrite guild_settings_joined, Hgs.
      apply guild_settings_joined.
    + intros [gs Hgs] [vc Hvc]. unfold ensured. rewrite guild_settings_joined, Hgs.
      unfold joined. by rewrite Hvc.
Qed.

(** A failed [play] while the track T plays with three songs queued. *)
Lemma play_resolve_failure_witness :
  music_main.play resolve_none alice "u"
    (playing_bot alice (looping_settings ("T", "t") three_songs)) =
  Some {| result := Returned tt;
          final := playing_bot alice (looping_settings ("T", "t") three_songs);
          effects := [LogError DownloadError; Send MsgPlayError] |} /\
  current_of alice (playing_bot alice (looping_settings ("T", "t") three_songs))
    = Some ("T", "t") /\
  queue_of alice (playing_bot alice (looping_settings ("T", "t") three_songs))
    = three_songs.
Proof.
  destruct (play_resolve_failure resolve_none alice "u"
              (playing_bot alice (looping_settings ("T", "t") three_songs))
              DownloadError)
    as (Hrun & _ & _ & _ & Hsame).
  - reflexivity.
  - left. eexists. reflexivity.
  - split; [|split; reflexivity].
    rewrite Hrun. rewrite Hsame; [reflexivity | eexists; reflexivity | eexists; reflexivity].
Defined.

(** ** Advancing through the queue *)

Section AdvanceSteps.
Variable extract_info : string -> option Info.

(** A front entry that does not resolve is logged, reported and dropped, and
    the advance goes on with the rest. *)
Lemma play_next_in_queue_skips fuel ctx b gs s rest e :
  guild_settings b !! guild_id ctx = Some gs ->
  song_queue gs = s :: rest ->
  resolve_error extract_info (snd s) = Some e ->
  helpers.play_next_in_queue extract_info (S fuel) ctx b =
  after_effects [LogError e; Send MsgPlayError]
    (helpers.play_next_in_queue extract_info fuel ctx
       (with_settings ctx (set_song_queue rest gs) b)).
Proof.
  intros H Hq He. rewrite (play_next_in_queue_pop _ _ _ _ _ _ _ H Hq).
  unfold try_except, resolve_error in *.
  destruct (extract_info (snd s)) as [info|] eqn:Hx.
  - destruct (info_url info) eqn:Hu; [discriminate|]. injection He as <-.
    rewrite (attempt_no_url _ _ _ _ _ Hx Hu). cbn. unfold bind. cbn.
    by destruct (helpers.play_next_in_queue _ _ _ _).
  - injection He as <-. rewrite (attempt_download_error _ _ _ _ Hx). cbn. unfold bind. cbn.
    by destruct (helpers.play_next_in_queue _ _ _ _).
Qed.

(** A front entry that resolves, in a guild with a voice client, becomes the
    current track and is submitted with the guild's volume. *)
Lemma play_next_in_queue_starts fuel ctx b gs s rest vc info audio_url :
  guild_settings b !! guild_id ctx = Some gs ->
  song_queue gs = s :: rest ->
  voice_clients b !! guild_id ctx = Some vc ->
  extract_info (snd s) = Some info ->
  info_url info = Some audio_url ->
  helpers.play_next_in_queue extract_info (S fuel) ctx b =
  Some {| result := Returned tt;
          final := started ctx (stopped ctx vc
                     (with_settings ctx
                        (set_currently_playing
                           (Some (helpers.info_get_title info (fst s), snd s))
                           (set_song_queue rest gs)) b));
          effects := [Send (MsgNowPlaying (helpers.info_get_title info (fst s)));
                      Submit audio_url (volume gs)] |}.
Proof.
  intros H Hq Hv Hx Hu. rewrite (play_next_in_queue_pop _ _ _ _ _ _ _ H Hq).
  unfold try_except.
  rewrite (attempt_success extract_info ctx s _ (set_song_queue rest gs) vc info audio_url
             (with_settings_lookup _ _ _) Hv Hx Hu).
  cbn. by rewrite with_settings_twice.
Qed.

Lemma started_stopped_settings ctx vc b :
  guild_settings (started ctx (stopped ctx vc b)) = guild_settings b.
Proof. unfold started. cbn. apply stopped_settings. Qed.

End AdvanceSteps.

Lemma info_get_title_keeps info s :
  keeps_title info s -> (helpers.info_get_title info (fst s), snd s) = s.
Proof.
  unfold helpers.info_get_title. intros [Hn|Hs]; [rewrite Hn | rewrite Hs]; by destruct s.
Qed.

Lemma left_bot_reachable : reachable no_stream_for_a left_bot.
Proof.
  eapply (reachable_step _ _ 1%nat (AfterCallback None)).
  - eapply (reachable_step _ _ 1%nat (Invoke alice CmdLeave)).
    + eapply (reachable_step _ _ 1%nat (Invoke alice CmdPause)).
      * eapply (reachable_step _ _ 1%nat (Invoke alice (CmdAdd "a"))).
        -- eapply (reachable_step _ _ 1%nat (Invoke alice (CmdAdd "b"))).
           ++ eapply (reachable_step _ _ 1%nat (Invoke alice (CmdPlay "t"))).
              ** apply reachable_initial.
              ** vm_compute. reflexivity.
           ++ vm_compute. reflexivity.
        -- vm_compute. reflexivity.
      * vm_compute. reflexivity.
    + vm_compute. reflexivity.
  - vm_compute. reflexivity.
Qed.

(** C6, as stated, fails: in a state the bot reaches by [play], two [add]s,
    [pause], [leave] and the owed [after] callback, the queue is [A, B], A's
    locator does not resolve and B's does, but the guild has no voice client
    any more: the advance returns without raising, drops B as well as A, and
    ends with no current track. *)
Lemma advance_after_leave_loses_good_entry :
  reachable no_stream_for_a left_bot /\
  queue_of alice left_bot = [("A", "a"); ("B", "b")] /\
  resolve_error no_stream_for_a "a" = Some KeyError /\
  resolve_error no_stream_for_a "b" = None /\
  exists o,
    helpers.play_next_in_queue no_stream_for_a 3 alice left_bot = Some o /\
    result o = Returned tt /\
    current_of alice (final o) = None /\
    current_of alice (final o) <> Some ("B", "b") /\
    queue_of alice (final o) = [].
Proof.
  split; [exact left_bot_reachable|]. split; [reflexivity|].
  split; [reflexivity|]. split; [reflexivity|].
  eexists. split; [vm_compute; reflexivity|]. split; [reflexivity|].
  split; [vm_compute; reflexivity|]. split; [vm_compute; discriminate|].
  vm_compute. reflexivity.
Qed.

(** C6 (amended): with the queue [A, B] in a guild that has a voice client, a
    locator of A that does not resolve and a locator of B that does,
    [play_next_in_queue] returns without raising, has logged A's exception
    and reported it to the channel, and has made B the current track (under
    the title the resolver reports, B's own when it reports that title or
    none) and submitted its stream; the queue is empty. *)
Theorem advance_skips_bad_entry extract_info fuel ctx b gs A B e vc info audio_url :
  guild_settings b !! guild_id ctx = Some gs ->
  song_queue gs = [A; B] ->
  voice_clients b !! guild_id ctx = Some vc ->
  resolve_error extract_info (snd A) = Some e ->
  extract_info (snd B) = Some info ->
  info_url info = Some audio_url ->
  exists o,
    helpers.play_next_in_queue extract_info (S (S fuel)) ctx b = Some o /\
    result o = Returned tt /\
    effects o = [LogError e; Send MsgPlayError;
                 Send (MsgNowPlaying (helpers.info_get_title info (fst B)));
                 Submit audio_url (volume gs)] /\
    current_of ctx (final o) = Some (helpers.info_get_title info (fst B), snd B) /\
    (keeps_title info B -> current_of ctx (final o) = Some B) /\
    queue_of ctx (final o) = [] /\
    is_playing <$> (voice_clients (final o) !! guild_id ctx) = Some true.
Proof.
  intros H Hq Hv He Hx Hu.
  rewrite (play_next_in_queue_skips _ _ _ _ _ _ _ _ H Hq He).
  rewrite (play_next_in_queue_starts extract_info fuel ctx _ (set_song_queue [B] gs) B [] vc
             info audio_url (with_settings_lookup _ _ _) eq_refl Hv Hx Hu).
  rewrite with_settings_twice. cbn.
  eexists. split; [reflexivity|]. cbn.
  assert (Hl : guild_settings
                 (started ctx (stopped ctx vc
                    (with_settings ctx
                       (set_currently_playing
                          (Some (helpers.info_get_title info (fst B), snd B))
                          (set_song_queue [] (set_song_queue [B] gs))) b)))
               !! guild_id ctx =
               Some (set_currently_playing
                       (Some (helpers.info_get_title info (fst B), snd B))
                       (set_song_queue [] (set_song_queue [B] gs)))).
  { rewrite started_stopped_settings. apply with_settings_lookup. }
  rewrite (current_of_settings _ _ _ Hl), (queue_of_settings _ _ _ Hl). cbn.
  repeat split.
  - intros Hk. by rewrite (info_get_title_keeps _ _ Hk).
  - by rewrite lookup_insert_eq.
Qed.

Lemma advance_skips_bad_entry_witness :
  exists o,
    helpers.play_next_in_queue bad_then_good 2 alice
      (bot_with alice (set_song_queue [("A", "a"); ("B", "b")] default_settings)) = Some o /\
    result o = Returned tt /\
    current_of alice (final o) = Some ("B", "b").
Proof.
  destruct (advance_skips_bad_entry bad_then_good 0 alice
              (bot_with alice (set_song_queue [("A", "a"); ("B", "b")] default_settings))
              (set_song_queue [("A", "a"); ("B", "b")] default_settings)
              ("A", "a") ("B", "b") DownloadError None
              {| info_url := Some "stream-b"; info_title := Some "B" |} "stream-b")
    as (o & Hrun & Hres & _ & _ & Hcur & _).
  - reflexivity.
  - reflexivity.
  - reflexivity.
  - reflexivity.
  - reflexivity.
  - reflexivity.
  - exists o. split; [exact Hrun|]. split; [exact Hres|]. apply Hcur. right. reflexivity.
Defined.

(** ** Skipping ahead *)

Lemma set_song_queue_same gs : set_song_queue (song_queue gs) gs = gs.
Proof. by destruct gs. Qed.

(** [for _ in range(n): queue.popleft()] on a queue of at least [n] entries. *)
Lemma popleft_many ctx n : forall b gs,
  guild_settings b !! guild_id ctx = Some gs ->
  (n <= length (song_queue gs))%nat ->
  for_range n (popleft ctx >> ret tt) b =
  Some {| result := Returned tt;
          final := with_settings ctx (set_song_queue (drop n (song_queue gs)) gs) b;
          effects := [] |}.
Proof.
  induction n as [|n IH]; intros b gs H Hn.
  - cbn. rewrite drop_0, set_song_queue_same. by rewrite (with_settings_same _ _ _ H).
  - destruct (song_queue gs) as [|s rest] eqn:Hq; [cbn in Hn; lia|].
    cbn [for_range]. unfold bind. rewrite (popleft_run _ _ _ _ _ H Hq). cbn.
    rewrite (IH _ (set_song_queue rest gs) (with_settings_lookup _ _ _)); [|cbn in *; lia].
    cbn. by rewrite with_settings_twice.
Qed.

(** [skip_to] at a valid position while nothing plays: the entries before the
    position are dropped and the advance runs on what is left. *)
Lemma skip_to_idle_run extract_info fuel ctx b gs position :
  guild_settings b !! guild_id ctx = Some gs ->
  song_queue gs <> [] ->
  out_of_range (song_queue gs) position = false ->
  (match voice_clients b !! guild_id ctx with
   | Some p => is_playing p
   | None => false
   end) = false ->
  music_queue.skip_to extract_info fuel ctx position b =
  after_effects [Send (MsgSkippingAhead position)]
    (helpers.play_next_in_queue extract_info fuel ctx
       (with_settings ctx
          (set_song_queue (drop (Z.to_nat (position - 1)) (song_queue gs)) gs) b)).
Proof.
  intros H Hne Hin Hidle.
  unfold music_queue.skip_to, bind. rewrite (settings_run _ _ _ H). cbn.
  destruct (song_queue gs) as [|s q] eqn:Hq; [done|].
  rewrite (settings_run _ _ _ H). cbn. rewrite Hq.
  unfold out_of_range in Hin. rewrite Hin.
  rewrite (popleft_many ctx _ b gs H).
  2:{ apply orb_false_iff in Hin. rewrite Hq. destruct Hin as [H1 H2]. lia. }
  cbn. rewrite client_is_playing_run. cbn. rewrite with_settings_voice, Hidle, Hq.
  by destruct (helpers.play_next_in_queue _ _ _ _).
Qed.

(** C1, as stated, fails: on [A,B,C,D] with nothing playing and every locator
    resolving, [skip_to 2] leaves the queue [C,D] with B as the current
    track, not C. *)
Lemma skip_to_second_plays_second :
  exists o,
    music_queue.skip_to resolve_all 1 alice 2
      (bot_with alice (set_song_queue four_songs default_settings)) = Some o /\
    result o = Returned tt /\
    queue_of alice (final o) = [("C", "c"); ("D", "d")] /\
    current_of alice (final o) = Some ("B", "b") /\
    current_of alice (final o) <> Some ("C", "c").
Proof.
  eexists. split; [vm_compute; reflexivity|].
  split; [reflexivity|]. split; [vm_compute; reflexivity|].
  split; [vm_compute; reflexivity|]. vm_compute. discriminate.
Qed.

(** C1 (amended): on the queue [A,B,C,D], in a guild whose voice client is
    not playing, when B's locator resolves, [skip_to 2] drops A and advances:
    the queue becomes [C,D] and the current track is B, the entry at position
    2 (under the title the resolver reports, B's own when it reports none). *)
Theorem skip_to_second extract_info fuel ctx b gs A B C D vc info audio_url :
  guild_settings b !! guild_id ctx = Some gs ->
  song_queue gs = [A; B; C; D] ->
  voice_clients b !! guild_id ctx = Some vc ->
  is_playing vc = false ->
  extract_info (snd B) = Some info ->
  info_url info = Some audio_url ->
  exists o,
    music_queue.skip_to extract_info (S fuel) ctx 2 b = Some o /\
    result o = Returned tt /\
    effects o = [Send (MsgSkippingAhead 2);
                 Send (MsgNowPlaying (helpers.info_get_title info (fst B)));
                 Submit audio_url (volume gs)] /\
    queue_of ctx (final o) = [C; D] /\
    current_of ctx (final o) = Some (helpers.info_get_title info (fst B), snd B) /\
    (keeps_title info B -> current_of ctx (final o) = Some B).
Proof.
  intros H Hq Hv Hp Hx Hu.
  rewrite (skip_to_idle_run extract_info _ ctx b gs 2 H);
    [| by rewrite Hq | by rewrite Hq | by rewrite Hv].
  rewrite Hq. change (Z.to_nat (2 - 1)) with 1%nat. cbn [drop].
  rewrite (play_next_in_queue_starts extract_info fuel ctx _ (set_song_queue [B; C; D] gs)
             B [C; D] vc info audio_url (with_settings_lookup _ _ _) eq_refl Hv Hx Hu).
  rewrite with_settings_twice. cbn.
  eexists. split; [reflexivity|]. cbn.
  assert (Hl : guild_settings
                 (started ctx (stopped ctx vc
                    (with_settings ctx
                       (set_currently_playing
                          (Some (helpers.info_get_title info (fst B), snd B))
                          (set_song_queue [C; D] (set_song_queue [B; C; D] gs))) b)))
               !! guild_id ctx =
               Some (set_currently_playing
                       (Some (helpers.info_get_title info (fst B), snd B))
                       (set_song_queue [C; D] (set_song_queue [B; C; D] gs)))).
  { rewrite started_stopped_settings. apply with_settings_lookup. }
  rewrite (current_of_settings _ _ _ Hl), (queue_of_settings _ _ _ Hl). cbn.
  repeat split.
  intros Hk. by rewrite (info_get_title_keeps _ _ Hk).
Qed.

Lemma skip_to_second_witness :
  exists o,
    music_queue.skip_to resolve_all 1 alice 2
      (bot_with alice (set_song_queue four_songs default_settings)) = Some o /\
    queue_of alice (final o) = [("C", "c"); ("D", "d")] /\
    current_of alice (final o) = Some ("B", "b").
Proof.
  destruct (skip_to_second resolve_all 0 alice
              (bot_with alice (set_song_queue four_songs default_settings))
              (set_song_queue four_songs default_settings)
              ("A", "a") ("B", "b") ("C", "c") ("D", "d") None
              {| info_url := Some "stream:b"; info_title := None |} "stream:b")
    as (o & Hrun & _ & _ & Hqueue & _ & Hcur).
  - reflexivity.
  - reflexivity.
  - reflexivity.
  - reflexivity.
  - reflexivity.
  - reflexivity.
  - exists o. split; [exact Hrun|]. split; [exact Hqueue|]. apply Hcur. left. reflexivity.
Defined.

(** ** Looping *)

Lemma loop_cycle_run extract_info fuel ctx error b gs :
  guild_settings b !! guild_id ctx = Some gs ->
  loop_cycle extract_info fuel ctx error b =
  after_effects (playback_log error)
    (helpers.play_next_in_queue extract_info fuel ctx (scheduling ctx (requeued ctx gs b))).
Proof.
  intros H. unfold loop_cycle, bind. rewrite (after_song_run _ _ _ _ H). cbn.
  by destruct (helpers.play_next_in_queue _ _ _ _).
Qed.

(** C5, as stated, fails: with [loop] on, the track T current and nothing
    else queued, a cycle in which T's locator no longer resolves ends with no
    current track. *)
Lemma loop_cycle_loses_unresolvable_track :
  loop (looping_settings ("T", "t") []) = true /\
  currently_playing (looping_settings ("T", "t") []) = Some ("T", "t") /\
  exists o,
    loop_cycle resolve_none 2 alice None
      (bot_with alice (looping_settings ("T", "t") [])) = Some o /\
    current_of alice (final o) = None /\
    current_of alice (final o) <> Some ("T", "t").
Proof.
  split; [reflexivity|]. split; [reflexivity|].
  eexists. split; [vm_compute; reflexivity|].
  split; [vm_compute; reflexivity|]. vm_compute. discriminate.
Qed.

(** C5 (amended): with [loop] enabled and T the current track, the [after]
    callback, with or without an error, puts T at the front of the queue and
    schedules [play_next_in_queue].  With nothing else queued, that advance
    makes T current again if T's locator resolves and the guild has a voice
    client (under the title the resolver reports, T's own when it reports
    none); if the locator does not resolve, the guild ends with no current
    track. *)
Theorem loop_requeues_current extract_info fuel ctx b gs T error :
  guild_settings b !! guild_id ctx = Some gs ->
  loop gs = true ->
  currently_playing gs = Some T ->
  helpers.after_song ctx error b =
    Some {| result := Returned tt;
            final := scheduling ctx
                       (with_settings ctx (set_song_queue (T :: song_queue gs) gs) b);
            effects := playback_log error |} /\
  (song_queue gs = [] ->
   forall vc info audio_url,
     voice_clients b !! guild_id ctx = Some vc ->
     extract_info (snd T) = Some info ->
     info_url info = Some audio_url ->
     exists o,
       loop_cycle extract_info (S fuel) ctx error b = Some o /\
       result o = Returned tt /\
       current_of ctx (final o) = Some (helpers.info_get_title info (fst T), snd T) /\
       (keeps_title info T -> current_of ctx (final o) = Some T) /\
       queue_of ctx (final o) = []) /\
  (song_queue gs = [] ->
   forall e,
     resolve_error extract_info (snd T) = Some e ->
     exists o,
       loop_cycle extract_info (S (S fuel)) ctx error b = Some o /\
       result o = Returned tt /\
       current_of ctx (final o) = None /\
       queue_of ctx (final o) = []).
Proof.
  intros H Hloop Hcur.
  assert (Hreq : requeued ctx gs b =
                 with_settings ctx (set_song_queue (T :: song_queue gs) gs) b).
  { unfold requeued. by rewrite Hloop, Hcur. }
  assert (Hl : guild_settings
                 (scheduling ctx (with_settings ctx (set_song_queue (T :: song_queue gs) gs) b))
               !! guild_id ctx = Some (set_song_queue (T :: song_queue gs) gs)).
  { apply with_settings_lookup. }
  split; [|split].
  - rewrite (after_song_run _ _ _ _ H). by rewrite Hreq.
  - intros Hq vc info audio_url Hv Hx Hu.
    rewrite (loop_cycle_run _ _ _ _ _ _ H), Hreq.
    rewrite (play_next_in_queue_starts extract_info fuel ctx _ _ T (song_queue gs) vc
               info audio_url Hl eq_refl Hv Hx Hu).
    cbn. eexists. split; [reflexivity|]. cbn.
    match goal with
    | |- context [current_of ctx ?b'] =>
        assert (Hf : guild_settings b' !! guild_id ctx =
                     Some (set_currently_playing
                             (Some (helpers.info_get_title info (fst T), snd T))
                             (set_song_queue (song_queue gs)
                                (set_song_queue (T :: song_queue gs) gs))))
    end.
    { rewrite started_stopped_settings. apply with_settings_lookup. }
    rewrite (current_of_settings _ _ _ Hf), (queue_of_settings _ _ _ Hf). cbn.
    repeat split; [|exact Hq].
    intros Hk. by rewrite (info_get_title_keeps _ _ Hk).
  - intros Hq e He.
    rewrite (loop_cycle_run _ _ _ _ _ _ H), Hreq.
    rewrite (play_next_in_queue_skips extract_info _ ctx _ _ T (song_queue gs) e Hl eq_refl He).
    rewrite (play_next_in_queue_empty extract_info fuel ctx _
               (set_song_queue (song_queue gs) (set_song_queue (T :: song_queue gs) gs))
               (with_settings_lookup _ _ _) Hq).
    cbn. eexists. split; [reflexivity|]. cbn.
    match goal with
    | |- context [current_of ctx ?b'] =>
        assert (Hf : guild_settings b' !! guild_id ctx =
                     Some (set_currently_playing None
                             (set_song_queue (song_queue gs)
                                (set_song_queue (T :: song_queue gs) gs))))
    end.
    { apply with_settings_lookup. }
    rewrite (current_of_settings _ _ _ Hf), (queue_of_settings _ _ _ Hf). cbn.
    repeat split. exact Hq.
Qed.

Lemma loop_requeues_current_witness :
  queue_of alice <$>
    (final <$> helpers.after_song alice None
                 (bot_with alice (looping_settings ("T", "t") [])))
  = Some [("T", "t")] /\
  exists o,
    loop_cycle resolve_all 1 alice None
      (bot_with alice (looping_settings ("T", "t") [])) = Some o /\
    current_of alice (final o) = Some ("T", "t").
Proof.
  destruct (loop_requeues_current resolve_all 0 alice
              (bot_with alice (looping_settings ("T", "t") []))
              (looping_settings ("T", "t") []) ("T", "t") None)
    as (Hafter & Hcycle & _).
  - reflexivity.
  - reflexivity.
  - reflexivity.
  - split; [rewrite Hafter; vm_compute; reflexivity|].
    destruct (Hcycle eq_refl None {| info_url := Some "stream:t"; info_title := None |}
                "stream:t" eq_refl eq_refl eq_refl)
      as (o & Hrun & _ & _ & Hsame & _).
    exists o. split; [exact Hrun|]. apply Hsame. left. reflexivity.
Defined.

(** ** The queue and the current track *)

Lemma replay_run ctx b gs p T :
  guild_settings b !! guild_id ctx = Some gs ->
  voice_clients b !! guild_id ctx = Some (Some p) ->
  paused p = false ->
  currently_playing gs = Some T ->
  music_main.replay ctx b =
  Some {| result := Returned tt;
          final := owing (after_ctx p)
                     (with_player ctx None
                        (with_settings ctx (set_song_queue (T :: song_queue gs) gs) b));
          effects := [Send MsgReplaying] |}.
Proof.
  intros H Hv Hp Hcur. unfold music_main.replay, bind.
  rewrite (ensure_guild_settings_present _ _ _ H). cbn.
  rewrite client_is_playing_run. cbn. rewrite Hv. cbn. rewrite Hp. cbn.
  rewrite (settings_run _ _ _ H). cbn. rewrite Hcur.
  rewrite (appendleft_run _ _ _ _ H). cbn.
  rewrite (voice_stop_run _ _ (Some p)) by exact Hv. reflexivity.
Qed.





(** ** Termination of the advance *)

(** C8: [play_next_in_queue] returns whenever it is given more fuel than the
    queue has entries, so its recursion is bounded by the queue: each entry
    it popped counts as one failed attempt or as the one stream it
    submitted, and none is popped otherwise.  On an empty queue it returns
    at once, having told the channel that playback finished and set the
    current track to none. *)
Theorem play_next_in_queue_terminates extract_info fuel ctx b :
  (length (queue_of ctx b) < fuel)%nat ->
  (exists o,
     helpers.play_next_in_queue extract_info fuel ctx b = Some o /\
     (failed_attempts (effects o) + submissions (effects o)
        + length (queue_of ctx (final o)) = length (queue_of ctx b))%nat /\
     (failed_attempts (effects o) <= length (queue_of ctx b))%nat /\
     (submissions (effects o) <= 1)%nat /\
     (is_Some (guild_settings b !! guild_id ctx) ->
        result o = Returned tt /\
        (submissions (effects o) = O ->
           current_of ctx (final o) = None /\ queue_of ctx (final o) = []))) /\
  (forall gs,
     guild_settings b !! guild_id ctx = Some gs ->
     song_queue gs = [] ->
     helpers.play_next_in_queue extract_info fuel ctx b =
     Some {| result := Returned tt;
             final := with_settings ctx (set_currently_playing None gs) b;
             effects := [Send MsgQueueFinished] |}).
Proof.
  intros Hfuel. split.
  - destruct (advance_outcome extract_info fuel ctx b Hfuel)
      as (o & Hrun & Hcount & Hle & Hidle).
    exists o. split; [exact Hrun|]. split; [exact Hcount|].
    split; [lia|]. split; [exact Hle|].
    intros Hex. destruct (Hidle Hex) as (Hret & _ & Hnone). by split.
  - intros gs H Hq. destruct fuel as [|fuel]; [lia|].
    by apply play_next_in_queue_empty.
Qed.

Lemma play_next_in_queue_terminates_witness :
  exists o,
    helpers.play_next_in_queue resolve_none 3 alice
      (bot_with alice (set_song_queue [("A", "a"); ("B", "b")] default_settings)) = Some o /\
    (failed_attempts (effects o) + submissions (effects o)
       + length (queue_of alice (final o)) = 2)%nat.
Proof.
  destruct (play_next_in_queue_terminates resolve_none 3 alice
              (bot_with alice (set_song_queue [("A", "a"); ("B", "b")] default_settings)))
    as ((o & Hrun & Hcount & _) & _).
  - vm_compute. lia.
  - exists o. split; [exact Hrun | exact Hcount].
Defined.

(** * Further properties of the code *)

Local Open Scope list_scope.

(** ** [remove] and [move] on valid positions *)

Lemma list_insert_valid {A} (j : Z) (x : A) (l : list A) :
  0 <= j <= Z.of_nat (length l) ->
  list_insert j x l = take (Z.to_nat j) l ++ x :: drop (Z.to_nat j) l.
Proof.
  intros Hj. unfold list_insert.
  destruct (Z.ltb_spec j 0) as [?|_]; [lia|].
  by replace (Z.min j (Z.of_nat (length l))) with j by lia.
Qed.

Lemma remove_run ctx b gs position :
  guild_settings b !! guild_id ctx = Some gs ->
  1 <= position <= Z.of_nat (length (song_queue gs)) ->
  exists x, song_queue gs !! Z.to_nat (position - 1) = Some x /\
    music_queue.remove ctx position b =
    Some {| result := Returned tt;
            final := with_settings ctx
                       (set_song_queue (delete (Z.to_nat (position - 1)) (song_queue gs)) gs) b;
            effects := [Send (MsgRemoved (fst x))] |}.
Proof.
  intros H Hp. destruct (list_pop_valid (song_queue gs) position Hp) as (x & Hx & Hpop).
  exists x. split; [exact Hx|].
  unfold music_queue.remove, bind. rewrite (settings_run _ _ _ H). cbn.
  destruct (Z.ltb_spec position 1) as [?|_]; [lia|].
  destruct (Z.gtb_spec position (Z.of_nat (length (song_queue gs)))) as [?|_]; [lia|].
  cbn. rewrite Hpop. cbn. rewrite (clear_and_extend_run _ _ _ _ H). reflexivity.
Qed.

Lemma move_run ctx b gs from_pos to_pos :
  guild_settings b !! guild_id ctx = Some gs ->
  1 <= from_pos <= Z.of_nat (length (song_queue gs)) ->
  1 <= to_pos <= Z.of_nat (length (song_queue gs)) ->
  exists x, song_queue gs !! Z.to_nat (from_pos - 1) = Some x /\
    music_queue.move ctx from_pos to_pos b =
    Some {| result := Returned tt;
            final := with_settings ctx
                       (set_song_queue
                          (take (Z.to_nat (to_pos - 1))
                             (delete (Z.to_nat (from_pos - 1)) (song_queue gs))
                           ++ x :: drop (Z.to_nat (to_pos - 1))
                                     (delete (Z.to_nat (from_pos - 1)) (song_queue gs))) gs) b;
            effects := [Send (MsgMoved (fst x) from_pos to_pos)] |}.
Proof.
  intros H Hf Ht. destruct (list_pop_valid (song_queue gs) from_pos Hf) as (x & Hx & Hpop).
  exists x. split; [exact Hx|].
  unfold music_queue.move, bind. rewrite (settings_run _ _ _ H). cbn.
  destruct (Z.ltb_spec from_pos 1) as [?|_]; [lia|].
  destruct (Z.gtb_spec from_pos (Z.of_nat (length (song_queue gs)))) as [?|_]; [lia|].
  destruct (Z.ltb_spec to_pos 1) as [?|_]; [lia|].
  destruct (Z.gtb_spec to_pos (Z.of_nat (length (song_queue gs)))) as [?|_]; [lia|].
  cbn. rewrite Hpop. cbn. rewrite (clear_and_extend_run _ _ _ _ H). cbn.
  rewrite list_insert_valid; [reflexivity|].
  rewrite length_delete by (rewrite Hx; eauto). lia.
Qed.

(** X1: [remove] at a valid position takes exactly the entry at that position
    out of the queue: the entries before and after it keep their order, the
    queue is one shorter, the message names the removed title, and nothing
    else of the bot changes. *)
Theorem remove_takes_out_entry ctx b gs position :
  guild_settings b !! guild_id ctx = Some gs ->
  1 <= position <= Z.of_nat (length (song_queue gs)) ->
  exists x,
    song_queue gs !! Z.to_nat (position - 1) = Some x /\
    music_queue.remove ctx position b =
    Some {| result := Returned tt;
            final := with_settings ctx
                       (set_song_queue
                          (take (Z.to_nat (position - 1)) (song_queue gs)
                           ++ drop (S (Z.to_nat (position - 1))) (song_queue gs)) gs) b;
            effects := [Send (MsgRemoved (fst x))] |} /\
    S (length (take (Z.to_nat (position - 1)) (song_queue gs)
               ++ drop (S (Z.to_nat (position - 1))) (song_queue gs)))
    = length (song_queue gs).
Proof.
  intros H Hp. destruct (remove_run ctx b gs position H Hp) as (x & Hx & Hrun).
  exists x. split; [exact Hx|]. rewrite Hrun, delete_take_drop. split; [reflexivity|].
  rewrite length_app, length_take, length_drop. lia.
Qed.

Lemma remove_takes_out_entry_witness :
  exists x,
    three_songs !! 1%nat = Some x /\
    queue_of alice <$>
      (final <$> music_queue.remove alice 2
                   (bot_with alice (set_song_queue three_songs default_settings)))
    = Some [("S1", "u1"); ("S3", "u3")].
Proof.
  destruct (remove_takes_out_entry alice
              (bot_with alice (set_song_queue three_songs default_settings))
              (set_song_queue three_songs default_settings) 2) as (x & Hx & Hrun & _).
  - reflexivity.
  - cbn. lia.
  - exists x. split; [exact Hx|]. rewrite Hrun. vm_compute. reflexivity.
Defined.

(** X2: [move] with both positions valid puts the moved song at position
    [to_pos] of the new queue, which has the same length and holds the same
    songs as the old one. *)
Theorem move_puts_song_at_target ctx b gs from_pos to_pos :
  guild_settings b !! guild_id ctx = Some gs ->
  1 <= from_pos <= Z.of_nat (length (song_queue gs)) ->
  1 <= to_pos <= Z.of_nat (length (song_queue gs)) ->
  exists x o,
    song_queue gs !! Z.to_nat (from_pos - 1) = Some x /\
    music_queue.move ctx from_pos to_pos b = Some o /\
    result o = Returned tt /\
    effects o = [Send (MsgMoved (fst x) from_pos to_pos)] /\
    queue_of ctx (final o) !! Z.to_nat (to_pos - 1) = Some x /\
    length (queue_of ctx (final o)) = length (song_queue gs) /\
    queue_of ctx (final o) ≡ₚ song_queue gs.
Proof.
  intros H Hf Ht. destruct (move_run ctx b gs from_pos to_pos H Hf Ht) as (x & Hx & Hrun).
  exists x. eexists. split; [exact Hx|]. split; [exact Hrun|]. cbn.
  split; [reflexivity|]. split; [reflexivity|].
  rewrite (queue_of_settings _ _ _ (with_settings_lookup _ _ _)). cbn.
  assert (Hlen : (Z.to_nat (to_pos - 1) <= length (delete (Z.to_nat (from_pos - 1)) (song_queue gs)))%nat).
  { rewrite length_delete by (rewrite Hx; eauto). lia. }
  set (l' := delete (Z.to_nat (from_pos - 1)) (song_queue gs)) in *.
  set (j := Z.to_nat (to_pos - 1)) in *.
  assert (Hl' : S (length l') = length (song_queue gs)).
  { unfold l'. rewrite length_delete by (rewrite Hx; eauto).
    pose proof (lookup_lt_Some _ _ _ Hx) as Hlt. lia. }
  assert (Htake : length (take j l') = j) by (rewrite length_take; apply Nat.min_l, Hlen).
  split; [|split].
  - apply list_lookup_middle. symmetry. exact Htake.
  - rewrite length_app. cbn [length]. rewrite length_drop.
    pose proof Htake as Htake'. pose proof Hl' as Hl''. unfold Song in *. lia.
  - rewrite <- Permutation_middle, take_drop. symmetry. by apply delete_Permutation.
Qed.

Lemma move_puts_song_at_target_witness :
  exists o,
    music_queue.move alice 1 3
      (bot_with alice (set_song_queue three_songs default_settings)) = Some o /\
    queue_of alice (final o) !! 2%nat = Some ("S1", "u1").
Proof.
  destruct (move_puts_song_at_target alice
              (bot_with alice (set_song_queue three_songs default_settings))
              (set_song_queue three_songs default_settings) 1 3)
    as (x & o & Hx & Hrun & _ & _ & Hat & _).
  - reflexivity.
  - cbn. lia.
  - cbn. lia.
  - exists o. split; [exact Hrun|]. cbn in Hx. injection Hx as <-. exact Hat.
Defined.

(** Putting an element back where it was taken from. *)
Lemma insert_delete_same {A} (l : list A) (i : nat) (x : A) :
  l !! i = Some x ->
  take i (delete i l) ++ x :: drop i (delete i l) = l.
Proof.
  intros Hx. pose proof (lookup_lt_Some _ _ _ Hx) as Hi.
  rewrite delete_take_drop.
  rewrite take_app_length' by (rewrite length_take; lia).
  rewrite drop_app_length' by (rewrite length_take; lia).
  by apply take_drop_middle.
Qed.

(** Taking out the element that was just put in. *)
Lemma delete_insert_same {A} (l : list A) (j : nat) (x : A) :
  (j <= length l)%nat ->
  (take j l ++ x :: drop j l) !! j = Some x /\
  delete j (take j l ++ x :: drop j l) = l.
Proof.
  intros Hj. assert (Ht : length (take j l) = j) by (rewrite length_take; lia).
  split.
  - apply list_lookup_middle. by rewrite Ht.
  - rewrite <- Ht at 1. rewrite delete_middle. apply take_drop.
Qed.

Lemma set_song_queue_twice q q' gs :
  set_song_queue q' (set_song_queue q gs) = set_song_queue q' gs.
Proof. reflexivity. Qed.

(** X3: [move from_pos to_pos] followed by [move to_pos from_pos] gives back
    the bot it started from: both commands succeed and the queue is again
    what it was. *)
Theorem move_there_and_back ctx b gs from_pos to_pos :
  guild_settings b !! guild_id ctx = Some gs ->
  1 <= from_pos <= Z.of_nat (length (song_queue gs)) ->
  1 <= to_pos <= Z.of_nat (length (song_queue gs)) ->
  exists o1 o2,
    music_queue.move ctx from_pos to_pos b = Some o1 /\
    result o1 = Returned tt /\
    music_queue.move ctx to_pos from_pos (final o1) = Some o2 /\
    result o2 = Returned tt /\
    final o2 = b.
Proof.
  intros H Hf Ht.
  destruct (move_run ctx b gs from_pos to_pos H Hf Ht) as (x & Hx & Hrun).
  set (i := Z.to_nat (from_pos - 1)) in *. set (j := Z.to_nat (to_pos - 1)) in *.
  set (l' := delete i (song_queue gs)) in *.
  pose proof (lookup_lt_Some _ _ _ Hx) as Hi.
  assert (Hl' : S (length l') = length (song_queue gs)).
  { unfold l'. rewrite length_delete by (rewrite Hx; eauto). unfold Song in *. lia. }
  assert (Hj : (j <= length l')%nat) by (unfold Song in *; lia).
  destruct (delete_insert_same l' j x Hj) as [Hat Hdel].
  set (gs1 := set_song_queue (take j l' ++ x :: drop j l') gs) in *.
  assert (Hlen1 : length (song_queue gs1) = length (song_queue gs)).
  { cbn. rewrite length_app, length_take. cbn. rewrite length_drop. unfold Song in *. lia. }
  destruct (move_run ctx (with_settings ctx gs1 b) gs1 to_pos from_pos
              (with_settings_lookup _ _ _)) as (y & Hy & Hrun2).
  { rewrite Hlen1. exact Ht. }
  { rewrite Hlen1. exact Hf. }
  change (song_queue gs1) with (take j l' ++ x :: drop j l') in Hy, Hrun2.
  fold i j in Hy, Hrun2.
  rewrite Hat in Hy. injection Hy as <-. rewrite Hdel in Hrun2.
  unfold l' in Hrun2. rewrite (insert_delete_same _ _ _ Hx) in Hrun2.
  rewrite with_settings_twice in Hrun2. unfold gs1 in Hrun2.
  rewrite set_song_queue_twice, set_song_queue_same, (with_settings_same _ _ _ H) in Hrun2.
  eexists _, _. split; [exact Hrun|]. split; [reflexivity|]. cbn [final].
  split; [exact Hrun2|]. split; reflexivity.
Qed.

Lemma move_there_and_back_witness :
  exists o1 o2,
    music_queue.move alice 1 3
      (bot_with alice (set_song_queue three_songs default_settings)) = Some o1 /\
    music_queue.move alice 3 1 (final o1) = Some o2 /\
    final o2 = bot_with alice (set_song_queue three_songs default_settings).
Proof.
  destruct (move_there_and_back alice
              (bot_with alice (set_song_queue three_songs default_settings))
              (set_song_queue three_songs default_settings) 1 3)
    as (o1 & o2 & H1 & _ & H2 & _ & H3).
  - reflexivity.
  - cbn. lia.
  - cbn. lia.
  - exists o1, o2. split; [exact H1|]. split; [exact H2 | exact H3].
Defined.

(** X4: on a valid position [bump] leaves the queue that [move] to position 1
    leaves: the same songs, with the bumped one first. *)
Theorem bump_is_move_to_front ctx b gs position :
  guild_settings b !! guild_id ctx = Some gs ->
  1 <= position <= Z.of_nat (length (song_queue gs)) ->
  exists ob om,
    music_queue.bump ctx position b = Some ob /\
    music_queue.move ctx position 1 b = Some om /\
    final ob = final om /\
    queue_of ctx (final ob) ≡ₚ song_queue gs /\
    queue_of ctx (final ob) !! 0%nat = song_queue gs !! Z.to_nat (position - 1).
Proof.
  intros H Hp.
  destruct (bump_run ctx b gs position H Hp) as (x & Hx & Hb).
  destruct (move_run ctx b gs position 1 H Hp) as (y & Hy & Hm); [lia|].
  rewrite Hx in Hy. injection Hy as <-.
  change (Z.to_nat (1 - 1)) with O in Hm. rewrite take_0, drop_0 in Hm.
  eexists _, _. split; [exact Hb|]. split; [exact Hm|]. cbn [final].
  split; [reflexivity|].
  rewrite (queue_of_settings _ _ _ (with_settings_lookup _ _ _)). cbn.
  split; [|by rewrite Hx]. symmetry. by apply delete_Permutation.
Qed.

Lemma bump_is_move_to_front_witness :
  exists ob om,
    music_queue.bump alice 3
      (bot_with alice (set_song_queue three_songs default_settings)) = Some ob /\
    music_queue.move alice 3 1
      (bot_with alice (set_song_queue three_songs default_settings)) = Some om /\
    final ob = final om.
Proof.
  destruct (bump_is_move_to_front alice
              (bot_with alice (set_song_queue three_songs default_settings))
              (set_song_queue three_songs default_settings) 3)
    as (ob & om & Hb & Hm & Heq & _).
  - reflexivity.
  - cbn. lia.
  - exists ob, om. split; [exact Hb|]. split; [exact Hm | exact Heq].
Defined.

(** ** [skip_to] on valid positions *)








(** ** Volume, loop, pause *)







Lemma with_player_twice ctx p p' b :
  with_player ctx p' (with_player ctx p b) = with_player ctx p' b.
Proof. unfold with_player. cbn. f_equal. apply insert_insert_eq. Qed.

Lemma with_player_same ctx p b :
  voice_clients b !! guild_id ctx = Some p -> with_player ctx p b = b.
Proof.
  intros H. destruct b as [g v a l]. unfold with_player. cbn in *.
  f_equal. by apply insert_id.
Qed.

Lemma pause_run ctx b p :
  voice_clients b !! guild_id ctx = Some (Some p) ->
  paused p = false ->
  music_control.pause ctx b =
  Some {| result := Returned tt;
          final := with_player ctx (Some {| after_ctx := after_ctx p; paused := true |}) b;
          effects := [Send MsgPaused] |}.
Proof.
  intros Hv Hp. unfold music_control.pause, music_control.set_paused, bind.
  rewrite client_is_playing_run. cbn. rewrite Hv. cbn. rewrite Hp. cbn.
  rewrite voice_client_run. cbn. rewrite Hv. reflexivity.
Qed.

Lemma resume_run ctx b p :
  voice_clients b !! guild_id ctx = Some (Some p) ->
  paused p = true ->
  music_control.resume ctx b =
  Some {| result := Returned tt;
          final := with_player ctx (Some {| after_ctx := after_ctx p; paused := false |}) b;
          effects := [Send MsgResumed] |}.
Proof.
  intros Hv Hp. unfold music_control.resume, music_control.set_paused, bind.
  rewrite voice_client_run. cbn. rewrite Hv. cbn. rewrite Hp. cbn.
  rewrite voice_client_run. cbn. rewrite Hv. reflexivity.
Qed.

(** X9: [pause] on a playing track followed by [resume] gives back the bot it
    started from; in between the voice client reports paused, not playing,
    and the guild's settings are untouched. *)
Theorem pause_then_resume ctx b p :
  voice_clients b !! guild_id ctx = Some (Some p) ->
  paused p = false ->
  exists o1 o2,
    music_control.pause ctx b = Some o1 /\
    effects o1 = [Send MsgPaused] /\
    guild_settings (final o1) = guild_settings b /\
    (is_playing <$> voice_clients (final o1) !! guild_id ctx) = Some false /\
    (is_paused <$> voice_clients (final o1) !! guild_id ctx) = Some true /\
    music_control.resume ctx (final o1) = Some o2 /\
    effects o2 = [Send MsgResumed] /\
    final o2 = b.
Proof.
  intros Hv Hp. rewrite (pause_run _ _ _ Hv Hp).
  eexists _, _. split; [reflexivity|]. cbn [effects final].
  assert (Hv1 : voice_clients
                  (with_player ctx (Some {| after_ctx := after_ctx p; paused := true |}) b)
                !! guild_id ctx = Some (Some {| after_ctx := after_ctx p; paused := true |})).
  { apply lookup_insert_eq. }
  rewrite (resume_run _ _ _ Hv1 eq_refl). rewrite Hv1.
  split; [reflexivity|]. split; [reflexivity|]. split; [reflexivity|].
  split; [reflexivity|]. split; [reflexivity|]. split; [reflexivity|].
  cbn. rewrite with_player_twice. apply with_player_same.
  rewrite Hv. destruct p as [c pa]. cbn in *. by rewrite Hp.
Qed.

Lemma pause_then_resume_witness :
  exists o1 o2,
    music_control.pause alice (playing_bot alice default_settings) = Some o1 /\
    music_control.resume alice (final o1) = Some o2 /\
    final o2 = playing_bot alice default_settings.
Proof.
  destruct (pause_then_resume alice (playing_bot alice default_settings)
              {| after_ctx := alice; paused := false |})
    as (o1 & o2 & H1 & _ & _ & _ & _ & H2 & _ & H3).
  - reflexivity.
  - reflexivity.
  - exists o1, o2. split; [exact H1|]. split; [exact H2 | exact H3].
Defined.

(** X10: while the guild's voice client is not playing (there is none, it has
    no player, or the player is paused), [skip], [pause] and [stop] change
    nothing and only report that nothing is playing; so a paused track can
    be neither skipped nor stopped. *)
Theorem not_playing_refused ctx b :
  (match voice_clients b !! guild_id ctx with
   | Some p => is_playing p
   | None => false
   end) = false ->
  music_queue.skip ctx b =
    Some {| result := Returned tt; final := b; effects := [Send MsgNoSongPlaying] |} /\
  music_control.pause ctx b =
    Some {| result := Returned tt; final := b; effects := [Send MsgNoMusic] |} /\
  music_control.stop ctx b =
    Some {| result := Returned tt; final := b; effects := [Send MsgNoMusic] |}.
Proof.
  intros Hidle.
  unfold music_queue.skip, music_control.pause, music_control.stop, bind.
  rewrite client_is_playing_run. cbn. rewrite Hidle. repeat split.
Qed.

(** A guild whose voice client holds a paused player submitted by [ctx]. *)
Lemma not_playing_refused_witness :
  music_control.stop alice
    (with_player alice (Some {| after_ctx := alice; paused := true |})
       (playing_bot alice (looping_settings ("T", "t") three_songs))) =
  Some {| result := Returned tt;
          final := with_player alice (Some {| after_ctx := alice; paused := true |})
                     (playing_bot alice (looping_settings ("T", "t") three_songs));
          effects := [Send MsgNoMusic] |}.
Proof.
  destruct (not_playing_refused alice
              (with_player alice (Some {| after_ctx := alice; paused := true |})
                 (playing_bot alice (looping_settings ("T", "t") three_songs))))
    as (_ & _ & Hstop).
  - reflexivity.
  - exact Hstop.
Defined.

(** ** [stop] and [leave] *)

(** The settings after the three assignments of [stop] and [leave]. *)
Lemma reset_playback_run ctx b gs :
  guild_settings b !! guild_id ctx = Some gs ->
  music_control.reset_playback ctx b =
  Some {| result := Returned tt;
          final := with_settings ctx
                     (set_loop false (set_currently_playing None (set_song_queue [] gs))) b;
          effects := [] |}.
Proof.
  intros H. unfold music_control.reset_playback, bind.
  rewrite (update_settings_run _ _ _ _ H). cbn.
  rewrite (update_settings_run _ _ _ _ (with_settings_lookup _ _ _)). cbn.
  rewrite (update_settings_run _ _ _ _ (with_settings_lookup _ _ _)). cbn.
  by rewrite !with_settings_twice.
Qed.

Lemma stop_run ctx b gs p :
  guild_settings b !! guild_id ctx = Some gs ->
  voice_clients b !! guild_id ctx = Some (Some p) ->
  paused p = false ->
  music_control.stop ctx b =
  Some {| result := Returned tt;
          final := with_settings ctx
                     (set_loop false (set_currently_playing None (set_song_queue [] gs)))
                     (owing (after_ctx p) (with_player ctx None b));
          effects := [Send MsgStopped] |}.
Proof.
  intros H Hv Hp. unfold music_control.stop, bind. rewrite client_is_playing_run. cbn.
  rewrite Hv. cbn. rewrite Hp. cbn.
  rewrite (voice_stop_run _ _ (Some p)) by exact Hv. cbn.
  rewrite (reset_playback_run _ _ gs) by exact H. reflexivity.
Qed.

(** X11: [stop] on a playing track empties the queue, clears the current
    track and the loop flag, keeps the volume, and stops the player.  The
    [after] callback this owes requeues nothing, and the advance it schedules
    finds the queue empty: it submits nothing and the guild stays idle. *)
Theorem stop_stays_stopped extract_info fuel ctx b gs p error :
  guild_settings b !! guild_id ctx = Some gs ->
  voice_clients b !! guild_id ctx = Some (Some p) ->
  paused p = false ->
  guild_id (after_ctx p) = guild_id ctx ->
  exists o1 o2 o3,
    music_control.stop ctx b = Some o1 /\
    effects o1 = [Send MsgStopped] /\
    helpers.after_song (after_ctx p) error (final o1) = Some o2 /\
    helpers.play_next_in_queue extract_info (S fuel) (after_ctx p) (final o2) = Some o3 /\
    result o3 = Returned tt /\
    effects o3 = [Send MsgQueueFinished] /\
    guild_settings (final o3) !! guild_id ctx =
      Some {| volume := volume gs; loop := false; currently_playing := None;
              song_queue := []; replay := replay gs |} /\
    voice_clients (final o3) !! guild_id ctx = Some None.
Proof.
  intros H Hv Hp Hg. rewrite (stop_run _ _ _ _ H Hv Hp).
  set (gs1 := set_loop false (set_currently_playing None (set_song_queue [] gs))).
  set (b1 := with_settings ctx gs1 (owing (after_ctx p) (with_player ctx None b))).
  assert (Hl : guild_settings b1 !! guild_id (after_ctx p) = Some gs1).
  { rewrite Hg. apply with_settings_lookup. }
  eexists _, _, _. split; [reflexivity|]. cbn [effects final].
  rewrite (after_song_run _ _ _ _ Hl).
  split; [reflexivity|]. split; [reflexivity|]. cbn [final].
  change (requeued (after_ctx p) gs1 b1) with b1.
  assert (Hl2 : guild_settings (scheduling (after_ctx p) b1) !! guild_id (after_ctx p)
                = Some gs1) by exact Hl.
  rewrite (play_next_in_queue_empty extract_info fuel _ _ gs1 Hl2 eq_refl).
  split; [reflexivity|]. split; [reflexivity|]. split; [reflexivity|]. cbn [final].
  unfold with_settings, scheduling, b1, with_settings. cbn. rewrite Hg.
  split; [apply lookup_insert_eq|]. apply lookup_insert_eq.
Qed.

Lemma stop_stays_stopped_witness :
  exists o1 o2 o3,
    music_control.stop alice (playing_bot alice (looping_settings ("T", "t") three_songs))
      = Some o1 /\
    helpers.after_song alice None (final o1) = Some o2 /\
    helpers.play_next_in_queue resolve_all 1 alice (final o2) = Some o3 /\
    effects o3 = [Send MsgQueueFinished].
Proof.
  destruct (stop_stays_stopped resolve_all 0 alice
              (playing_bot alice (looping_settings ("T", "t") three_songs))
              (looping_settings ("T", "t") three_songs)
              {| after_ctx := alice; paused := false |} None)
    as (o1 & o2 & o3 & H1 & _ & H2 & H3 & _ & H4 & _).
  - reflexivity.
  - reflexivity.
  - reflexivity.
  - reflexivity.
  - exists o1, o2, o3. split; [exact H1|]. split; [exact H2|]. split; [exact H3 | exact H4].
Defined.

(** The bot without the voice client of [ctx]'s guild. *)
Lemma leave_run ctx b vc :
  voice_clients b !! guild_id ctx = Some vc ->
  is_playing vc = false ->
  music_control.leave ctx b =
  Some {| result := Returned tt;
          final := match vc with
                   | Some p =>
                       owing (after_ctx p)
                         {| guild_settings := guild_settings b;
                            voice_clients := delete (guild_id ctx) (voice_clients b);
                            after_owed := after_owed b;
                            loop_tasks := loop_tasks b |}
                   | None =>
                       {| guild_settings := guild_settings b;
                          voice_clients := delete (guild_id ctx) (voice_clients b);
                          after_owed := after_owed b;
                          loop_tasks := loop_tasks b |}
                   end;
          effects := [Send MsgGoodbye] |}.
Proof.
  intros Hv Hidle. unfold music_control.leave, disconnect, bind.
  rewrite voice_client_run. cbn. rewrite Hv, Hidle. cbn.
  rewrite voice_client_run. cbn. rewrite Hv.
  destruct vc; reflexivity.
Qed.

(** X12: [leave] on a guild whose voice client is not playing (idle or
    paused) disconnects it and touches nothing else: the queue, the current
    track and the loop flag survive the disconnect, and a paused player's
    [after] callback is owed. *)
Theorem leave_when_not_playing ctx b vc :
  voice_clients b !! guild_id ctx = Some vc ->
  is_playing vc = false ->
  exists o,
    music_control.leave ctx b = Some o /\
    result o = Returned tt /\
    effects o = [Send MsgGoodbye] /\
    voice_clients (final o) !! guild_id ctx = None /\
    guild_settings (final o) = guild_settings b /\
    after_owed (final o) =
      after_owed b ++ match vc with Some p => [after_ctx p] | None => [] end.
Proof.
  intros Hv Hidle. rewrite (leave_run _ _ _ Hv Hidle).
  eexists. split; [reflexivity|]. cbn [result effects final].
  split; [reflexivity|]. split; [reflexivity|].
  destruct vc as [p|]; cbn.
  - split; [apply lookup_delete_eq|]. split; reflexivity.
  - split; [apply lookup_delete_eq|]. split; [reflexivity|]. by rewrite app_nil_r.
Qed.

Lemma leave_when_not_playing_witness :
  exists o,
    music_control.leave alice
      (with_player alice (Some {| after_ctx := alice; paused := true |})
         (playing_bot alice (looping_settings ("T", "t") three_songs))) = Some o /\
    voice_clients (final o) !! guild_id alice = None /\
    queue_of alice (final o) = three_songs /\
    current_of alice (final o) = Some ("T", "t").
Proof.
  destruct (leave_when_not_playing alice
              (with_player alice (Some {| after_ctx := alice; paused := true |})
                 (playing_bot alice (looping_settings ("T", "t") three_songs)))
              (Some {| after_ctx := alice; paused := true |}))
    as (o & Hrun & _ & _ & Hvc & Hgs & _).
  - reflexivity.
  - reflexivity.
  - exists o. split; [exact Hrun|]. split; [exact Hvc|].
    unfold queue_of, current_of. rewrite Hgs. split; reflexivity.
Defined.

Lemma leave_playing_run ctx b gs p :
  guild_settings b !! guild_id ctx = Some gs ->
  voice_clients b !! guild_id ctx = Some (Some p) ->
  paused p = false ->
  music_control.leave ctx b =
  Some {| result := Returned tt;
          final := {| guild_settings :=
                        <[guild_id ctx :=
                            set_loop false
                              (set_currently_playing None (set_song_queue [] gs))]>
                          (guild_settings b);
                      voice_clients := delete (guild_id ctx) (voice_clients b);
                      after_owed := after_owed b ++ [after_ctx p];
                      loop_tasks := loop_tasks b |};
          effects := [Send MsgGoodbye] |}.
Proof.
  intros H Hv Hp. unfold music_control.leave, disconnect, bind.
  rewrite voice_client_run. cbn. rewrite Hv. cbn. rewrite Hp. cbn.
  rewrite (voice_stop_run _ _ (Some p)) by exact Hv. cbn.
  rewrite (reset_playback_run _ _ gs) by exact H. cbn.
  rewrite voice_client_run. unfold with_settings. cbn. rewrite lookup_insert_eq. cbn.
  by rewrite delete_insert_eq.
Qed.

(** X13: [leave] while a track plays stops it, empties the queue, clears the
    current track and the loop flag, and removes the guild's voice client;
    exactly one [after] callback is owed for the stopped player. *)
Theorem leave_while_playing ctx b gs p :
  guild_settings b !! guild_id ctx = Some gs ->
  voice_clients b !! guild_id ctx = Some (Some p) ->
  paused p = false ->
  exists o,
    music_control.leave ctx b = Some o /\
    result o = Returned tt /\
    effects o = [Send MsgGoodbye] /\
    voice_clients (final o) !! guild_id ctx = None /\
    guild_settings (final o) !! guild_id ctx =
      Some {| volume := volume gs; loop := false; currently_playing := None;
              song_queue := []; replay := replay gs |} /\
    after_owed (final o) = after_owed b ++ [after_ctx p].
Proof.
  intros H Hv Hp. rewrite (leave_playing_run _ _ _ _ H Hv Hp).
  eexists. split; [reflexivity|]. cbn.
  split; [reflexivity|]. split; [reflexivity|].
  split; [apply lookup_delete_eq|]. split; [apply lookup_insert_eq | reflexivity].
Qed.

Lemma leave_while_playing_witness :
  exists o,
    music_control.leave alice (playing_bot alice (looping_settings ("T", "t") three_songs))
      = Some o /\
    voice_clients (final o) !! guild_id alice = None /\
    queue_of alice (final o) = [].
Proof.
  destruct (leave_while_playing alice
              (playing_bot alice (looping_settings ("T", "t") three_songs))
              (looping_settings ("T", "t") three_songs)
              {| after_ctx := alice; paused := false |})
    as (o & Hrun & _ & _ & Hvc & Hgs & _).
  - reflexivity.
  - reflexivity.
  - reflexivity.
  - exists o. split; [exact Hrun|]. split; [exact Hvc|].
    unfold queue_of. by rewrite Hgs.
Defined.

(** ** [play] *)






(** ** Advancing: the first entry that resolves *)

Lemma after_effects_some es (o : Outcome unit) :
  after_effects es (Some o) =
  Some {| result := result o; final := final o; effects := es ++ effects o |}.
Proof. reflexivity. Qed.

(** X16: with a voice client, [play_next_in_queue] drops the entries at the
    front of the queue whose locator does not resolve, one logged and
    reported failure each, and starts the first entry that resolves; the
    queue keeps exactly the entries behind that one. *)
Theorem advance_plays_first_resolvable extract_info fuel ctx (bad : list Song) :
  forall b gs (s : Song) rest vc info audio_url,
  guild_settings b !! guild_id ctx = Some gs ->
  song_queue gs = bad ++ s :: rest ->
  Forall (fun t => is_Some (resolve_error extract_info (snd t))) bad ->
  voice_clients b !! guild_id ctx = Some vc ->
  extract_info (snd s) = Some info ->
  info_url info = Some audio_url ->
  exists o,
    helpers.play_next_in_queue extract_info (S (length bad + fuel)) ctx b = Some o /\
    result o = Returned tt /\
    current_of ctx (final o) = Some (helpers.info_get_title info (fst s), snd s) /\
    queue_of ctx (final o) = rest /\
    failed_attempts (effects o) = length bad /\
    submissions (effects o) = 1%nat.
Proof.
  induction bad as [|t bad IH]; intros b gs s rest vc info audio_url H Hq Hbad Hv Hx Hu.
  - cbn in Hq. cbn [length Nat.add].
    rewrite (play_next_in_queue_starts _ _ _ _ _ _ _ _ _ _ H Hq Hv Hx Hu).
    eexists. split; [reflexivity|]. cbn [result effects final].
    match goal with
    | |- context [current_of ctx ?b'] =>
        assert (Hf : guild_settings b' !! guild_id ctx =
                     Some (set_currently_playing
                             (Some (helpers.info_get_title info (fst s), snd s))
                             (set_song_queue rest gs)))
    end.
    { rewrite started_stopped_settings. apply with_settings_lookup. }
    rewrite (current_of_settings _ _ _ Hf), (queue_of_settings _ _ _ Hf).
    repeat split.
  - cbn in Hq. apply Forall_cons in Hbad. destruct Hbad as [[e He] Hbad].
    cbn [length Nat.add].
    rewrite (play_next_in_queue_skips _ _ _ _ _ _ _ _ H Hq He).
    destruct (IH (with_settings ctx (set_song_queue (bad ++ s :: rest) gs) b)
                (set_song_queue (bad ++ s :: rest) gs) s rest vc info audio_url
                (with_settings_lookup _ _ _) eq_refl Hbad Hv Hx Hu)
      as (o & Hrun & Hres & Hcur & Hqueue & Hfail & Hsub).
    rewrite Hrun, after_effects_some.
    eexists. split; [reflexivity|]. cbn [result effects final].
    rewrite failed_attempts_app, submissions_app.
    unfold failed_attempts at 1, submissions at 1. cbn.
    repeat split; try assumption; lia.
Qed.

Lemma advance_plays_first_resolvable_witness :
  exists o,
    helpers.play_next_in_queue bad_then_good 2 alice
      (bot_with alice (set_song_queue [("A", "a"); ("B", "b"); ("C", "c")] default_settings))
      = Some o /\
    current_of alice (final o) = Some ("B", "b") /\
    queue_of alice (final o) = [("C", "c")] /\
    failed_attempts (effects o) = 1%nat.
Proof.
  destruct (advance_plays_first_resolvable bad_then_good 0 alice [("A", "a")]
              (bot_with alice
                 (set_song_queue [("A", "a"); ("B", "b"); ("C", "c")] default_settings))
              (set_song_queue [("A", "a"); ("B", "b"); ("C", "c")] default_settings)
              ("B", "b") [("C", "c")] None
              {| info_url := Some "stream-b"; info_title := Some "B" |} "stream-b")
    as (o & Hrun & _ & Hcur & Hq & Hfail & _).
  - reflexivity.
  - reflexivity.
  - repeat constructor. by exists DownloadError.
  - reflexivity.
  - reflexivity.
  - reflexivity.
  - exists o. split; [exact Hrun|]. split; [exact Hcur|]. split; [exact Hq | exact Hfail].
Defined.

(** Without a voice client no attempt gets as far as submitting. *)
Lemma advance_disconnected extract_info fuel : forall ctx b,
  voice_clients b !! guild_id ctx = None ->
  (length (queue_of ctx b) < fuel)%nat ->
  exists o,
    helpers.play_next_in_queue extract_info fuel ctx b = Some o /\
    submissions (effects o) = O /\
    voice_clients (final o) = voice_clients b.
Proof.
  induction fuel as [|fuel IH]; intros ctx b Hv Hlen; [lia|].
  destruct (guild_settings b !! guild_id ctx) as [gs|] eqn:H.
  2:{ eexists. rewrite (play_next_in_queue_absent _ _ _ _ H). by repeat split. }
  rewrite (queue_of_settings _ _ _ H) in Hlen.
  destruct (song_queue gs) as [|s rest] eqn:Hq.
  { eexists. rewrite (play_next_in_queue_empty _ _ _ _ _ H Hq). by repeat split. }
  rewrite (play_next_in_queue_pop _ _ _ _ _ _ _ H Hq). unfold try_except.
  set (b1 := with_settings ctx (set_song_queue rest gs) b).
  assert (H1 : guild_settings b1 !! guild_id ctx = Some (set_song_queue rest gs))
    by apply with_settings_lookup.
  assert (Hgo : forall e b2,
             voice_clients b2 = voice_clients b ->
             queue_of ctx b2 = rest ->
             exists o,
               (emit (LogError e) >> helpers.send_and_delete MsgPlayError >>
                helpers.play_next_in_queue extract_info fuel ctx) b2 = Some o /\
               submissions (effects o) = O /\
               voice_clients (final o) = voice_clients b).
  { intros e b2 Hvb Hqb.
    destruct (IH ctx b2) as (o & Ho & Hsub & Hvo).
    { by rewrite Hvb. }
    { rewrite Hqb. cbn in Hlen. lia. }
    unfold bind, emit, helpers.send_and_delete. cbn. rewrite Ho. cbn.
    eexists. split; [reflexivity|]. cbn. rewrite !submissions_cons. cbn.
    split; [exact Hsub|]. by rewrite Hvo. }
  destruct (extract_info (snd s)) as [info|] eqn:Hx.
  2:{ rewrite (attempt_download_error _ _ _ _ Hx). cbn [result final effects].
      destruct (Hgo DownloadError b1 eq_refl (queue_of_settings _ _ _ H1))
        as (o & Ho & Hsub & Hvo).
      rewrite Ho. eexists. split; [reflexivity|]. by split. }
  destruct (info_url info) as [audio_url|] eqn:Hu.
  2:{ rewrite (attempt_no_url _ _ _ _ _ Hx Hu). cbn [result final effects].
      destruct (Hgo KeyError b1 eq_refl (queue_of_settings _ _ _ H1))
        as (o & Ho & Hsub & Hvo).
      rewrite Ho. eexists. split; [reflexivity|]. by split. }
  rewrite (attempt_disconnected _ _ _ _ _ _ _ H1 Hv Hx Hu). cbn [result final effects].
  match goal with
  | |- context [bind _ _ ?b2] =>
      destruct (Hgo AttributeError b2 eq_refl) as (o & Ho & Hsub & Hvo)
  end.
  { apply (queue_of_settings _ _ (set_currently_playing
                                    (Some (helpers.info_get_title info (fst s), snd s))
                                    (set_song_queue rest gs))).
    apply with_settings_lookup. }
  rewrite Ho. eexists. split; [reflexivity|]. cbn. rewrite submissions_cons. cbn.
  split; [exact Hsub | exact Hvo].
Qed.

(** X17: in a guild without a voice client [play_next_in_queue] pops every
    entry of the queue, resolvable or not, reports each as an error, submits
    nothing, and ends with an empty queue and no current track. *)
Theorem advance_without_voice_client_drains extract_info fuel ctx b gs :
  guild_settings b !! guild_id ctx = Some gs ->
  voice_clients b !! guild_id ctx = None ->
  (length (song_queue gs) < fuel)%nat ->
  exists o,
    helpers.play_next_in_queue extract_info fuel ctx b = Some o /\
    result o = Returned tt /\
    submissions (effects o) = O /\
    failed_attempts (effects o) = length (song_queue gs) /\
    queue_of ctx (final o) = [] /\
    current_of ctx (final o) = None.
Proof.
  intros H Hv Hlen.
  destruct (advance_disconnected extract_info fuel ctx b Hv) as (o & Ho & Hsub & _).
  { by rewrite (queue_of_settings _ _ _ H). }
  destruct (advance_outcome extract_info fuel ctx b) as (o' & Ho' & Hcount & _ & Hidle).
  { by rewrite (queue_of_settings _ _ _ H). }
  rewrite Ho in Ho'. injection Ho' as <-.
  destruct (Hidle (ex_intro _ gs H)) as (Hres & _ & Hnone).
  destruct (Hnone Hsub) as [Hcur Hqueue].
  exists o. split; [exact Ho|]. split; [exact Hres|]. split; [exact Hsub|].
  rewrite (queue_of_settings _ _ _ H), Hsub, Hqueue in Hcount. cbn in Hcount.
  repeat split; try assumption. lia.
Qed.

Lemma advance_without_voice_client_drains_witness :
  exists o,
    helpers.play_next_in_queue resolve_all 4 alice
      {| guild_settings := {[ 7 := set_song_queue three_songs default_settings ]};
         voice_clients := ∅; after_owed := []; loop_tasks := [] |} = Some o /\
    failed_attempts (effects o) = 3%nat /\
    queue_of alice (final o) = [].
Proof.
  destruct (advance_without_voice_client_drains resolve_all 4 alice
              {| guild_settings := {[ 7 := set_song_queue three_songs default_settings ]};
                 voice_clients := ∅; after_owed := []; loop_tasks := [] |}
              (set_song_queue three_songs default_settings))
    as (o & Hrun & _ & _ & Hfail & Hq & _).
  - reflexivity.
  - reflexivity.
  - cbn. lia.
  - exists o. split; [exact Hrun|]. split; [exact Hfail | exact Hq].
Defined.

(** ** [add] and [replay] *)

Arguments helpers.play_next_in_queue : simpl never.


(** X18: [add] while a track plays puts [(title, url)] at the front of the
    queue ("Unknown Title" when the metadata has no title) and changes
    nothing else: the current track and the player are untouched. *)
Theorem add_while_playing extract_info fuel ctx url b gs p info :
  guild_settings b !! guild_id ctx = Some gs ->
  voice_clients b !! guild_id ctx = Some (Some p) ->
  paused p = false ->
  extract_info url = Some info ->
  music_queue.add extract_info fuel ctx url b =
  Some {| result := Returned tt;
          final := with_settings ctx
                     (set_song_queue
                        ((helpers.info_get_title info "Unknown Title", url) :: song_queue gs)
                        gs) b;
          effects := [Send MsgAddingSong;
                      Send (MsgAddedNext (helpers.info_get_title info "Unknown Title"))] |}.
Proof.
  intros H Hv Hp Hx. unfold music_queue.add, bind.
  rewrite (join_author_channel_run ctx _ b) by (left; eauto). cbn.
  assert (Hj : joined ctx b = b) by (unfold joined; by rewrite Hv).
  rewrite Hj. unfold try_except, bind, helpers.extractor. rewrite Hx. cbn.
  rewrite (appendleft_run _ _ _ _ H). cbn.
  rewrite client_is_playing_run. cbn. rewrite with_settings_voice, Hv. cbn.
  rewrite Hp. reflexivity.
Qed.

Lemma add_while_playing_witness :
  queue_of alice <$>
    (final <$> music_queue.add resolve_all 1 alice "u"
                 (playing_bot alice (looping_settings ("T", "t") three_songs)))
  = Some (("Unknown Title", "u") :: three_songs).
Proof.
  rewrite (add_while_playing resolve_all 1 alice "u"
             (playing_bot alice (looping_settings ("T", "t") three_songs))
             (looping_settings ("T", "t") three_songs)
             {| after_ctx := alice; paused := false |}
             {| info_url := Some "stream:u"; info_title := None |});
    reflexivity.
Defined.



Lemma set_currently_playing_same gs :
  set_currently_playing (currently_playing gs) gs = gs.
Proof. by destruct gs. Qed.

(** X20: [replay] with [loop] off, followed by the [after] callback it owes
    and the advance that callback schedules, submits the current track again
    and restores the guild's settings: same queue, same current track (when
    the resolver reports the track's title or none). *)
Theorem replay_restarts_current extract_info fuel ctx b gs p (T : Song) info audio_url error :
  guild_settings b !! guild_id ctx = Some gs ->
  voice_clients b !! guild_id ctx = Some (Some p) ->
  paused p = false ->
  guild_id (after_ctx p) = guild_id ctx ->
  loop gs = false ->
  currently_playing gs = Some T ->
  extract_info (snd T) = Some info ->
  info_url info = Some audio_url ->
  exists o1 o2 o3,
    music_main.replay ctx b = Some o1 /\
    helpers.after_song (after_ctx p) error (final o1) = Some o2 /\
    helpers.play_next_in_queue extract_info (S fuel) (after_ctx p) (final o2) = Some o3 /\
    result o3 = Returned tt /\
    effects o3 = [Send (MsgNowPlaying (helpers.info_get_title info (fst T)));
                  Submit audio_url (volume gs)] /\
    current_of ctx (final o3) = Some (helpers.info_get_title info (fst T), snd T) /\
    queue_of ctx (final o3) = song_queue gs /\
    (keeps_title info T -> guild_settings (final o3) !! guild_id ctx = Some gs) /\
    (is_playing <$> voice_clients (final o3) !! guild_id ctx) = Some true.
Proof.
  intros H Hv Hp Hg Hloop Hcur Hx Hu.
  rewrite (replay_run _ _ _ _ _ H Hv Hp Hcur).
  set (gs1 := set_song_queue (T :: song_queue gs) gs).
  set (b1 := owing (after_ctx p) (with_player ctx None (with_settings ctx gs1 b))).
  assert (Hl1 : guild_settings b1 !! guild_id (after_ctx p) = Some gs1).
  { rewrite Hg. apply with_settings_lookup. }
  eexists _, _, _. split; [reflexivity|]. cbn [final].
  rewrite (after_song_run _ _ _ _ Hl1). split; [reflexivity|]. cbn [final].
  assert (Hreq : requeued (after_ctx p) gs1 b1 = b1).
  { unfold requeued. cbn. by rewrite Hloop. }
  rewrite Hreq.
  assert (Hl2 : guild_settings (scheduling (after_ctx p) b1) !! guild_id (after_ctx p)
                = Some gs1) by exact Hl1.
  assert (Hv2 : voice_clients (scheduling (after_ctx p) b1) !! guild_id (after_ctx p)
                = Some None).
  { rewrite Hg. apply lookup_insert_eq. }
  rewrite (play_next_in_queue_starts extract_info fuel (after_ctx p) _ gs1 T (song_queue gs)
             None info audio_url Hl2 eq_refl Hv2 Hx Hu).
  split; [reflexivity|]. cbn [result effects final volume gs1 set_song_queue].
  split; [reflexivity|]. split; [reflexivity|].
  match goal with
  | |- context [current_of ctx ?b'] =>
      assert (Hf : guild_settings b' !! guild_id ctx =
                   Some (set_currently_playing
                           (Some (helpers.info_get_title info (fst T), snd T))
                           (set_song_queue (song_queue gs) gs1)))
  end.
  { rewrite started_stopped_settings. rewrite <- Hg. apply with_settings_lookup. }
  rewrite (current_of_settings _ _ _ Hf), (queue_of_settings _ _ _ Hf), Hf.
  split; [reflexivity|]. split; [reflexivity|]. split.
  - intros Hk. rewrite (info_get_title_keeps _ _ Hk). f_equal.
    change (set_song_queue (song_queue gs) gs1) with (set_song_queue (song_queue gs) gs).
    rewrite set_song_queue_same.
    transitivity (set_currently_playing (currently_playing gs) gs);
      [by rewrite Hcur | apply set_currently_playing_same].
  - unfold started. cbn. rewrite <- Hg. by rewrite lookup_insert_eq.
Qed.

Lemma replay_restarts_current_witness :
  exists o1 o2 o3,
    music_main.replay alice
      (playing_bot alice (set_currently_playing (Some ("T", "t"))
                            (set_song_queue three_songs default_settings))) = Some o1 /\
    helpers.after_song alice None (final o1) = Some o2 /\
    helpers.play_next_in_queue resolve_all 1 alice (final o2) = Some o3 /\
    current_of alice (final o3) = Some ("T", "t") /\
    queue_of alice (final o3) = three_songs.
Proof.
  destruct (replay_restarts_current resolve_all 0 alice
              (playing_bot alice (set_currently_playing (Some ("T", "t"))
                                    (set_song_queue three_songs default_settings)))
              (set_currently_playing (Some ("T", "t"))
                 (set_song_queue three_songs default_settings))
              {| after_ctx := alice; paused := false |} ("T", "t")
              {| info_url := Some "stream:t"; info_title := None |} "stream:t" None)
    as (o1 & o2 & o3 & H1 & H2 & H3 & _ & _ & Hcur & Hq & _).
  - reflexivity.
  - reflexivity.
  - reflexivity.
  - reflexivity.
  - reflexivity.
  - reflexivity.
  - reflexivity.
  - reflexivity.
  - exists o1, o2, o3. split; [exact H1|]. split; [exact H2|]. split; [exact H3|].
    split; [exact Hcur | exact Hq].
Defined.

(** ** What every command preserves *)

Section Preservation.
Variable I : Bot -> Prop.
Variable g : Z.

(** [I] is stable under the updates a command of guild [g] makes. *)
Hypothesis I_settings : forall ctx gs b,
  guild_id ctx = g -> I b -> I (with_settings ctx gs b).
Hypothesis I_owing : forall c b, I b -> I (owing c b).
Hypothesis I_scheduling : forall c b, I b -> I (scheduling c b).
Hypothesis I_no_player : forall ctx b,
  guild_id ctx = g -> I b -> I (with_player ctx None b).
Hypothesis I_start : forall ctx b,
  guild_id ctx = g -> I b ->
  I (with_player ctx (Some {| after_ctx := ctx; paused := false |}) b).
Hypothesis I_pause : forall ctx b p flag,
  guild_id ctx = g -> I b ->
  voice_clients b !! guild_id ctx = Some (Some p) ->
  I (with_player ctx (Some {| after_ctx := after_ctx p; paused := flag |}) b).
Hypothesis I_disconnect : forall ctx b,
  guild_id ctx = g -> I b -> I (without_voice_client ctx b).

Lemma preserves_ret {A} (a : A) : preserves I (ret a).
Proof. intros b o HI Hrun. unfold ret in Hrun. by simplify_eq. Qed.

Lemma preserves_raise {A} (e : Exn) : preserves I (@raise A e).
Proof. intros b o HI Hrun. unfold raise in Hrun. by simplify_eq. Qed.

Lemma preserves_emit (e : Effect) : preserves I (emit e).
Proof. intros b o HI Hrun. unfold emit in Hrun. by simplify_eq. Qed.

Lemma preserves_get_bot : preserves I get_bot.
Proof. intros b o HI Hrun. unfold get_bot in Hrun. by simplify_eq. Qed.

Lemma preserves_bind {A B} (m : M A) (k : A -> M B) :
  preserves I m -> (forall a, preserves I (k a)) -> preserves I (bind m k).
Proof.
  intros Hm Hk b o HI Hrun. unfold bind in Hrun.
  destruct (m b) as [om|] eqn:Hmb; [|discriminate].
  pose proof (Hm _ _ HI Hmb) as HI'.
  destruct (result om) as [a|e].
  - destruct (k a (final om)) as [ok|] eqn:Hkb; [|discriminate].
    simplify_eq. cbn. by apply (Hk a _ _ HI' Hkb).
  - by simplify_eq.
Qed.

Lemma preserves_try_except {A} (m : M A) (handler : Exn -> M A) :
  preserves I m -> (forall e, preserves I (handler e)) -> preserves I (try_except m handler).
Proof.
  intros Hm Hh b o HI Hrun. unfold try_except in Hrun.
  destruct (m b) as [om|] eqn:Hmb; [|discriminate].
  pose proof (Hm _ _ HI Hmb) as HI'.
  destruct (result om) as [a|e].
  - by simplify_eq.
  - destruct (handler e (final om)) as [oh|] eqn:Hhb; [|discriminate].
    simplify_eq. cbn. by apply (Hh e _ _ HI' Hhb).
Qed.

Lemma preserves_for_range (body : M unit) n :
  preserves I body -> preserves I (for_range n body).
Proof.
  intros Hb. induction n as [|n IH]; cbn [for_range].
  - apply preserves_ret.
  - apply preserves_bind; [exact Hb | intros _; exact IH].
Qed.

Lemma preserves_lift_result {A} (r : Result A) : preserves I (lift_result r).
Proof. destruct r; [apply preserves_ret | apply preserves_raise]. Qed.

Lemma preserves_settings ctx : preserves I (settings ctx).
Proof.
  intros b o HI Hrun. unfold settings, bind, get_bot in Hrun. cbn in Hrun.
  destruct (guild_settings b !! guild_id ctx); cbn in Hrun; by simplify_eq.
Qed.

Lemma preserves_voice_client ctx : preserves I (voice_client ctx).
Proof. intros b o HI Hrun. rewrite voice_client_run in Hrun. by simplify_eq. Qed.

Lemma preserves_client_is_playing ctx : preserves I (client_is_playing ctx).
Proof. intros b o HI Hrun. rewrite client_is_playing_run in Hrun. by simplify_eq. Qed.

Lemma preserves_owe_after c : preserves I (owe_after c).
Proof. intros b o HI Hrun. unfold owe_after, bind in Hrun. cbn in Hrun. simplify_eq. by apply I_owing. Qed.

Lemma preserves_run_coroutine_threadsafe c :
  preserves I (helpers.run_coroutine_threadsafe c).
Proof.
  intros b o HI Hrun. unfold helpers.run_coroutine_threadsafe, bind in Hrun. cbn in Hrun.
  simplify_eq. by apply I_scheduling.
Qed.

Section OneGuild.
Variable ctx : Context.
Hypothesis Hctx : guild_id ctx = g.

Lemma preserves_update_settings f : preserves I (update_settings ctx f).
Proof.
  intros b o HI Hrun. unfold update_settings, bind in Hrun.
  destruct (settings ctx b) as [os|] eqn:Hs; [|discriminate].
  pose proof (preserves_settings ctx _ _ HI Hs) as HI'.
  destruct (result os); cbn in Hrun; simplify_eq; [|done]. cbn. by apply I_settings.
Qed.

Lemma preserves_ensure_guild_settings : preserves I (helpers.ensure_guild_settings ctx).
Proof.
  intros b o HI Hrun. rewrite ensure_guild_settings_run in Hrun. simplify_eq. cbn.
  unfold ensured. destruct (guild_settings b !! guild_id ctx); [done|]. by apply I_settings.
Qed.

Lemma preserves_popleft : preserves I (popleft ctx).
Proof.
  unfold popleft. apply preserves_bind; [apply preserves_settings|]. intros gs.
  destruct (song_queue gs); [apply preserves_raise|].
  apply preserves_bind; [apply preserves_update_settings | intros _; apply preserves_ret].
Qed.

Lemma preserves_appendleft s : preserves I (appendleft ctx s).
Proof.
  unfold appendleft. apply preserves_bind; [apply preserves_settings|]. intros gs.
  apply preserves_update_settings.
Qed.

Lemma preserves_clear_and_extend l : preserves I (music_queue.clear_and_extend ctx l).
Proof.
  unfold music_queue.clear_and_extend.
  apply preserves_bind; [apply preserves_update_settings | intros _].
  apply preserves_bind; [apply preserves_settings | intros gs].
  apply preserves_update_settings.
Qed.

Lemma preserves_voice_stop : preserves I (voice_stop ctx).
Proof.
  intros b o HI Hrun. unfold voice_stop, bind in Hrun. rewrite voice_client_run in Hrun.
  cbn in Hrun. destruct (voice_clients b !! guild_id ctx) as [[p|]|]; cbn in Hrun;
    simplify_eq; cbn; [|done|done].
  apply I_owing. by apply I_no_player.
Qed.

Lemma preserves_voice_play audio_url vol : preserves I (voice_play ctx audio_url vol).
Proof.
  intros b o HI Hrun. unfold voice_play, bind in Hrun. rewrite voice_client_run in Hrun.
  cbn in Hrun. destruct (voice_clients b !! guild_id ctx) as [vc|]; cbn in Hrun;
    [|by simplify_eq].
  destruct (is_playing vc); cbn in Hrun; simplify_eq; [done|]. cbn. by apply I_start.
Qed.

Lemma preserves_connect : preserves I (connect ctx).
Proof.
  intros b o HI Hrun. unfold connect, put_player, bind in Hrun. cbn in Hrun.
  simplify_eq. by apply I_no_player.
Qed.

Lemma preserves_disconnect : preserves I (disconnect ctx).
Proof.
  intros b o HI Hrun. unfold disconnect, bind in Hrun. rewrite voice_client_run in Hrun.
  cbn in Hrun.
  pose proof (I_disconnect ctx b Hctx HI) as Hd. unfold without_voice_client in Hd.
  destruct (voice_clients b !! guild_id ctx) as [[p|]|]; cbn in Hrun; simplify_eq; cbn;
    [|done|done].
  by apply I_owing.
Qed.

Lemma preserves_set_paused flag : preserves I (music_control.set_paused ctx flag).
Proof.
  intros b o HI Hrun. unfold music_control.set_paused, bind in Hrun.
  rewrite voice_client_run in Hrun. cbn in Hrun.
  destruct (voice_clients b !! guild_id ctx) as [[p|]|] eqn:Hv; cbn in Hrun;
    simplify_eq; cbn; [|done|done].
  by apply I_pause.
Qed.

Lemma preserves_join_author_channel refusal :
  preserves I (helpers.join_author_channel ctx refusal).
Proof.
  unfold helpers.join_author_channel.
  apply preserves_bind; [apply preserves_voice_client | intros [vc|]].
  - apply preserves_ret.
  - destruct (author_voice ctx).
    + apply preserves_bind; [apply preserves_connect | intros _; apply preserves_ret].
    + apply preserves_bind; [apply preserves_emit | intros _; apply preserves_ret].
Qed.

Lemma preserves_reset_playback : preserves I (music_control.reset_playback ctx).
Proof.
  unfold music_control.reset_playback.
  repeat (apply preserves_bind; [apply preserves_update_settings | intros _]).
  apply preserves_update_settings.
Qed.

Ltac preserve :=
  repeat first
    [ apply preserves_ret | apply preserves_raise | apply preserves_emit
    | apply preserves_get_bot | apply preserves_settings
    | apply preserves_voice_client | apply preserves_client_is_playing
    | apply preserves_update_settings | apply preserves_ensure_guild_settings
    | apply preserves_popleft | apply preserves_appendleft
    | apply preserves_clear_and_extend | apply preserves_voice_stop
    | apply preserves_voice_play | apply preserves_connect | apply preserves_disconnect
    | apply preserves_set_paused | apply preserves_join_author_channel
    | apply preserves_reset_playback | apply preserves_lift_result
    | apply preserves_owe_after | apply preserves_run_coroutine_threadsafe
    | apply preserves_for_range
    | apply preserves_bind; [|intros ?]
    | apply preserves_try_except; [|intros ?]
    | match goal with
      | |- preserves _ (match ?x with _ => _ end) => destruct x
      | |- preserves _ (if ?x then _ else _) => destruct x
      end ].

Variable extract_info : string -> option Info.

Lemma preserves_extractor url : preserves I (helpers.extractor extract_info url).
Proof. unfold helpers.extractor. preserve. Qed.

Lemma preserves_info_url_item info : preserves I (helpers.info_url_item info).
Proof. unfold helpers.info_url_item. preserve. Qed.

Lemma preserves_attempt s : preserves I (attempt extract_info ctx s).
Proof.
  unfold attempt.
  apply preserves_bind; [apply preserves_extractor | intros info].
  apply preserves_bind; [apply preserves_info_url_item | intros audio_url].
  preserve.
Qed.

Lemma preserves_play_next_in_queue fuel :
  preserves I (helpers.play_next_in_queue extract_info fuel ctx).
Proof.
  induction fuel as [|fuel IH]; [intros b o _ Hrun; discriminate|].
  intros b o HI Hrun.
  destruct (guild_settings b !! guild_id ctx) as [gs|] eqn:H.
  2:{ rewrite (play_next_in_queue_absent _ _ _ _ H) in Hrun. by simplify_eq. }
  destruct (song_queue gs) as [|s rest] eqn:Hq.
  { rewrite (play_next_in_queue_empty _ _ _ _ _ H Hq) in Hrun. simplify_eq. cbn.
    by apply I_settings. }
  rewrite (play_next_in_queue_pop _ _ _ _ _ _ _ H Hq) in Hrun.
  revert Hrun. apply preserves_try_except; [apply preserves_attempt | | by apply I_settings].
  intros e. apply preserves_bind; [apply preserves_emit | intros _].
  apply preserves_bind; [apply preserves_emit | intros _]. exact IH.
Qed.

Lemma preserves_after_song error : preserves I (helpers.after_song ctx error).
Proof. unfold helpers.after_song, helpers.requeue_if_looping. preserve. Qed.

Lemma preserves_dispatch fuel cmd : preserves I (dispatch extract_info fuel ctx cmd).
Proof.
  destruct cmd; cbn [dispatch].
  - unfold music_main.join. preserve.
  - unfold music_main.play. preserve;
      first [apply preserves_extractor | apply preserves_info_url_item].
  - unfold music_main.replay. preserve.
  - unfold music_queue.skip. preserve.
  - unfold music_queue.skip_to. preserve. apply preserves_play_next_in_queue.
  - unfold music_queue.bump. preserve.
  - unfold music_queue.remove. preserve.
  - unfold music_queue.move. preserve.
  - unfold music_queue.add. preserve;
      first [apply preserves_extractor | apply preserves_play_next_in_queue].
  - unfold music_control.pause. preserve.
  - unfold music_control.resume. preserve.
  - unfold music_control.volume. preserve.
  - unfold music_control.loop_track. preserve.
  - unfold music_control.stop. preserve.
  - unfold music_control.leave. preserve.
Qed.

Lemma preserves_invoke fuel cmd : preserves I (invoke extract_info fuel ctx cmd).
Proof.
  unfold invoke, on_command_error.
  apply preserves_try_except; [apply preserves_dispatch | intros e]. preserve.
Qed.

End OneGuild.
End Preservation.

(** ** Guilds do not interfere *)

Lemma same_elsewhere_refl g b : same_elsewhere g b b.
Proof. by intros g' _. Qed.

Section Isolation.
Variable g : Z.
Variable b0 : Bot.

Lemma same_elsewhere_settings ctx gs b :
  guild_id ctx = g -> same_elsewhere g b0 b -> same_elsewhere g b0 (with_settings ctx gs b).
Proof.
  intros Hg Hb g' Hne. destruct (Hb g' Hne) as [Hs Hv]. split; [|exact Hv].
  unfold with_settings. cbn. rewrite lookup_insert_ne by congruence. exact Hs.
Qed.

Lemma same_elsewhere_player ctx p b :
  guild_id ctx = g -> same_elsewhere g b0 b -> same_elsewhere g b0 (with_player ctx p b).
Proof.
  intros Hg Hb g' Hne. destruct (Hb g' Hne) as [Hs Hv]. split; [exact Hs|].
  unfold with_player. cbn. rewrite lookup_insert_ne by congruence. exact Hv.
Qed.

Lemma same_elsewhere_disconnect ctx b :
  guild_id ctx = g -> same_elsewhere g b0 b -> same_elsewhere g b0 (without_voice_client ctx b).
Proof.
  intros Hg Hb g' Hne. destruct (Hb g' Hne) as [Hs Hv]. split; [exact Hs|].
  unfold without_voice_client. cbn. rewrite lookup_delete_ne by congruence. exact Hv.
Qed.

Lemma same_elsewhere_owing c b :
  same_elsewhere g b0 b -> same_elsewhere g b0 (owing c b).
Proof. intros Hb g' Hne. exact (Hb g' Hne). Qed.

Lemma same_elsewhere_scheduling c b :
  same_elsewhere g b0 b -> same_elsewhere g b0 (scheduling c b).
Proof. intros Hb g' Hne. exact (Hb g' Hne). Qed.

Lemma same_elsewhere_invoke extract_info fuel ctx cmd :
  guild_id ctx = g ->
  preserves (same_elsewhere g b0) (invoke extract_info fuel ctx cmd).
Proof.
  intros Hg.
  apply (preserves_invoke (same_elsewhere g b0) g same_elsewhere_settings
           same_elsewhere_owing
           (fun c b => same_elsewhere_player c None b)
           (fun c b => same_elsewhere_player c _ b)
           (fun c b p flag Hc Hb _ => same_elsewhere_player c _ b Hc Hb)
           same_elsewhere_disconnect ctx Hg).
Qed.

Lemma same_elsewhere_after_song ctx error :
  guild_id ctx = g ->
  preserves (same_elsewhere g b0) (helpers.after_song ctx error).
Proof.
  intros Hg.
  apply (preserves_after_song (same_elsewhere g b0) g same_elsewhere_settings
           same_elsewhere_scheduling
           (fun c b => same_elsewhere_player c None b)
           (fun c b => same_elsewhere_player c _ b)
           (fun c b p flag Hc Hb _ => same_elsewhere_player c _ b Hc Hb)
           same_elsewhere_disconnect ctx Hg).
Qed.

Lemma same_elsewhere_play_next_in_queue extract_info fuel ctx :
  guild_id ctx = g ->
  preserves (same_elsewhere g b0) (helpers.play_next_in_queue extract_info fuel ctx).
Proof.
  intros Hg.
  apply (preserves_play_next_in_queue (same_elsewhere g b0) g same_elsewhere_settings
           same_elsewhere_owing
           (fun c b => same_elsewhere_player c None b)
           (fun c b => same_elsewhere_player c _ b)
           (fun c b p flag Hc Hb _ => same_elsewhere_player c _ b Hc Hb)
           same_elsewhere_disconnect ctx Hg).
Qed.

End Isolation.

(** X21: whatever happens in one guild (a command, the end of a track, an
    [after] callback, a scheduled advance) leaves the settings and the voice
    client of every other guild as they were. *)
Theorem events_stay_in_their_guild extract_info fuel ev b b' g :
  event_guild ev b = Some g ->
  step extract_info fuel ev b = Some b' ->
  same_elsewhere g b b'.
Proof.
  intros Hg Hstep. destruct ev as [ctx cmd|ctx|error|]; cbn in Hg, Hstep.
  - simplify_eq.
    destruct (invoke extract_info fuel ctx cmd b) as [o|] eqn:Hrun; [|discriminate].
    cbn in Hstep. simplify_eq.
    by apply (same_elsewhere_invoke _ b extract_info fuel ctx cmd eq_refl b o
                (same_elsewhere_refl _ _)).
  - simplify_eq.
    destruct (voice_clients b !! guild_id ctx) as [[p|]|]; simplify_eq.
    intros g' Hne. split; [reflexivity|]. cbn. by rewrite lookup_insert_ne.
  - destruct (after_owed b) as [|c rest]; [discriminate|]. cbn in Hg. simplify_eq.
    destruct (helpers.after_song c error _) as [o|] eqn:Hrun; [|discriminate].
    cbn in Hstep. simplify_eq.
    refine (same_elsewhere_after_song _ b c error eq_refl _ o _ Hrun).
    intros g' _. split; reflexivity.
  - destruct (loop_tasks b) as [|c rest]; [discriminate|]. cbn in Hg. simplify_eq.
    destruct (helpers.play_next_in_queue extract_info fuel c _) as [o|] eqn:Hrun;
      [|discriminate].
    cbn in Hstep. simplify_eq.
    refine (same_elsewhere_play_next_in_queue _ b extract_info fuel c eq_refl _ o _ Hrun).
    intros g' _. split; reflexivity.
Qed.

(** A second user, in guild 8. *)
Lemma events_stay_in_their_guild_witness :
  exists b',
    step resolve_all 1
      (Invoke {| guild_id := 8; author_voice := true |} (CmdPlay "v")) replayed_bot = Some b' /\
    guild_settings b' !! 7 = guild_settings replayed_bot !! 7 /\
    voice_clients b' !! 7 = voice_clients replayed_bot !! 7.
Proof.
  destruct (step resolve_all 1
              (Invoke {| guild_id := 8; author_voice := true |} (CmdPlay "v")) replayed_bot)
    as [b'|] eqn:Hstep; [|vm_compute in Hstep; discriminate].
  exists b'. split; [reflexivity|].
  apply (events_stay_in_their_guild resolve_all 1
           (Invoke {| guild_id := 8; author_voice := true |} (CmdPlay "v"))
           replayed_bot b' 8 eq_refl Hstep 7).
  discriminate.
Defined.

(** ** Players are registered under their own guild *)

Lemma players_belong_settings ctx gs b :
  players_belong b -> players_belong (with_settings ctx gs b).
Proof. intros Hb g p Hv. by apply Hb. Qed.

Lemma players_belong_player ctx (p : option AudioPlayer) b :
  (forall q, p = Some q -> guild_id (after_ctx q) = guild_id ctx) ->
  players_belong b -> players_belong (with_player ctx p b).
Proof.
  intros Hp Hb g q Hv. unfold with_player in Hv. cbn in Hv.
  destruct (decide (guild_id ctx = g)) as [<-|Hne].
  - rewrite lookup_insert_eq in Hv. simplify_eq. by apply Hp.
  - rewrite lookup_insert_ne in Hv by done. by apply Hb.
Qed.

Lemma players_belong_disconnect ctx b :
  players_belong b -> players_belong (without_voice_client ctx b).
Proof.
  intros Hb g q Hv. unfold without_voice_client in Hv. cbn in Hv.
  destruct (decide (guild_id ctx = g)) as [<-|Hne].
  - by rewrite lookup_delete_eq in Hv.
  - rewrite lookup_delete_ne in Hv by done. by apply Hb.
Qed.

Lemma players_belong_step extract_info fuel ev b b' :
  players_belong b -> step extract_info fuel ev b = Some b' -> players_belong b'.
Proof.
  intros Hb Hstep.
  assert (Hpres : forall ctx,
            (forall fuel cmd, preserves players_belong (invoke extract_info fuel ctx cmd)) /\
            (forall error, preserves players_belong (helpers.after_song ctx error)) /\
            (forall fuel, preserves players_belong
                            (helpers.play_next_in_queue extract_info fuel ctx))).
  { intros ctx.
    assert (Hset : forall c gs b1, guild_id c = guild_id ctx -> players_belong b1 ->
                                   players_belong (with_settings c gs b1))
      by (intros; by apply players_belong_settings).
    assert (Hnone : forall c b1, guild_id c = guild_id ctx -> players_belong b1 ->
                                 players_belong (with_player c None b1))
      by (intros; by apply players_belong_player).
    assert (Hstart : forall c b1, guild_id c = guild_id ctx -> players_belong b1 ->
              players_belong (with_player c (Some {| after_ctx := c; paused := false |}) b1)).
    { intros. apply players_belong_player; [|done]. by intros q [= <-]. }
    assert (Hpause : forall c b1 p flag, guild_id c = guild_id ctx -> players_belong b1 ->
              voice_clients b1 !! guild_id c = Some (Some p) ->
              players_belong
                (with_player c (Some {| after_ctx := after_ctx p; paused := flag |}) b1)).
    { intros c b1 p flag _ Hb1 Hv. apply players_belong_player; [|done].
      intros q [= <-]. cbn. by apply Hb1. }
    assert (Hdisc : forall c b1, guild_id c = guild_id ctx -> players_belong b1 ->
                                 players_belong (without_voice_client c b1))
      by (intros; by apply players_belong_disconnect).
    assert (Howe : forall c b1, players_belong b1 -> players_belong (owing c b1))
      by (intros c b1 Hb1; exact Hb1).
    assert (Hsched : forall c b1, players_belong b1 -> players_belong (scheduling c b1))
      by (intros c b1 Hb1; exact Hb1).
    split; [|split].
    - intros f cmd.
      apply (preserves_invoke players_belong (guild_id ctx) Hset Howe Hnone Hstart Hpause
               Hdisc ctx eq_refl).
    - intros error.
      apply (preserves_after_song players_belong (guild_id ctx) Hset Hsched Hnone Hstart
               Hpause Hdisc ctx eq_refl).
    - intros f.
      apply (preserves_play_next_in_queue players_belong (guild_id ctx) Hset Howe Hnone
               Hstart Hpause Hdisc ctx eq_refl). }
  destruct ev as [ctx cmd|ctx|error|]; cbn in Hstep.
  - destruct (invoke extract_info fuel ctx cmd b) as [o|] eqn:Hrun; [|discriminate].
    cbn in Hstep. simplify_eq. by apply (proj1 (Hpres ctx) fuel cmd b o).
  - destruct (voice_clients b !! guild_id ctx) as [[p|]|]; simplify_eq.
    by apply (players_belong_player ctx None).
  - destruct (after_owed b) as [|c rest]; [discriminate|].
    destruct (helpers.after_song c error _) as [o|] eqn:Hrun; [|discriminate].
    cbn in Hstep. simplify_eq. refine (proj1 (proj2 (Hpres c)) error _ o _ Hrun). exact Hb.
  - destruct (loop_tasks b) as [|c rest]; [discriminate|].
    destruct (helpers.play_next_in_queue extract_info fuel c _) as [o|] eqn:Hrun;
      [|discriminate].
    cbn in Hstep. simplify_eq. refine (proj2 (proj2 (Hpres c)) fuel _ o _ Hrun). exact Hb.
Qed.

(** X22: in every state the bot can reach, the player of each guild's voice
    client carries an [after] callback for that same guild: a track's
    completion is always handled in the guild that played it. *)
Theorem reachable_players_belong extract_info b :
  reachable extract_info b -> players_belong b.
Proof.
  induction 1 as [|b fuel ev b' _ IH Hstep].
  - intros g p Hv. cbn in Hv. by rewrite lookup_empty in Hv.
  - by apply (players_belong_step extract_info fuel ev b b').
Qed.

Lemma two_players_bot_reachable : reachable resolve_all two_players_bot.
Proof.
  eapply (reachable_step _ _ 1%nat (Invoke bob (CmdPlay "v"))).
  - eapply (reachable_step _ _ 1%nat (Invoke alice (CmdPlay "u"))).
    + apply reachable_initial.
    + vm_compute. reflexivity.
  - vm_compute. reflexivity.
Qed.

(** Two guilds with a player each, after a [play] in both. *)
Lemma reachable_players_belong_witness :
  voice_clients two_players_bot !! 7 = Some (Some {| after_ctx := alice; paused := false |}) /\
  voice_clients two_players_bot !! 8 = Some (Some {| after_ctx := bob; paused := false |}) /\
  players_belong two_players_bot.
Proof.
  split; [reflexivity|]. split; [reflexivity|].
  apply (reachable_players_belong resolve_all). exact two_players_bot_reachable.
Defined.

(** ** The paginated queue view *)

Lemma py_slice_chunk {A} (l : list A) (p n : Z) :
  0 <= p -> 0 < n ->
  py_slice l (p * n) (p * n + n) = take (Z.to_nat n) (drop (Z.to_nat (p * n)) l).
Proof.
  intros Hp Hn. unfold py_slice, slice_index.
  destruct (Z.ltb_spec (p * n) 0) as [?|_]; [nia|].
  destruct (Z.ltb_spec (p * n + n) 0) as [?|_]; [nia|].
  destruct (Z_lt_le_dec (p * n) (Z.of_nat (length l))) as [Hlt|Hge].
  - rewrite (Z.min_l (p * n)) by lia.
    destruct (Z_le_gt_dec (p * n + n) (Z.of_nat (length l))) as [Hle|Hgt].
    + rewrite Z.min_l by lia. f_equal. lia.
    + rewrite Z.min_r by lia.
      rewrite !take_ge; [done| |]; rewrite length_drop; lia.
  - rewrite !Z.min_r by lia. rewrite Z.sub_diag. cbn.
    rewrite (drop_ge l (Z.to_nat (p * n))) by lia. by rewrite take_nil.
Qed.

Lemma chunks_take {A} (l : list A) (n t : nat) :
  concat ((fun p => take n (drop (p * n) l)) <$> seq 0 t) = take (t * n) l.
Proof.
  induction t as [|t IH]; [by rewrite take_0|].
  rewrite seq_S, fmap_app, concat_app, IH. cbn. rewrite app_nil_r.
  rewrite take_take_drop. f_equal. lia.
Qed.

Lemma total_pages_eq (v : queue_view.QueueView) :
  0 < queue_view.songs_per_page v ->
  queue_view.total_pages v =
  Some ((Z.of_nat (length (queue_view.queue v)) - 1) / queue_view.songs_per_page v + 1).
Proof.
  intros Hn. unfold queue_view.total_pages, floordiv.
  destruct (Z.eqb_spec (queue_view.songs_per_page v) 0) as [?|_]; [lia|]. reflexivity.
Qed.

Lemma total_pages_cover (len n : Z) :
  0 <= len -> 0 < n -> 0 <= (len - 1) / n + 1 /\ len <= ((len - 1) / n + 1) * n.
Proof.
  intros Hl Hn.
  pose proof (Z.div_mod (len - 1) n ltac:(lia)) as Hdm.
  pose proof (Z.mod_pos_bound (len - 1) n Hn) as Hmod.
  assert (-1 <= (len - 1) / n) by (apply Z.div_le_lower_bound; lia).
  split; [lia|nia].
Qed.

(** X23: for a positive page size the pages of a [QueueView] partition the
    queue: page 0 up to the last page, laid end to end, are the queue. *)
Theorem pages_partition_queue (v : queue_view.QueueView) total :
  0 < queue_view.songs_per_page v ->
  queue_view.total_pages v = Some total ->
  concat ((fun p => queue_view.page_songs (at_page v (Z.of_nat p)))
            <$> seq 0 (Z.to_nat total))
  = queue_view.queue v.
Proof.
  intros Hn Htot. rewrite (total_pages_eq v Hn) in Htot. injection Htot as <-.
  set (n := queue_view.songs_per_page v) in *. set (q := queue_view.queue v).
  destruct (total_pages_cover (Z.of_nat (length q)) n ltac:(lia) Hn) as [Hpos Hcov].
  transitivity (concat ((fun p => take (Z.to_nat n) (drop (p * Z.to_nat n) q))
                          <$> seq 0 (Z.to_nat ((Z.of_nat (length q) - 1) / n + 1)))).
  - f_equal. apply list_fmap_ext. intros i p _.
    unfold queue_view.page_songs, at_page. cbn. fold n q.
    rewrite py_slice_chunk by lia. do 2 f_equal. nia.
  - rewrite chunks_take. apply take_ge. nia.
Qed.

Lemma pages_partition_queue_witness :
  concat ((fun p => queue_view.page_songs
                      (at_page {| queue_view.queue := three_songs;
                                  queue_view.songs_per_page := 2;
                                  queue_view.current_page := 0;
                                  queue_view.previous_disabled := true;
                                  queue_view.next_disabled := false |} (Z.of_nat p)))
            <$> seq 0 (Z.to_nat 2))
  = three_songs.
Proof.
  apply (pages_partition_queue
           {| queue_view.queue := three_songs; queue_view.songs_per_page := 2;
              queue_view.current_page := 0; queue_view.previous_disabled := true;
              queue_view.next_disabled := false |} 2).
  - reflexivity.
  - reflexivity.
Defined.

Lemma enumerate_lookup {A} (l : list A) : forall (k : Z) (i : nat),
  enumerate l k !! i = (fun x => (k + Z.of_nat i, x)) <$> l !! i.
Proof.
  induction l as [|x l IH]; intros k i; [by destruct i|].
  destruct i as [|i]; cbn.
  - by rewrite Z.add_0_r.
  - rewrite IH. destruct (l !! i); cbn; [|done]. do 2 f_equal. lia.
Qed.

(** X24: every field of the embed of a [QueueView] carries the 1-based
    position of its song in the whole queue, whatever page is shown: the
    field numbered [i] shows the title and the url of the queue's [i]-th
    entry, so the numbers on screen are the positions [bump], [remove],
    [move] and [skip_to] take. *)
Theorem embed_numbers_are_positions (v : queue_view.QueueView) e f :
  0 < queue_view.songs_per_page v ->
  0 <= queue_view.current_page v ->
  queue_view.get_embed v = Some e ->
  f ∈ fields e ->
  1 <= field_number f <= Z.of_nat (length (queue_view.queue v)) /\
  queue_view.queue v !! Z.to_nat (field_number f - 1) = Some (field_name f, field_value f).
Proof.
  intros Hn Hp Hemb Hin. unfold queue_view.get_embed in Hemb.
  rewrite (total_pages_eq v Hn) in Hemb. cbn in Hemb. injection Hemb as <-. cbn in Hin.
  apply list_elem_of_fmap in Hin. destruct Hin as ([k [t u]] & -> & Hin). cbn.
  apply list_elem_of_lookup in Hin. destruct Hin as [i Hi].
  rewrite enumerate_lookup in Hi.
  unfold queue_view.page_songs in Hi. rewrite py_slice_chunk in Hi by lia.
  destruct (take _ _ !! i) as [[t' u']|] eqn:Hl; [|discriminate].
  cbn in Hi. injection Hi as <- <- <-.
  pose proof (lookup_lt_Some _ _ _ Hl) as Hlt. rewrite length_take in Hlt.
  rewrite lookup_take_lt in Hl by lia. rewrite lookup_drop in Hl.
  pose proof (lookup_lt_Some _ _ _ Hl) as Hlt'.
  split; [unfold Song in *; nia|].
  rewrite <- Hl. f_equal. nia.
Qed.

Lemma embed_numbers_are_positions_witness :
  1 <= 3 <= Z.of_nat (length three_songs) /\
  three_songs !! Z.to_nat (3 - 1) = Some ("S3", "u3").
Proof.
  apply (embed_numbers_are_positions
           {| queue_view.queue := three_songs; queue_view.songs_per_page := 2;
              queue_view.current_page := 1; queue_view.previous_disabled := false;
              queue_view.next_disabled := true |}
           {| embed_title := "Current Queue"; description := PageOf 2 2;
              fields := [{| field_number := 3; field_name := "S3"; field_value := "u3" |}] |}
           {| field_number := 3; field_name := "S3"; field_value := "u3" |}).
  - reflexivity.
  - cbn. lia.
  - reflexivity.
  - cbn. constructor.
Defined.

Lemma get_embed_some (v : queue_view.QueueView) total :
  queue_view.total_pages v = Some total -> is_Some (queue_view.get_embed v).
Proof. intros H. unfold queue_view.get_embed. rewrite H. cbn. eauto. Qed.

Ltac decide_Z_tests :=
  repeat match goal with
         | |- context [Z.eqb ?a ?b] => destruct (Z.eqb_spec a b)
         | |- context [Z.leb ?a ?b] => destruct (Z.leb_spec a b)
         end;
  first [done | lia].

Lemma init_consistent q n v :
  0 < n -> queue_view.init q n = Some v ->
  queue_view.consistent v /\ queue_view.queue v = q /\ queue_view.current_page v = 0.
Proof.
  intros Hn Hinit. unfold queue_view.init in Hinit.
  rewrite total_pages_eq in Hinit by (cbn; lia). cbn in Hinit. injection Hinit as <-.
  split; [|done]. eexists. split; [apply total_pages_eq; cbn; lia|]. cbn.
  set (total := (Z.of_nat (length q) - 1) / n + 1).
  destruct (total_pages_cover (Z.of_nat (length q)) n ltac:(lia) Hn) as [Hpos _].
  fold total in Hpos.
  split; [lia|]. split; [lia|]. split; [lia|]. split; [done|]. decide_Z_tests.
Qed.

Lemma click_consistent c v v' :
  queue_view.consistent v -> queue_view.click c v = Some v' ->
  queue_view.consistent v' /\ queue_view.queue v' = queue_view.queue v.
Proof.
  intros (total & Htot & Hn & Hp & Hrange & Hprev & Hnext) Hclick.
  unfold queue_view.click in Hclick. destruct c.
  - unfold queue_view.previous_button in Hclick.
    destruct (Z.gtb_spec (queue_view.current_page v) 0) as [Hgt|Hle].
    2:{ cbn in Hclick. simplify_eq. split; [|done]. exists total. done. }
    match type of Hclick with
    | context [queue_view.get_embed ?w] =>
        destruct (get_embed_some w total) as [e He]; [exact Htot|];
        rewrite He in Hclick
    end.
    cbn in Hclick. simplify_eq. split; [|done]. exists total. cbn.
    split; [exact Htot|]. split; [lia|]. split; [lia|]. split; [lia|].
    rewrite Hprev. split; decide_Z_tests.
  - unfold queue_view.next_button in Hclick. rewrite Htot in Hclick. cbn in Hclick.
    destruct (Z.ltb_spec (queue_view.current_page v) (total - 1)) as [Hlt|Hge].
    2:{ cbn in Hclick. simplify_eq. split; [|done]. exists total. done. }
    match type of Hclick with
    | context [queue_view.get_embed ?w] =>
        destruct (get_embed_some w total) as [e He]; [exact Htot|];
        rewrite He in Hclick
    end.
    cbn in Hclick. simplify_eq. split; [|done]. exists total. cbn.
    split; [exact Htot|]. split; [lia|]. split; [lia|]. split; [lia|].
    rewrite Hnext. split; decide_Z_tests.
Qed.

Lemma click_some c v :
  queue_view.consistent v -> is_Some (queue_view.click c v).
Proof.
  intros (total & Htot & _). unfold queue_view.click. destruct c.
  - unfold queue_view.previous_button.
    destruct (queue_view.current_page v >? 0); [|cbn; eauto].
    match goal with
    | |- context [queue_view.get_embed ?w] =>
        destruct (get_embed_some w total) as [e He]; [exact Htot|]; rewrite He
    end. cbn. eauto.
  - unfold queue_view.next_button. rewrite Htot. cbn.
    destruct (queue_view.current_page v <? total - 1); [|cbn; eauto].
    match goal with
    | |- context [queue_view.get_embed ?w] =>
        destruct (get_embed_some w total) as [e He]; [exact Htot|]; rewrite He
    end. cbn. eauto.
Qed.

(** X25: a [QueueView] created with a positive page size stays consistent
    under any sequence of clicks on "Previous" and "Next": every click is
    handled, the view shows a page of the same queue (never a page past the
    last one), "Previous" is disabled exactly on the first page and "Next"
    exactly on the last. *)
Theorem view_stays_consistent q n v0 (cs : list queue_view.Click) :
  0 < n ->
  queue_view.init q n = Some v0 ->
  exists v,
    queue_view.clicks cs v0 = Some v /\
    queue_view.consistent v /\
    queue_view.queue v = q.
Proof.
  intros Hn Hinit. destruct (init_consistent q n v0 Hn Hinit) as (Hc & Hq & _).
  clear Hinit. revert v0 Hc Hq.
  induction cs as [|c cs IH]; intros v0 Hc Hq.
  - exists v0. by repeat split.
  - destruct (click_some c v0 Hc) as [v1 H1].
    destruct (click_consistent c v0 v1 Hc H1) as [Hc1 Hq1].
    destruct (IH v1 Hc1 ltac:(congruence)) as (v & Hrun & Hcv & Hqv).
    exists v. cbn. rewrite H1. cbn. by repeat split.
Qed.

Lemma view_stays_consistent_witness :
  exists v,
    queue_view.clicks [queue_view.Next; queue_view.Next; queue_view.Previous]
      {| queue_view.queue := three_songs; queue_view.songs_per_page := 2;
         queue_view.current_page := 0; queue_view.previous_disabled := true;
         queue_view.next_disabled := false |} = Some v /\
    queue_view.consistent v.
Proof.
  destruct (view_stays_consistent three_songs 2
              {| queue_view.queue := three_songs; queue_view.songs_per_page := 2;
                 queue_view.current_page := 0; queue_view.previous_disabled := true;
                 queue_view.next_disabled := false |}
              [queue_view.Next; queue_view.Next; queue_view.Previous])
    as (v & Hrun & Hc & _).
  - reflexivity.
  - reflexivity.
  - exists v. by split.
Defined.

(** X26: on a consistent view that is not on its last page, "Next" followed
    by "Previous" gives back the very same view. *)
Theorem next_then_previous (v : queue_view.QueueView) total :
  queue_view.consistent v ->
  queue_view.total_pages v = Some total ->
  queue_view.current_page v < total - 1 ->
  exists v1,
    queue_view.click queue_view.Next v = Some v1 /\
    queue_view.current_page v1 = queue_view.current_page v + 1 /\
    queue_view.click queue_view.Previous v1 = Some v.
Proof.
  intros (total' & Htot' & Hn & Hp & Hrange & Hprev & Hnext) Htot Hlt.
  rewrite Htot in Htot'. injection Htot' as <-.
  unfold queue_view.click at 1. unfold queue_view.next_button. rewrite Htot. cbn.
  destruct (Z.ltb_spec (queue_view.current_page v) (total - 1)) as [_|?]; [|lia].
  match goal with
  | |- context [queue_view.get_embed ?w] =>
      destruct (get_embed_some w total) as [e He]; [exact Htot|]; rewrite He
  end.
  cbn. eexists. split; [reflexivity|]. cbn. split; [reflexivity|].
  unfold queue_view.click, queue_view.previous_button. cbn.
  destruct (Z.gtb_spec (queue_view.current_page v + 1) 0) as [_|?]; [|lia].
  match goal with
  | |- context [queue_view.get_embed ?w] =>
      destruct (get_embed_some w total) as [e' He']; [exact Htot|]; rewrite He'
  end.
  cbn. f_equal. destruct v as [q n p pd nd]. cbn in *. f_equal.
  - lia.
  - rewrite Hprev. replace (p + 1 - 1) with p by lia. by destruct (p =? 0).
  - rewrite Hnext. destruct (Z.leb_spec (total - 1) p); [lia|done].
Qed.

Lemma next_then_previous_witness :
  exists v1,
    queue_view.click queue_view.Next
      {| queue_view.queue := three_songs; queue_view.songs_per_page := 2;
         queue_view.current_page := 0; queue_view.previous_disabled := true;
         queue_view.next_disabled := false |} = Some v1 /\
    queue_view.click queue_view.Previous v1 =
      Some {| queue_view.queue := three_songs; queue_view.songs_per_page := 2;
              queue_view.current_page := 0; queue_view.previous_disabled := true;
              queue_view.next_disabled := false |}.
Proof.
  destruct (next_then_previous
              {| queue_view.queue := three_songs; queue_view.songs_per_page := 2;
                 queue_view.current_page := 0; queue_view.previous_disabled := true;
                 queue_view.next_disabled := false |} 2)
    as (v1 & H1 & _ & H2).
  - exists 2. repeat split; cbn; lia.
  - reflexivity.
  - cbn. lia.
  - exists v1. by split.
Defined.

(** ** [shuffle], [playlist] and [search] *)

(** X27: [shuffle] refuses a queue of fewer than two songs and leaves the bot
    as it is; otherwise, [random.shuffle] giving a permutation, the new queue
    holds the same songs as the old one and nothing else of the guild's
    settings changes. *)
Theorem shuffle_keeps_songs (shuffle : list Song -> list Song) ctx b gs :
  (forall l, shuffle l ≡ₚ l) ->
  guild_settings b !! guild_id ctx = Some gs ->
  ((length (song_queue gs) < 2)%nat ->
   music_queue.shuffle_queue shuffle ctx b =
   Some {| result := Returned NoticeNotEnoughToShuffle; final := b; effects := [] |}) /\
  ((2 <= length (song_queue gs))%nat ->
   music_queue.shuffle_queue shuffle ctx b =
   Some {| result := Returned NoticeShuffled;
           final := with_settings ctx (set_song_queue (shuffle (song_queue gs)) gs) b;
           effects := [] |} /\
   shuffle (song_queue gs) ≡ₚ song_queue gs /\
   length (shuffle (song_queue gs)) = length (song_queue gs)).
Proof.
  intros Hperm H. split.
  - intros Hlt. unfold music_queue.shuffle_queue, bind. rewrite (settings_run _ _ _ H). cbn.
    destruct (Nat.leb_spec (length (song_queue gs)) 1) as [_|?]; [reflexivity|lia].
  - intros Hge. split; [|split; [apply Hperm | by rewrite (Hperm (song_queue gs))]].
    unfold music_queue.shuffle_queue, bind. rewrite (settings_run _ _ _ H). cbn.
    destruct (Nat.leb_spec (length (song_queue gs)) 1) as [?|_]; [lia|].
    rewrite (settings_run _ _ _ H). cbn.
    rewrite (clear_and_extend_run _ _ _ _ H). reflexivity.
Qed.

Lemma shuffle_keeps_songs_witness :
  queue_of alice <$>
    (final <$> music_queue.shuffle_queue (@rev Song) alice
                 (bot_with alice (set_song_queue three_songs default_settings)))
  = Some [("S3", "u3"); ("S2", "u2"); ("S1", "u1")].
Proof.
  destruct (shuffle_keeps_songs (@rev Song) alice
              (bot_with alice (set_song_queue three_songs default_settings))
              (set_song_queue three_songs default_settings)) as [_ Hshuffle].
  - intros l. symmetry. apply Permutation_rev.
  - reflexivity.
  - destruct Hshuffle as (Hrun & _ & _); [cbn; lia|].
    rewrite Hrun. vm_compute. reflexivity.
Defined.

Lemma append_run ctx b gs s :
  guild_settings b !! guild_id ctx = Some gs ->
  append ctx s b =
  Some {| result := Returned tt;
          final := with_settings ctx (set_song_queue (song_queue gs ++ [s]) gs) b;
          effects := [] |}.
Proof.
  intros H. unfold append, bind. rewrite (settings_run _ _ _ H). cbn.
  rewrite (update_settings_run _ _ _ _ H). reflexivity.
Qed.

Lemma for_each_append ctx l : forall b gs,
  guild_settings b !! guild_id ctx = Some gs ->
  for_each l (append ctx) b =
  Some {| result := Returned tt;
          final := with_settings ctx (set_song_queue (song_queue gs ++ l) gs) b;
          effects := [] |}.
Proof.
  induction l as [|s l IH]; intros b gs H.
  - cbn. by rewrite app_nil_r, set_song_queue_same, (with_settings_same _ _ _ H).
  - cbn [for_each]. unfold bind. rewrite (append_run _ _ _ _ H). cbn.
    rewrite (IH _ _ (with_settings_lookup _ _ _)). cbn.
    rewrite with_settings_twice. cbn. by rewrite <- app_assoc.
Qed.

Lemma author_channel_joined ctx b :
  is_Some (voice_clients b !! guild_id ctx) \/ author_voice ctx = true ->
  music_main.author_channel ctx b =
  Some {| result := Returned true; final := joined ctx b; effects := [] |}.
Proof.
  intros Hv. unfold music_main.author_channel, joined, bind. rewrite voice_client_run. cbn.
  destruct (voice_clients b !! guild_id ctx) as [vc|] eqn:Hvc; [reflexivity|].
  destruct Hv as [[? ?]|Ha]; [discriminate|]. rewrite Ha. reflexivity.
Qed.

Lemma author_channel_run ctx b vc :
  voice_clients b !! guild_id ctx = Some vc ->
  music_main.author_channel ctx b =
  Some {| result := Returned true; final := b; effects := [] |}.
Proof.
  intros Hv. unfold music_main.author_channel, bind. rewrite voice_client_run. cbn.
  by rewrite Hv.
Qed.

Section PlaylistFacts.
Variable extract_info : string -> option Info.
Variable extract_playlist : string -> option PlaylistInfo.
Variable shuffle : list Song -> list Song.

(** X28: [playlist] while a track plays, for a playlist with a title whose
    entries all have a url, appends the entries' songs behind the queued
    ones, in the order [random.shuffle] gives them; nothing already queued
    moves, and the current track is untouched. *)
Theorem playlist_appends_shuffled fuel ctx url b gs p info es songs title :
  (forall l, shuffle l ≡ₚ l) ->
  guild_settings b !! guild_id ctx = Some gs ->
  voice_clients b !! guild_id ctx = Some (Some p) ->
  paused p = false ->
  extract_playlist url = Some info ->
  entries info = Some es ->
  playlist_title info = Some title ->
  music_main.entry_songs es = Returned songs ->
  music_main.playlist extract_info extract_playlist shuffle fuel ctx url b =
    Some {| result := Returned (NoticePlaylistAdded (length es) title);
            final := with_settings ctx
                       (set_song_queue (song_queue gs ++ shuffle songs) gs) b;
            effects := [] |} /\
  take (length (song_queue gs)) (song_queue gs ++ shuffle songs) = song_queue gs /\
  drop (length (song_queue gs)) (song_queue gs ++ shuffle songs) ≡ₚ songs.
Proof.
  intros Hperm H Hv Hp Hx He Ht Hs. split.
  - unfold music_main.playlist, bind. rewrite (author_channel_run _ _ _ Hv). cbn.
    rewrite (ensure_guild_settings_present _ _ _ H). cbn.
    unfold try_except, bind. rewrite Hx. cbn. rewrite He. cbn. rewrite Hs. cbn.
    rewrite (for_each_append _ _ _ _ H). cbn. rewrite Ht. cbn.
    rewrite client_is_playing_run. cbn. rewrite with_settings_voice, Hv. cbn.
    rewrite Hp. reflexivity.
  - split; [by rewrite take_app_length|]. by rewrite drop_app_length.
Qed.

(** X29: a playlist with an entry that has no url adds nothing.  For a guild
    that has a voice client or an author who sits in a voice channel (so that
    the command gets past its voice check), [playlist] logs the [KeyError]
    and answers that an error occurred, and the guild's queue and current
    track are what they were, the entries before the bad one included.  The
    only changes are the voice connect and the creation of the guild's
    settings that precede the [try], for a guild that lacked them: a guild
    that already had its settings and a voice client is left exactly as it
    was. *)
Theorem playlist_bad_entry_adds_nothing fuel ctx url b info es :
  is_Some (voice_clients b !! guild_id ctx) \/ author_voice ctx = true ->
  extract_playlist url = Some info ->
  entries info = Some es ->
  Exists (fun entry => info_url entry = None) es ->
  music_main.playlist extract_info extract_playlist shuffle fuel ctx url b =
    Some {| result := Returned NoticePlaylistError; final := ensured ctx (joined ctx b);
            effects := [LogError KeyError] |} /\
  queue_of ctx (ensured ctx (joined ctx b)) = queue_of ctx b /\
  current_of ctx (ensured ctx (joined ctx b)) = current_of ctx b /\
  (is_Some (guild_settings b !! guild_id ctx) ->
   is_Some (voice_clients b !! guild_id ctx) ->
     ensured ctx (joined ctx b) = b).
Proof.
  intros Hv Hx He Hbad.
  assert (Hs : music_main.entry_songs es = Raised KeyError).
  { clear He. induction Hbad as [entry es' Hnone | entry es' _ IH].
    - cbn [music_main.entry_songs]. unfold music_main.entry_song. by rewrite Hnone.
    - cbn [music_main.entry_songs]. rewrite IH.
      unfold music_main.entry_song. by destruct (info_url entry). }
  split; [|split; [|split]].
  - unfold music_main.playlist, bind. rewrite (author_channel_joined _ _ Hv). cbn.
    rewrite ensure_guild_settings_run. cbn.
    unfold try_except, bind. rewrite Hx. cbn. rewrite He. cbn. rewrite Hs. reflexivity.
  - rewrite queue_of_ensured. unfold queue_of. by rewrite guild_settings_joined.
  - rewrite current_of_ensured. unfold current_of. by rewrite guild_settings_joined.
  - intros [gs Hgs] [vc Hvc]. unfold ensured. rewrite guild_settings_joined, Hgs.
    unfold joined. by rewrite Hvc.
Qed.

End PlaylistFacts.

(** A playlist of two entries, and one whose second entry has no url. *)
Lemma playlist_appends_shuffled_witness :
  queue_of alice <$>
    (final <$> music_main.playlist resolve_all
                 (fun _ => Some {| entries := Some [ {| info_url := Some "p1";
                                                        info_title := Some "P1" |};
                                                     {| info_url := Some "p2";
                                                        info_title := None |} ];
                                   playlist_title := Some "mix" |})
                 (@rev Song) 1 alice "list"
                 (playing_bot alice (looping_settings ("T", "t") three_songs)))
  = Some (three_songs ++ [("p2", "p2"); ("P1", "p1")]).
Proof.
  destruct (playlist_appends_shuffled resolve_all
              (fun _ => Some {| entries := Some [ {| info_url := Some "p1";
                                                     info_title := Some "P1" |};
                                                  {| info_url := Some "p2";
                                                     info_title := None |} ];
                                playlist_title := Some "mix" |})
              (@rev Song) 1 alice "list"
              (playing_bot alice (looping_settings ("T", "t") three_songs))
              (looping_settings ("T", "t") three_songs)
              {| after_ctx := alice; paused := false |}
              {| entries := Some [ {| info_url := Some "p1"; info_title := Some "P1" |};
                                   {| info_url := Some "p2"; info_title := None |} ];
                 playlist_title := Some "mix" |}
              [ {| info_url := Some "p1"; info_title := Some "P1" |};
                {| info_url := Some "p2"; info_title := None |} ]
              [("P1", "p1"); ("p2", "p2")] "mix") as (Hrun & _).
  - intros l. symmetry. apply Permutation_rev.
  - reflexivity.
  - reflexivity.
  - reflexivity.
  - reflexivity.
  - reflexivity.
  - reflexivity.
  - reflexivity.
  - rewrite Hrun. vm_compute. reflexivity.
Defined.

Lemma playlist_bad_entry_adds_nothing_witness :
  music_main.playlist resolve_all
    (fun _ => Some {| entries := Some [ {| info_url := Some "p1"; info_title := Some "P1" |};
                                        {| info_url := None; info_title := Some "P2" |} ];
                      playlist_title := Some "mix" |})
    (@rev Song) 1 alice "list"
    (playing_bot alice (looping_settings ("T", "t") three_songs))
  = Some {| result := Returned NoticePlaylistError;
            final := playing_bot alice (looping_settings ("T", "t") three_songs);
            effects := [LogError KeyError] |} /\
  queue_of alice (playing_bot alice (looping_settings ("T", "t") three_songs))
    = three_songs.
Proof.
  destruct (playlist_bad_entry_adds_nothing resolve_all
              (fun _ => Some {| entries := Some [ {| info_url := Some "p1";
                                                     info_title := Some "P1" |};
                                                  {| info_url := None;
                                                     info_title := Some "P2" |} ];
                                playlist_title := Some "mix" |})
              (@rev Song) 1 alice "list"
              (playing_bot alice (looping_settings ("T", "t") three_songs))
              {| entries := Some [ {| info_url := Some "p1"; info_title := Some "P1" |};
                                   {| info_url := None; info_title := Some "P2" |} ];
                 playlist_title := Some "mix" |}
              [ {| info_url := Some "p1"; info_title := Some "P1" |};
                {| info_url := None; info_title := Some "P2" |} ])
    as (Hrun & _ & _ & Hsame).
  - left. eexists. reflexivity.
  - reflexivity.
  - reflexivity.
  - apply Exists_cons_tl. apply Exists_cons_hd. reflexivity.
  - split; [|reflexivity].
    rewrite Hrun. rewrite Hsame; [reflexivity | eexists; reflexivity | eexists; reflexivity].
Defined.

(** X30: in [search], a choice between 1 and 10 that is larger than the
    number of results is not answered as an invalid choice: indexing the
    results raises [IndexError], which the command lets through, and nothing
    is queued. *)
Theorem search_choice_beyond_results extract_info (yt_search : string -> option (list Info))
    fuel ctx query b gs vc results (n : nat) :
  guild_settings b !! guild_id ctx = Some gs ->
  voice_clients b !! guild_id ctx = Some vc ->
  yt_search query = Some results ->
  results <> [] ->
  (length results < n <= 10)%nat ->
  music_main.search extract_info yt_search fuel ctx query (Some n) b =
    Some {| result := Raised IndexError; final := b; effects := [] |}.
Proof.
  intros H Hv Hy Hne Hn.
  unfold music_main.search, bind. rewrite (author_channel_run _ _ _ Hv). cbn.
  rewrite (ensure_guild_settings_present _ _ _ H). cbn. rewrite Hy. cbn.
  destruct results as [|r results]; [done|].
  destruct (Z.leb_spec 1 (Z.of_nat n)) as [_|?]; [|lia].
  destruct (Z.leb_spec (Z.of_nat n) 10) as [_|?]; [|lia].
  cbn [andb]. unfold list_item, py_index.
  destruct (Z.ltb_spec (Z.of_nat n - 1) 0) as [?|_]; [lia|].
  destruct (Z.leb_spec 0 (Z.of_nat n - 1)) as [_|?]; [|lia].
  destruct (Z.ltb_spec (Z.of_nat n - 1) (Z.of_nat (length (r :: results)))) as [?|_];
    [lia|].
  reflexivity.
Qed.

Lemma search_choice_beyond_results_witness :
  music_main.search resolve_all
    (fun _ => Some [ {| info_url := Some "r1"; info_title := Some "R1" |} ])
    1 alice "q" (Some 7%nat) (bot_with alice default_settings)
  = Some {| result := Raised IndexError; final := bot_with alice default_settings;
            effects := [] |}.
Proof.
  apply (search_choice_beyond_results resolve_all _ 1 alice "q"
           (bot_with alice default_settings) default_settings None
           [ {| info_url := Some "r1"; info_title := Some "R1" |} ] 7).
  - reflexivity.
  - reflexivity.
  - reflexivity.
  - discriminate.
  - cbn. lia.
Defined.
